(** * Wikimedia image search: response normalizer and thumbnail compositor

    A shallow embedding of the Wikimedia integration module:
    [getAspectRatio], [parseWikimediaResponse] with its text helpers,
    [calculateThumbnailWidth], [replaceUrlWidth] and
    [generateThumbnailComposite], with the constants of [constants.ts] and the
    interfaces of the types module; then [buildWikimediaApiUrl],
    [fetchWikimediaImages] and, from the server module,
    [formatSearchResults], [searchWikimediaImages] and the handler of the
    [wikimedia_search_images] tool.

    Conventions of the embedding:
    - a JavaScript string is the list of its UTF-16 code units ([jsstring]),
      so [length] is the [.length] of the source;
    - the numbers JSON delivers for ordinals, sizes and pixel dimensions are
      integers ([Z]), within the range doubles hold exactly: below [2^53] in
      absolute value, where sums are exact and a number prints as its plain
      decimal digits; properties that rest on the digits or on a sum say
      so in their hypotheses;
    - where the source divides, multiplies by a quotient or subtracts
      quotients, the result is the IEEE-754 binary64 value, obtained by
      rounding the exact rational ([round_double]);
    - an absent property ([undefined]) is [None]. *)

From Stdlib Require Import String Ascii DecimalString.
From Stdlib Require Import ZArith QArith Qround Qabs Bool Lia.
From Stdlib Require Import List Sorted Permutation.
From Stdlib Require Import Lqa.
From Stdlib Require DecimalFacts DecimalPos DecimalN.
Import ListNotations.
Open Scope Z_scope.

(** ** JavaScript strings *)

Definition jsstring := list N.

Fixpoint lit (s : string) : jsstring :=
  match s with
  | EmptyString => []
  | String c r => N_of_ascii c :: lit r
  end.

(** Truthiness of an optional string: present and not empty. *)
Definition truthy_str (s : option jsstring) : bool :=
  match s with
  | Some (_ :: _) => true
  | _ => false
  end.

(** Truthiness of an optional number: present and not zero. *)
Definition truthy_num (n : option Z) : bool :=
  match n with
  | Some z => negb (z =? 0)
  | None => false
  end.

(** Template-literal rendering of an integer: [`${n}`].  These are the
    digits JavaScript prints for the integers a double holds exactly, those
    below [2^53] in absolute value; past that range the source prints the
    shortest digits that read back as the same double, and from [1e21] on
    an exponent. *)
Definition number_to_string (z : Z) : jsstring :=
  lit (NilZero.string_of_int (Z.to_int z)).

(** ** Double-precision arithmetic *)

Module Float.

(** [floor_log2 n d] is the integer [e] with [2^e <= n/d < 2^(e+1)]. *)
Definition floor_log2 (n d : positive) : Z :=
  let e0 := Z.log2 (Zpos n) - Z.log2 (Zpos d) in
  if Zpos d * 2 ^ Z.max 0 e0 <=? Zpos n * 2 ^ Z.max 0 (- e0)
  then e0 else e0 - 1.

(** [scale2 q k] is [q * 2^k]. *)
Definition scale2 (q : Q) (k : Z) : Q :=
  if 0 <=? k then (Qnum q * 2 ^ k) # Qden q
  else Qnum q # (Qden q * Z.to_pos (2 ^ (- k))).

(** Nearest integer, ties to the even one. *)
Definition round_half_even (q : Q) : Z :=
  let d := Zpos (Qden q) in
  let f := Qnum q / d in
  match 2 * (Qnum q mod d) ?= d with
  | Lt => f
  | Gt => f + 1
  | Eq => if Z.even f then f else f + 1
  end.

Definition round_pos (n d : positive) : Q :=
  let e := floor_log2 n d in
  let m := round_half_even (scale2 (Zpos n # d) (52 - e)) in
  Qred (scale2 (inject_Z m) (e - 52)).

(** The binary64 number nearest to [q] (53 significant bits, ties to
    even); the exponent is not bounded, which the quotients of pixel
    dimensions never notice. *)
Definition round_double (q : Q) : Q :=
  match Qnum q with
  | 0 => 0%Q
  | Zpos n => round_pos n (Qden q)
  | Zneg n => Qopp (round_pos n (Qden q))
  end.

Definition div (a b : Q) : Q := round_double (a / b).
Definition mul (a b : Q) : Q := round_double (a * b).
Definition sub (a b : Q) : Q := round_double (a - b).

(** [Math.round]: the nearest integer, a tie going towards [+Infinity]. *)
Definition Math_round (x : Q) : Z := Qfloor (x + (1 # 2)).

(** [a < b] where [b] may still be [Number.POSITIVE_INFINITY] ([None]). *)
Definition ltb_inf (a : Q) (b : option Q) : bool :=
  match b with
  | None => true
  | Some b' => negb (Qle_bool b' a)
  end.

End Float.

(** ** [getAspectRatio] *)

Fixpoint gcd_rec (fuel : nat) (a b : Z) : Z :=
  match fuel with
  | O => a
  | S fuel' => if b =? 0 then a else gcd_rec fuel' b (Z.rem a b)
  end.

(** The local [gcd] arrow function; the recursion depth never exceeds
    [b + 1], see [gcd_is_Zgcd]. *)
Definition gcd (a b : Z) : Z := gcd_rec (S (Z.to_nat b)) a b.

Definition MAX_COMPONENT : Z := 21.

(** The code unit of the sign that marks an approximated ratio (U+2248). *)
Definition approx_sign : N := 8776%N.

Definition ratio_label (w h : Z) : jsstring :=
  number_to_string w ++ lit ":" ++ number_to_string h.

(** [w] of the loop body for a given [h]. *)
Definition candidate_width (targetRatio : Q) (h : Z) : Z :=
  Z.min MAX_COMPONENT
    (Z.max 1 (Float.Math_round (Float.mul targetRatio (inject_Z h)))).

(** [delta] of the loop body for a given [h]. *)
Definition candidate_delta (targetRatio : Q) (h : Z) : Q :=
  Qabs (Float.sub
          (Float.div (inject_Z (candidate_width targetRatio h)) (inject_Z h))
          targetRatio).

(** One turn of the [for] loop over [h]; the state is [bestPair] and
    [smallestDelta]. *)
Definition ratio_step (targetRatio : Q) (st : (Z * Z) * option Q) (h : Z)
  : (Z * Z) * option Q :=
  let w := candidate_width targetRatio h in
  let delta := candidate_delta targetRatio h in
  if Float.ltb_inf delta (snd st) then ((w, h), Some delta) else st.

(** The values [h] takes: 1, 2, ..., [MAX_COMPONENT]. *)
Definition heights : list Z := map Z.of_nat (seq 1 (Z.to_nat MAX_COMPONENT)).

Definition getAspectRatio (width height : Z) : jsstring :=
  if (width <=? 0) || (height <=? 0) then lit "unknown"
  else
    let divisor := gcd (Z.abs width) (Z.abs height) in
    let reducedWidth := width / divisor in
    let reducedHeight := height / divisor in
    if (reducedWidth <=? MAX_COMPONENT) && (reducedHeight <=? MAX_COMPONENT)
    then ratio_label reducedWidth reducedHeight
    else
      let targetRatio := Float.div (inject_Z width) (inject_Z height) in
      let bestPair :=
        fst (fold_left (ratio_step targetRatio) heights
                       ((reducedWidth, reducedHeight), None)) in
      approx_sign :: ratio_label (fst bestPair) (snd bestPair).

(** ** The raw response document and the normalized records *)

Module ExtMetadata.
(** Each field holds the [value] of its entry when the entry is there. *)
Record t := {
  ObjectName : option jsstring;
  Categories : option jsstring;
  DateTimeOriginal : option jsstring;
  ImageDescription : option jsstring;
  Credit : option jsstring;
  Artist : option jsstring;
  LicenseShortName : option jsstring;
  License : option jsstring;
  UsageTerms : option jsstring;
  LicenseUrl : option jsstring }.
End ExtMetadata.

Module ImageInfo.
Record t := {
  thumburl : option jsstring;
  size : option Z;
  width : option Z;
  height : option Z;
  url : option jsstring;
  descriptionurl : option jsstring;
  descriptionshorturl : option jsstring;
  mime : option jsstring;
  extmetadata : option ExtMetadata.t }.
End ImageInfo.

Module RawPage.
Record t := {
  pageid : option Z;
  index : option Z;
  title : option jsstring;
  imageinfo : option (list ImageInfo.t) }.
End RawPage.

Module WikimediaApiResponse.
Record query_t := { pages : option (list RawPage.t) }.
Record error_t := { code : jsstring; info : jsstring }.
Record t := { query : option query_t; error : option error_t }.
End WikimediaApiResponse.

Module LicenseInfo.
Record t := {
  name : option jsstring;
  usageTerms : option jsstring;
  url : option jsstring }.
End LicenseInfo.

Module ImageMetadata.
Record t := {
  index : Z;
  url : jsstring;
  size : option Z;
  width : Z;
  height : Z;
  aspectRatio : option jsstring;
  caption : option jsstring;
  date : option jsstring;
  descriptionurl : jsstring;
  description : option jsstring;
  credit : option jsstring;
  artist : option jsstring;
  license : option LicenseInfo.t }.
End ImageMetadata.

Module SearchResult.
Record t := {
  images : list ImageMetadata.t;
  hasMore : bool;
  nextOffset : option Z }.
End SearchResult.

Inductive LicenseType := no_restrictions | all.

Module SearchImagesInput.
Record t := {
  query : jsstring;
  limit : Z;
  offset : Z;
  license : LicenseType;
  include_thumbnails : bool }.
End SearchImagesInput.

(** ** Text helpers *)

Definition truncateString (str : option jsstring) (maxLength : Z)
  : option jsstring :=
  match str with
  | None | Some [] => None
  | Some s =>
      if Z.of_nat (length s) <=? maxLength then Some s
      else Some (firstn (Z.to_nat maxLength) s ++ lit "...")
  end.

Definition lt_sign : N := 60%N.
Definition gt_sign : N := 62%N.

(** [html.replace(/<[^>]*>/g, "")] as a scan: a [<] opens a tag when a [>]
    follows somewhere; the tag runs to the first such [>]. *)
Fixpoint strip_tags (inTag : bool) (s : jsstring) : jsstring :=
  match s with
  | [] => []
  | c :: r =>
      if inTag then strip_tags (negb (c =? gt_sign)%N) r
      else if ((c =? lt_sign)%N && existsb (N.eqb gt_sign) r)%bool
           then strip_tags true r
           else c :: strip_tags false r
  end.

Definition stripHtml (html : option jsstring) : option jsstring :=
  match html with
  | None | Some [] => None
  | Some s => Some (strip_tags false s)
  end.

(** ** [parseWikimediaResponse] *)

(** [page.index ?? 0] *)
Definition ordinal (page : RawPage.t) : Z :=
  match RawPage.index page with Some i => i | None => 0 end.

(** The comparator handed to [sort]. *)
Definition compare_pages (a b : RawPage.t) : Z := ordinal a - ordinal b.

(** [Array.prototype.sort] is stable: an element goes in front of the first
    one it does not compare greater than. *)
Fixpoint sort_insert {A} (cmp : A -> A -> Z) (x : A) (l : list A) : list A :=
  match l with
  | [] => [x]
  | y :: r => if cmp x y <=? 0 then x :: y :: r else y :: sort_insert cmp x r
  end.

Definition array_sort {A} (cmp : A -> A -> Z) (l : list A) : list A :=
  fold_right (sort_insert cmp) [] l.

(** [Array.prototype.slice(start, end)], negative arguments counting from
    the end. *)
Definition array_slice {A} (l : list A) (start end_ : Z) : list A :=
  let len := Z.of_nat (length l) in
  let k := if start <? 0 then Z.max (len + start) 0 else Z.min start len in
  let final := if end_ <? 0 then Z.max (len + end_) 0 else Z.min end_ len in
  firstn (Z.to_nat (final - k)) (skipn (Z.to_nat k) l).

(** [const t = truncateString(f(v), max); if (t) field = t], guarded by
    [if (v)]. *)
Definition capped_field (v : option jsstring)
    (f : option jsstring -> option jsstring) (max : Z) : option jsstring :=
  if truthy_str v then
    let truncated := truncateString (f v) max in
    if truthy_str truncated then truncated else None
  else None.

Definition ext_field (ext : option ExtMetadata.t)
    (f : ExtMetadata.t -> option jsstring) : option jsstring :=
  match ext with Some e => f e | None => None end.

Definition build_license (ext : option ExtMetadata.t) : LicenseInfo.t :=
  {| LicenseInfo.name :=
       if truthy_str (ext_field ext ExtMetadata.LicenseShortName)
       then capped_field (ext_field ext ExtMetadata.LicenseShortName) id 100
       else capped_field (ext_field ext ExtMetadata.License) id 100;
     LicenseInfo.usageTerms :=
       capped_field (ext_field ext ExtMetadata.UsageTerms) stripHtml 500;
     LicenseInfo.url :=
       if truthy_str (ext_field ext ExtMetadata.LicenseUrl)
       then ext_field ext ExtMetadata.LicenseUrl else None |}.

(** [Object.keys(license).length > 0] *)
Definition license_has_keys (l : LicenseInfo.t) : bool :=
  match LicenseInfo.name l, LicenseInfo.usageTerms l, LicenseInfo.url l with
  | None, None, None => false
  | _, _, _ => true
  end.

(** The body of the loop over [slicedPages]: [None] is [continue], [Some]
    is the record pushed onto [images]. *)
Definition parse_page (page : RawPage.t) : option ImageMetadata.t :=
  match RawPage.imageinfo page with
  | None | Some [] => None
  | Some (info :: _) =>
      let extmetadata := ImageInfo.extmetadata info in
      match ImageInfo.thumburl info, ImageInfo.width info,
            ImageInfo.height info with
      | Some thumburl, Some width, Some height =>
          if (negb (truthy_str (Some thumburl))
              || negb (truthy_num (Some width))
              || negb (truthy_num (Some height)))%bool
          then None
          else
            let license := build_license extmetadata in
            Some {|
              ImageMetadata.index := ordinal page;
              ImageMetadata.url := thumburl;
              ImageMetadata.width := width;
              ImageMetadata.height := height;
              ImageMetadata.aspectRatio := Some (getAspectRatio width height);
              ImageMetadata.descriptionurl :=
                match ImageInfo.descriptionshorturl info with
                | Some u => u
                | None => []
                end;
              ImageMetadata.size := ImageInfo.size info;
              ImageMetadata.caption :=
                capped_field (ext_field extmetadata ExtMetadata.ObjectName)
                             id 500;
              ImageMetadata.date :=
                capped_field
                  (ext_field extmetadata ExtMetadata.DateTimeOriginal)
                  stripHtml 500;
              ImageMetadata.description :=
                capped_field
                  (ext_field extmetadata ExtMetadata.ImageDescription)
                  stripHtml 500;
              ImageMetadata.credit :=
                capped_field (ext_field extmetadata ExtMetadata.Credit)
                             stripHtml 500;
              ImageMetadata.artist :=
                capped_field (ext_field extmetadata ExtMetadata.Artist)
                             stripHtml 500;
              ImageMetadata.license :=
                if license_has_keys license then Some license else None |}
      | _, _, _ => None
      end
  end.

(** [for (const page of slicedPages) { ... images.push(imageMetadata) }] *)
Definition parse_pages (slicedPages : list RawPage.t) : list ImageMetadata.t :=
  fold_left
    (fun images page =>
       match parse_page page with
       | Some imageMetadata => images ++ [imageMetadata]
       | None => images
       end)
    slicedPages [].

(** The call returns a result or throws; the document it was given is
    returned too, as the call leaves it ([sort] works in place on the
    document's own [pages] array). *)
Definition parseWikimediaResponse
    (apiResponse : WikimediaApiResponse.t) (params : SearchImagesInput.t)
  : WikimediaApiResponse.t * (jsstring + SearchResult.t) :=
  match WikimediaApiResponse.error apiResponse with
  | Some e =>
      (apiResponse,
       inl (lit "Wikimedia API error: " ++ WikimediaApiResponse.info e))
  | None =>
      match WikimediaApiResponse.query apiResponse with
      | Some {| WikimediaApiResponse.pages := Some ((_ :: _) as pages0) |} =>
          let rawPages := array_sort compare_pages pages0 in
          let offset := SearchImagesInput.offset params in
          let limit := SearchImagesInput.limit params in
          let len := Z.of_nat (length rawPages) in
          let startIndex := Z.min offset len in
          let endIndex := Z.min (offset + limit) len in
          let hasMore := offset + limit <? len in
          let slicedPages := array_slice rawPages startIndex endIndex in
          let images := parse_pages slicedPages in
          ({| WikimediaApiResponse.query :=
                Some {| WikimediaApiResponse.pages := Some rawPages |};
              WikimediaApiResponse.error := None |},
           inr {| SearchResult.images := images;
                  SearchResult.hasMore := hasMore;
                  SearchResult.nextOffset :=
                    if hasMore then Some (offset + limit) else None |})
      | _ =>
          (apiResponse,
           inr {| SearchResult.images := [];
                  SearchResult.hasMore := false;
                  SearchResult.nextOffset := None |})
      end
  end.

(** ** Thumbnail width and URL rewriting *)

Definition THUMBNAIL_SIZE : Z := 256.
Definition MAX_IMAGES_IN_COMPOSITE : Z := 15.

(** The values [calculateThumbnailWidth] can return: an integer, or
    [-Infinity] (a negative width scaled by [256 / 0]). *)
Inductive number := Finite (z : Z) | NegInfinity.

Definition number_image (n : number) : jsstring :=
  match n with
  | Finite z => number_to_string z
  | NegInfinity => lit "-Infinity"
  end.

Definition calculateThumbnailWidth (width height : Z) : number :=
  if height >? width then
    if height =? 0 then NegInfinity
    else
      let scaleFactor :=
        Float.div (inject_Z THUMBNAIL_SIZE) (inject_Z height) in
      Finite (Float.Math_round (Float.mul (inject_Z width) scaleFactor))
  else Finite THUMBNAIL_SIZE.

Definition slash : N := 47%N.

(** [\d] *)
Definition is_digit (c : N) : bool := ((48 <=? c) && (c <=? 57))%N.

Fixpoint skip_digits (s : jsstring) : jsstring :=
  match s with
  | c :: r => if is_digit c then skip_digits r else s
  | [] => []
  end.

(** Does [/\/(\d+)px-/] match at the very start of [s]?  [Some rest] gives
    what follows the match. *)
Definition match_width_segment (s : jsstring) : option jsstring :=
  match s with
  | c :: ((d :: _) as r) =>
      if ((c =? slash)%N && is_digit d)%bool then
        match skip_digits r with
        | p :: x :: m :: rest =>
            if ((p =? 112) && (x =? 120) && (m =? 45))%N then Some rest
            else None
        | _ => None
        end
      else None
  | _ => None
  end.

(** [url.replace(/\/(\d+)px-/, replacement)]: the leftmost match only. *)
Fixpoint replace_width_segment (url replacement : jsstring) : jsstring :=
  match url with
  | [] => []
  | c :: r =>
      match match_width_segment url with
      | Some rest => replacement ++ rest
      | None => c :: replace_width_segment r replacement
      end
  end.

Definition replaceUrlWidth (url : jsstring) (newWidth : number) : jsstring :=
  replace_width_segment url (lit "/" ++ number_image newWidth ++ lit "px-").

(** ** Buffers *)

Definition Buffer := list N.

(** [Buffer.from(string)]: the UTF-8 bytes of code units below the
    surrogate range. *)
Definition utf8_unit (c : N) : list N :=
  (if c <? 128 then [c]
   else if c <? 2048 then [192 + c / 64; 128 + c mod 64]
   else [224 + c / 4096; 128 + (c / 64) mod 64; 128 + c mod 64])%N.

Definition Buffer_from (s : jsstring) : Buffer := flat_map utf8_unit s.

Definition base64_digit (n : N) : N :=
  (if n <? 26 then 65 + n
   else if n <? 52 then 97 + (n - 26)
   else if n <? 62 then 48 + (n - 52)
   else if n =? 62 then 43 else 47)%N.

Definition pad : N := 61%N.

(** [buffer.toString("base64")] *)
Fixpoint base64 (b : Buffer) : jsstring :=
  (match b with
   | [] => []
   | [x] => [base64_digit (x / 4); base64_digit (x mod 4 * 16); pad; pad]
   | [x; y] =>
       [base64_digit (x / 4); base64_digit (x mod 4 * 16 + y / 16);
        base64_digit (y mod 16 * 4); pad]
   | x :: y :: z :: r =>
       base64_digit (x / 4) :: base64_digit (x mod 4 * 16 + y / 16)
       :: base64_digit (y mod 16 * 4 + z / 64) :: base64_digit (z mod 64)
       :: base64 r
   end)%N.

(** ** [generateThumbnailComposite] *)

Definition COLUMNS : Z := 3.
Definition SPACING : Z := 10.

(** What the network answers to one [fetch]. *)
Inductive FetchOutcome :=
| FetchRejected
    (** the promise of [fetch] rejects *)
| Response (ok : bool) (status : Z) (body : option Buffer).
    (** a response; [body] is [None] when [arrayBuffer()] rejects *)

Record CompositeLayer := {
  input : Buffer;
  top : Z;
  left : Z }.

(** The canvas [sharp({ create })] is asked for, with the layers given to
    [composite]; four channels, white background and JPEG quality 90 are
    the same in every call. *)
Record CompositeRequest := {
  canvas_width : Z;
  canvas_height : Z;
  layers : list CompositeLayer }.

(** What one call does: the string it resolves to, the URLs it hands to
    [fetch], in the order of the calls, and the canvas it has [sharp]
    render, if any. *)
Record Run := {
  returned : jsstring;
  fetched : list jsstring;
  composed : option CompositeRequest }.

(** How a [try] block ends. *)
Inductive completion (A : Type) :=
| Returned (a : A)
| Thrown.
Arguments Returned {A} a.
Arguments Thrown {A}.

Definition dquote : N := 34%N.
Definition newline : N := 10%N.

Definition quoted (s : string) : jsstring := dquote :: lit s ++ [dquote].

Fixpoint join_lines (ls : list jsstring) : jsstring :=
  match ls with
  | [] => []
  | [l] => l
  | l :: r => l ++ newline :: join_lines r
  end.

(** The SVG template, [label] standing where [${index + 1}] does. *)
Definition overlay_svg (label : jsstring) : jsstring :=
  join_lines
    [ [];
      lit "      <svg width=" ++ quoted "40" ++ lit " height=" ++ quoted "30"
        ++ lit ">";
      lit "        <text ";
      lit "          x=" ++ quoted "20" ++ lit " ";
      lit "          y=" ++ quoted "20" ++ lit " ";
      lit "          text-anchor=" ++ quoted "middle" ++ lit " ";
      lit "          font-family=" ++ quoted "Arial, sans-serif" ++ lit " ";
      lit "          font-size=" ++ quoted "20" ++ lit " ";
      lit "          font-weight=" ++ quoted "bold" ++ lit " ";
      lit "          fill=" ++ quoted "white" ++ lit " ";
      lit "          stroke=" ++ quoted "black" ++ lit " ";
      lit "          stroke-width=" ++ quoted "2";
      lit "          paint-order=" ++ quoted "stroke" ++ lit ">";
      lit "          " ++ label;
      lit "        </text>";
      lit "      </svg>";
      lit "    " ].

(** [array.map((x, index) => f(x, index))] *)
Fixpoint map_from {A B} (f : A -> Z -> B) (l : list A) (index : Z) : list B :=
  match l with
  | [] => []
  | x :: r => f x index :: map_from f r (index + 1)
  end.

Definition map_indexed {A B} (f : A -> Z -> B) (l : list A) : list B :=
  map_from f l 0.

(** [array.filter(x => x !== null)] *)
Fixpoint filter_non_null {A} (l : list (option A)) : list A :=
  match l with
  | [] => []
  | Some a :: r => a :: filter_non_null r
  | None :: r => filter_non_null r
  end.

Definition cell_top (index : Z) : Z :=
  let row := index / COLUMNS in
  row * THUMBNAIL_SIZE + (row + 1) * SPACING.

Definition cell_left (index : Z) : Z :=
  let col := Z.rem index COLUMNS in
  col * THUMBNAIL_SIZE + (col + 1) * SPACING.

Section Composite.

(** The world of one call: the answer to the request the task of the
    item at [index] sends, and the two uses of [sharp].  [sharp_resize]
    is [None] when the pipeline throws (bytes that do not decode). *)
Variable fetch : Z -> jsstring -> FetchOutcome.
Variable sharp_resize : Buffer -> option Buffer.
Variable sharp_jpeg : CompositeRequest -> Buffer.

Definition fetch_url (img : ImageMetadata.t) : jsstring :=
  let thumbnailWidth :=
    calculateThumbnailWidth (ImageMetadata.width img)
                            (ImageMetadata.height img) in
  replaceUrlWidth (ImageMetadata.url img) thumbnailWidth.

(** The [try] block of a task, once its request is out. *)
Definition fetch_and_resize (img : ImageMetadata.t) (index : Z)
  : completion (option (Buffer * Z)) :=
  match fetch index (fetch_url img) with
  | FetchRejected => Thrown
  | Response ok _ body =>
      if negb ok then Returned None
      else
        match body with
        | None => Thrown
        | Some buffer =>
            match sharp_resize buffer with
            | None => Thrown
            | Some resizedBuffer => Returned (Some (resizedBuffer, index))
            end
        end
  end.

(** The task with its [catch]: whatever is thrown becomes [null]. *)
Definition process_image (img : ImageMetadata.t) (index : Z)
  : option (Buffer * Z) :=
  match fetch_and_resize img index with
  | Returned r => r
  | Thrown => None
  end.

Definition thumbnail_layer (v : Buffer * Z) : CompositeLayer :=
  {| input := fst v; top := cell_top (snd v); left := cell_left (snd v) |}.

Definition overlay_layer (v : Buffer * Z) : CompositeLayer :=
  {| input := Buffer_from (overlay_svg (number_to_string (snd v + 1)));
     top := cell_top (snd v) + 5;
     left := cell_left (snd v) + 5 |}.

(** The tasks of [Promise.all] run concurrently, but each reads its own
    item and its own answer only, sends its request as soon as it is
    created, and has its result stored at the position of its item: the
    run is a function of the world.  The lines written with
    [console.error] are left out. *)
Definition generateThumbnailComposite (images : list ImageMetadata.t) : Run :=
  let limitedImages := array_slice images 0 MAX_IMAGES_IN_COMPOSITE in
  if Z.of_nat (length limitedImages) =? 0 then
    {| returned := []; fetched := []; composed := None |}
  else
    let rows :=
      Qceiling (Float.div (inject_Z (Z.of_nat (length limitedImages)))
                          (inject_Z COLUMNS)) in
    let canvasWidth := COLUMNS * THUMBNAIL_SIZE + (COLUMNS + 1) * SPACING in
    let canvasHeight := rows * THUMBNAIL_SIZE + (rows + 1) * SPACING in
    let requests := map fetch_url limitedImages in
    let imageBuffers := map_indexed process_image limitedImages in
    let validImages := filter_non_null imageBuffers in
    if Z.of_nat (length validImages) =? 0 then
      {| returned := []; fetched := requests; composed := None |}
    else
      let compositeInputs := map thumbnail_layer validImages in
      let textOverlays := map overlay_layer validImages in
      let request :=
        {| canvas_width := canvasWidth;
           canvas_height := canvasHeight;
           layers := compositeInputs ++ textOverlays |} in
      let compositeImage := sharp_jpeg request in
      {| returned := base64 compositeImage;
         fetched := requests;
         composed := Some request |}.

End Composite.

(** ** [buildWikimediaApiUrl] *)

Definition WIKIMEDIA_API_BASE : jsstring :=
  lit "https://commons.wikimedia.org/w/api.php".
Definition CC0_WIKIDATA_ID : jsstring := lit "Q6938433".
Definition MAX_RESULTS_LIMIT : Z := 50.

(** The first and the second half of a surrogate pair. *)
Definition is_high_surrogate (c : N) : bool :=
  ((55296 <=? c) && (c <=? 56319))%N.
Definition is_low_surrogate (c : N) : bool :=
  ((56320 <=? c) && (c <=? 57343))%N.

(** The code points of a string as [URLSearchParams] reads it: a surrogate
    pair is one code point, a surrogate on its own is U+FFFD. *)
Fixpoint code_points (s : jsstring) : list N :=
  match s with
  | [] => []
  | c :: r =>
      if is_high_surrogate c then
        match r with
        | lo :: r' =>
            if is_low_surrogate lo
            then (65536 + (c - 55296) * 1024 + (lo - 56320))%N
                 :: code_points r'
            else 65533%N :: code_points r
        | [] => [65533%N]
        end
      else if is_low_surrogate c then 65533%N :: code_points r
      else c :: code_points r
  end.

(** The UTF-8 bytes of a code point. *)
Definition utf8_code_point (c : N) : list N :=
  (if c <? 128 then [c]
   else if c <? 2048 then [192 + c / 64; 128 + c mod 64]
   else if c <? 65536
        then [224 + c / 4096; 128 + (c / 64) mod 64; 128 + c mod 64]
        else [240 + c / 262144; 128 + (c / 4096) mod 64;
              128 + (c / 64) mod 64; 128 + c mod 64])%N.

(** The bytes the form serializer leaves as they are: letters, digits,
    [*], [-], [.] and [_]. *)
Definition form_safe (b : N) : bool :=
  (((48 <=? b) && (b <=? 57)) || ((65 <=? b) && (b <=? 90))
   || ((97 <=? b) && (b <=? 122))
   || (b =? 42) || (b =? 45) || (b =? 46) || (b =? 95))%N.

Definition hex_digit (n : N) : N := (if n <? 10 then 48 + n else 55 + n)%N.

(** A space becomes [+], any other byte outside the safe ones [%XX]. *)
Definition form_encode_byte (b : N) : jsstring :=
  (if b =? 32 then [43]
   else if form_safe b then [b]
   else [37; hex_digit (b / 16); hex_digit (b mod 16)])%N.

Definition form_encode (s : jsstring) : jsstring :=
  flat_map form_encode_byte (flat_map utf8_code_point (code_points s)).

(** [new URLSearchParams(entries).toString()] *)
Fixpoint URLSearchParams_toString (entries : list (jsstring * jsstring))
  : jsstring :=
  match entries with
  | [] => []
  | [(name, value)] => form_encode name ++ lit "=" ++ form_encode value
  | (name, value) :: rest =>
      form_encode name ++ lit "=" ++ form_encode value ++ lit "&"
      ++ URLSearchParams_toString rest
  end.

(** [`${query} filemime:image/*`], with the license filter when asked. *)
Definition search_query (params : SearchImagesInput.t) : jsstring :=
  let searchQuery :=
    SearchImagesInput.query params ++ lit " filemime:image/*" in
  match SearchImagesInput.license params with
  | no_restrictions =>
      searchQuery ++ lit " haswbstatement:P275=" ++ CC0_WIKIDATA_ID
  | all => searchQuery
  end.

(** [totalToFetch]: the window, one page more to look ahead, 50 at most.
    The sum is that of the source for an offset and a limit that are not
    negative: below [2^53] it is exact, and a sum of doubles that large is
    above 50 all the same. *)
Definition total_to_fetch (params : SearchImagesInput.t) : Z :=
  Z.min (SearchImagesInput.offset params + SearchImagesInput.limit params + 1)
        MAX_RESULTS_LIMIT.

Definition buildWikimediaApiUrl (params : SearchImagesInput.t) : jsstring :=
  let totalToFetch := total_to_fetch params in
  let searchQuery := search_query params in
  let urlParams :=
    [ (lit "action", lit "query");
      (lit "format", lit "json");
      (lit "formatversion", lit "2");
      (lit "generator", lit "search");
      (lit "gsrsearch", searchQuery);
      (lit "gsrnamespace", lit "6");
      (lit "gsrlimit", number_to_string totalToFetch);
      (lit "prop", lit "imageinfo");
      (lit "iiprop", lit "url|size|mime|extmetadata");
      (lit "iiurlwidth", number_to_string THUMBNAIL_SIZE) ] in
  WIKIMEDIA_API_BASE ++ lit "?" ++ URLSearchParams_toString urlParams.

(** ** The search tool *)

Definition CHARACTER_LIMIT : Z := 25000.

(** The only line of [formatSearchResults] for a result without images. *)
Definition no_images_text : jsstring :=
  lit "No images found matching your query. Try different search "
  ++ lit "query or change the license filter to 'all'.".

Definition each_result_head : jsstring :=
  [newline]
  ++ lit "Each result contains: index, url (url to fetch the image, "
  ++ lit "replace ".

Definition each_result_tail : jsstring :=
  lit "px with desired width up to the original image width), "
  ++ lit "size (bytes), width, height, descriptionurl (webpage "
  ++ lit "link), and optional: caption, date, description, credit, "
  ++ lit "artist, license (name, usageTerms, url).".

Definition more_results_head : jsstring :=
  [newline]
  ++ lit "If nothing found what you're looking for, try a different "
  ++ lit "query or use offset=".

Definition more_results_tail : jsstring :=
  lit " to see more results.".

Definition end_of_results : jsstring :=
  [newline]
  ++ lit "End of results.".

Definition download_head : jsstring :=
  [newline]
  ++ lit "To download images: use the image URL and replace '".

Definition download_tail : jsstring :=
  lit "px' with your desired width (up to original width).".

Definition compare_text : jsstring :=
  [newline]
  ++ lit "Compare the images in the search results to choose the "
  ++ lit "most suitable for your task. You may fetch the image(s) "
  ++ lit "using the fetch or download tool (if available), report "
  ++ lit "your findings or use otherwise as needed.".

(** The reply of the tool to a search without results. *)
Definition no_results_reply : jsstring :=
  lit "No images found matching your query. Try different search "
  ++ lit "terms or change the license filter to 'all'.".

Definition truncated_head : jsstring :=
  [newline]
  ++ [newline]
  ++ [9888%N]
  ++ [65039%N]
  ++ lit " **Response Truncated**: Original response exceeded ".

Definition truncated_middle : jsstring :=
  lit " characters. Showing first ".

Definition truncated_tail : jsstring :=
  lit " results. Use smaller limit to get non-truncated results.".

(** [lines.join("\n")] *)
Definition join_with_newline (lines : list jsstring) : jsstring :=
  join_lines lines.

(** A value that is thrown: an [Error] with its message, or something
    else. *)
Inductive thrown :=
| ErrorObject (message : jsstring)
| OtherValue.

(** What the API answers to the request of a search: [fetch] rejects, or a
    response arrives whose body [json()] parses or fails to. *)
Inductive ApiOutcome :=
| ApiRejected (reason : thrown)
| ApiResponse (ok : bool) (status : Z) (statusText : jsstring)
              (json : thrown + WikimediaApiResponse.t).

Inductive ContentItem :=
| TextItem (text : jsstring)
| ImageItem (data mimeType mediaType : jsstring).

(** The value the handler of the tool returns; [isError] is [false] where
    the source leaves it out. *)
Record ToolResponse := {
  content : list ContentItem;
  isError : bool }.

(** What a call of the tool does: its reply, the URL it asks the API for
    and the URLs of the thumbnails it fetches. *)
Record ToolRun := {
  response : ToolResponse;
  api_requested : list jsstring;
  thumbnails_requested : list jsstring }.

Section Tool.

(** The world of a call: the API, [yaml.dump] with the options of the
    source, and the world of the compositor. *)
Variable api : jsstring -> ApiOutcome.
Variable yaml_dump : list ImageMetadata.t -> jsstring.
Variable fetch : Z -> jsstring -> FetchOutcome.
Variable sharp_resize : Buffer -> option Buffer.
Variable sharp_jpeg : CompositeRequest -> Buffer.

Definition formatSearchResults (result : SearchResult.t) : jsstring :=
  let count := Z.of_nat (length (SearchResult.images result)) in
  if count =? 0 then join_with_newline [no_images_text]
  else
    join_with_newline
      [ each_result_head ++ number_to_string THUMBNAIL_SIZE
          ++ each_result_tail;
        [newline] ++ lit "Showing " ++ number_to_string count ++ lit " result"
          ++ (if negb (count =? 1) then lit "s" else []) ++ lit ":"
          ++ [newline];
        yaml_dump (SearchResult.images result);
        if SearchResult.hasMore result
        then more_results_head
             ++ (match SearchResult.nextOffset result with
                 | Some next => number_to_string next
                 | None => lit "undefined"
                 end)
             ++ more_results_tail
        else end_of_results;
        download_head ++ number_to_string THUMBNAIL_SIZE ++ download_tail;
        compare_text ].

(** [fetchWikimediaImages]: the document, or what is thrown. *)
Definition fetchWikimediaImages (params : SearchImagesInput.t)
  : thrown + WikimediaApiResponse.t :=
  match api (buildWikimediaApiUrl params) with
  | ApiRejected reason => inl reason
  | ApiResponse ok status statusText json =>
      if negb ok then
        inl (ErrorObject (lit "Wikimedia API request failed: "
                          ++ number_to_string status ++ lit " "
                          ++ statusText))
      else json
  end.

(** [error instanceof Error ? error.message : fallback] *)
Definition message_of (error : thrown) (fallback : jsstring) : jsstring :=
  match error with
  | ErrorObject message => message
  | OtherValue => fallback
  end.

(** [searchWikimediaImages]: the result, or the [Error] it throws. *)
Definition searchWikimediaImages (params : SearchImagesInput.t)
  : thrown + SearchResult.t :=
  let attempt :=
    match fetchWikimediaImages params with
    | inl error => inl error
    | inr apiResponse =>
        match snd (parseWikimediaResponse apiResponse params) with
        | inl message => inl (ErrorObject message)
        | inr searchResult => inr searchResult
        end
    end in
  match attempt with
  | inr searchResult => inr searchResult
  | inl error =>
      inl (ErrorObject (lit "Failed to search Wikimedia Commons: "
                        ++ message_of error (lit "Unknown error")))
  end.

(** [Math.floor(searchResult.images.length / 2)] *)
Definition half_count (images : list ImageMetadata.t) : Z :=
  Qfloor (Float.div (inject_Z (Z.of_nat (length images))) (inject_Z 2)).

Definition truncation_warning (shown : Z) : jsstring :=
  truncated_head ++ number_to_string CHARACTER_LIMIT ++ truncated_middle
  ++ number_to_string shown ++ truncated_tail.

(** The handler of [wikimedia_search_images], from the parsed arguments
    on.  Formatting and compositing are taken not to throw, so the [catch]
    of the handler sees the errors of the search only. *)
Definition wikimedia_search_images (params : SearchImagesInput.t) : ToolRun :=
  let requested := [buildWikimediaApiUrl params] in
  match searchWikimediaImages params with
  | inl error =>
      {| response :=
           {| content :=
                [TextItem (lit "Error searching Wikimedia Commons: "
                           ++ message_of error (lit "Unknown error occurred"))];
              isError := true |};
         api_requested := requested;
         thumbnails_requested := [] |}
  | inr searchResult =>
      let images := SearchResult.images searchResult in
      if Z.of_nat (length images) =? 0 then
        {| response := {| content := [TextItem no_results_reply];
                          isError := false |};
           api_requested := requested;
           thumbnails_requested := [] |}
      else
        let textResponse := formatSearchResults searchResult in
        if Z.of_nat (length textResponse) >? CHARACTER_LIMIT then
          let truncatedResult :=
            {| SearchResult.images :=
                 array_slice images 0 (half_count images);
               SearchResult.hasMore := SearchResult.hasMore searchResult;
               SearchResult.nextOffset :=
                 SearchResult.nextOffset searchResult |} in
          let truncatedText := formatSearchResults truncatedResult in
          let warningMessage :=
            truncation_warning
              (Z.of_nat (length (SearchResult.images truncatedResult))) in
          {| response :=
               {| content := [TextItem (truncatedText ++ warningMessage)];
                  isError := false |};
             api_requested := requested;
             thumbnails_requested := [] |}
        else if (SearchImagesInput.include_thumbnails params
                 && (0 <? Z.of_nat (length images)))%bool then
          let composite :=
            generateThumbnailComposite fetch sharp_resize sharp_jpeg images in
          let thumbnailComposite := returned composite in
          {| response :=
               {| content :=
                    TextItem textResponse
                    :: (if 0 <? Z.of_nat (length thumbnailComposite)
                        then [ImageItem thumbnailComposite (lit "image/jpeg")
                                        (lit "image/jpeg")]
                        else []);
                  isError := false |};
             api_requested := requested;
             thumbnails_requested := fetched composite |}
        else
          {| response := {| content := [TextItem textResponse];
                            isError := false |};
             api_requested := requested;
             thumbnails_requested := [] |}
  end.

End Tool.

(** * Vocabulary of the properties *)

(** ** Decimal numerals *)

(** The decimal digits of a natural number in front of [tail], the most
    significant first: the last digit is [n mod 10], and the digits of
    [n / 10] stand before it when [n] has more than one. *)
Fixpoint decimal_digits (fuel : nat) (n : N) (tail : jsstring) : jsstring :=
  match fuel with
  | O => tail
  | S fuel' =>
      let tail' := (48 + n mod 10)%N :: tail in
      if (n <? 10)%N then tail' else decimal_digits fuel' (n / 10) tail'
  end.

(** The numeral of an integer that is not negative; a number has no more
    decimal digits than binary ones. *)
Definition decimal (z : Z) : jsstring :=
  decimal_digits (S (N.to_nat (N.log2 (Z.to_N z)))) (Z.to_N z) [].

(** The same digits as a number of the library, the least significant
    first; this is what ties [decimal] to the library's printer. *)
Definition digit_uint (k : N) (d : Decimal.uint) : Decimal.uint :=
  match k with
  | 0 => Decimal.D0 d | 1 => Decimal.D1 d | 2 => Decimal.D2 d
  | 3 => Decimal.D3 d | 4 => Decimal.D4 d | 5 => Decimal.D5 d
  | 6 => Decimal.D6 d | 7 => Decimal.D7 d | 8 => Decimal.D8 d
  | _ => Decimal.D9 d
  end%N.

Fixpoint little_uint (fuel : nat) (n : N) : Decimal.uint :=
  match fuel with
  | O => Decimal.Nil
  | S fuel' =>
      digit_uint (n mod 10)
                 (if (n <? 10)%N then Decimal.Nil
                  else little_uint fuel' (n / 10))
  end.

Definition uint_units (d : Decimal.uint) : jsstring :=
  lit (NilEmpty.string_of_uint d).

(** The cases of a digit, each settled by computation. *)
Ltac digit_cases k :=
  let p := fresh "p" in
  destruct k as [|p]; [|do 4 try (destruct p as [p|p|])];
  try reflexivity; try discriminate; try lia.

(** The integers a double holds exactly and prints digit by digit. *)
Definition safe_integer (z : Z) : Prop := - 2 ^ 53 < z < 2 ^ 53.

(** ** The aspect ratio search *)

(** [h] is the first of 1..21 at which [delta] is least. *)
Definition first_minimizer (delta : Z -> Q) (h : Z) : Prop :=
  1 <= h <= 21
  /\ (forall h', 1 <= h' <= 21 -> (delta h <= delta h')%Q)
  /\ (forall h', 1 <= h' < h -> (delta h < delta h')%Q).

(** [x] brought into the range from [low] to [high]. *)
Definition clamp (low high x : Z) : Z := Z.max low (Z.min high x).

(** The search as the code computes it, every quotient, product and
    difference rounded to a double: the target ratio, the width that goes
    with a height [h], and the distance of that pair from the target. *)
Definition double_ratio (width height : Z) : Q :=
  Float.div (inject_Z width) (inject_Z height).

Definition double_width (width height h : Z) : Z :=
  clamp 1 21
    (Float.Math_round (Float.mul (double_ratio width height) (inject_Z h))).

Definition double_delta (width height h : Z) : Q :=
  Qabs (Float.sub
          (Float.div (inject_Z (double_width width height h)) (inject_Z h))
          (double_ratio width height)).

(** The search for an approximate pair as it reads in exact rational
    arithmetic: the quotient, the product and the distance are not rounded. *)
Definition exact_ratio (width height : Z) : Q :=
  (inject_Z width / inject_Z height)%Q.

Definition exact_width (width height h : Z) : Z :=
  clamp 1 21 (Float.Math_round (exact_ratio width height * inject_Z h)%Q).

Definition exact_delta (width height h : Z) : Q :=
  Qabs (inject_Z (exact_width width height h) / inject_Z h
        - exact_ratio width height)%Q.

(** Does the reduced pair fit the bound? *)
Definition reduced_fits (width height : Z) : Prop :=
  width / Z.gcd width height <= 21 /\ height / Z.gcd width height <= 21.

(** ** The normalizer, its pages and records *)

(** The ordinal of a page: its [index], and 0 when it has none. *)
Definition index_or_zero (page : RawPage.t) : Z :=
  match RawPage.index page with
  | Some i => i
  | None => 0
  end.

(** Ascending order of the ordinals. *)
Definition by_ordinal (a b : RawPage.t) : Prop :=
  index_or_zero a <= index_or_zero b.

(** The records a list of pages yields, page by page. *)
Definition records_of (pagesList : list RawPage.t) : list ImageMetadata.t :=
  flat_map (fun page => match parse_page page with
                        | Some im => [im]
                        | None => []
                        end) pagesList.

(** The page list of a document; an absent list counts as empty. *)
Definition document_pages (doc : WikimediaApiResponse.t) : list RawPage.t :=
  match WikimediaApiResponse.query doc with
  | Some {| WikimediaApiResponse.pages := Some l |} => l
  | _ => []
  end.

(** The window [offset, offset + limit) of the pages in ordinal order. *)
Definition page_window (doc : WikimediaApiResponse.t)
    (params : SearchImagesInput.t) : list RawPage.t :=
  let sorted := array_sort compare_pages (document_pages doc) in
  let len := Z.of_nat (length sorted) in
  array_slice sorted
    (Z.min (SearchImagesInput.offset params) len)
    (Z.min (SearchImagesInput.offset params + SearchImagesInput.limit params)
           len).

(** A page is usable when its first image-info entry has a thumbnail URL
    that is not empty and a width and a height that are not zero. *)
Definition usable (page : RawPage.t) : bool :=
  match RawPage.imageinfo page with
  | Some (info :: _) =>
      truthy_str (ImageInfo.thumburl info)
      && truthy_num (ImageInfo.width info)
      && truthy_num (ImageInfo.height info)
  | _ => false
  end.

(** The record comes from the first image-info entry of the page. *)
Definition taken_from (im : ImageMetadata.t) (page : RawPage.t) : Prop :=
  exists info rest,
    RawPage.imageinfo page = Some (info :: rest)
    /\ ImageInfo.thumburl info = Some (ImageMetadata.url im)
    /\ ImageInfo.width info = Some (ImageMetadata.width im)
    /\ ImageInfo.height info = Some (ImageMetadata.height im).

Definition sample_info (thumb : string) (w h : Z) : ImageInfo.t :=
  {| ImageInfo.thumburl := Some (lit thumb);
     ImageInfo.size := None;
     ImageInfo.width := Some w;
     ImageInfo.height := Some h;
     ImageInfo.url := None;
     ImageInfo.descriptionurl := None;
     ImageInfo.descriptionshorturl := None;
     ImageInfo.mime := None;
     ImageInfo.extmetadata := None |}.

Definition sample_page (i : Z) (w h : Z) : RawPage.t :=
  {| RawPage.pageid := None;
     RawPage.index := Some i;
     RawPage.title := None;
     RawPage.imageinfo :=
       Some [sample_info "https://upload.example/256px-a.jpg" w h] |}.

Definition sample_doc (l : list RawPage.t) : WikimediaApiResponse.t :=
  {| WikimediaApiResponse.query :=
       Some {| WikimediaApiResponse.pages := Some l |};
     WikimediaApiResponse.error := None |}.

Definition sample_params (offset limit : Z) : SearchImagesInput.t :=
  {| SearchImagesInput.query := lit "cat";
     SearchImagesInput.limit := limit;
     SearchImagesInput.offset := offset;
     SearchImagesInput.license := all;
     SearchImagesInput.include_thumbnails := true |}.

(** Three pages out of order: ordinals 5, 3, 4. *)
Definition sample_unordered : WikimediaApiResponse.t :=
  sample_doc [sample_page 5 800 600; sample_page 3 640 480;
              sample_page 4 1920 817].

(** Three pages out of order, the second without ordinal: 5, none, 3. *)
Definition sample_no_index : WikimediaApiResponse.t :=
  sample_doc
    [sample_page 5 800 600;
     {| RawPage.pageid := None;
        RawPage.index := None;
        RawPage.title := None;
        RawPage.imageinfo :=
          Some [sample_info "https://upload.example/256px-b.jpg" 640 480] |};
     sample_page 3 1920 817].

(** ["/<digits>px-"] *)
Definition width_segment (digits : jsstring) : jsstring :=
  47%N :: digits ++ lit "px-".

(** A decimal digit, [0] to [9]. *)
Definition decimal_unit (c : N) : bool := ((48 <=? c) && (c <=? 57))%N.

(** [url] holds a width segment with the digits [digits], after [before]
    and in front of [after]. *)
Definition occurs_at (url before digits after : jsstring) : Prop :=
  digits <> []
  /\ forallb decimal_unit digits = true
  /\ url = before ++ width_segment digits ++ after.

Definition has_width_segment (url : jsstring) : Prop :=
  exists before digits after, occurs_at url before digits after.

(** No width segment begins further to the left. *)
Definition leftmost (url before : jsstring) : Prop :=
  forall before' digits' after',
    occurs_at url before' digits' after' ->
    (length before <= length before')%nat.

(** What is written for a width: its numeral, a minus sign and the numeral
    of its absolute value, or [-Infinity]. *)
Definition width_text (n : number) : jsstring :=
  match n with
  | Finite z => if z <? 0 then 45%N :: decimal (- z) else decimal z
  | NegInfinity => lit "-Infinity"
  end.

(** A width that prints digit by digit. *)
Definition printable (n : number) : Prop :=
  match n with
  | Finite z => safe_integer z
  | NegInfinity => True
  end.

(** A check that runs: no width segment begins at the first [n] places. *)
Fixpoint no_match_before (n : nat) (url : jsstring) : bool :=
  match n, url with
  | S n', _ :: r =>
      match match_width_segment url with
      | None => no_match_before n' r
      | Some _ => false
      end
  | _, _ => true
  end.

(** The records a call keeps. *)
Definition retained (images : list ImageMetadata.t) : list ImageMetadata.t :=
  firstn (Z.to_nat MAX_IMAGES_IN_COMPOSITE) images.

(** The canvas of a grid of [columns] by [rows] cells. *)
Definition grid_canvas (columns rows : Z) : Z * Z :=
  (columns * THUMBNAIL_SIZE + (columns + 1) * SPACING,
   rows * THUMBNAIL_SIZE + (rows + 1) * SPACING).

Definition sample_image (i w h : Z) : ImageMetadata.t :=
  {| ImageMetadata.index := i;
     ImageMetadata.url :=
       lit "https://upload.example/thumb/Cat.jpg/256px-Cat.jpg";
     ImageMetadata.size := None;
     ImageMetadata.width := w;
     ImageMetadata.height := h;
     ImageMetadata.aspectRatio := Some (getAspectRatio w h);
     ImageMetadata.caption := None;
     ImageMetadata.date := None;
     ImageMetadata.descriptionurl := [];
     ImageMetadata.description := None;
     ImageMetadata.credit := None;
     ImageMetadata.artist := None;
     ImageMetadata.license := None |}.

(** Every request is answered with 200 and three bytes. *)
Definition fetch_all_ok (index : Z) (url : jsstring) : FetchOutcome :=
  Response true 200 (Some [255; 216; 255]%N).

(** The request of the item at position 1 is answered with 404. *)
Definition fetch_second_missing (index : Z) (url : jsstring) : FetchOutcome :=
  if index =? 1 then Response false 404 None
  else Response true 200 (Some [255; 216; 255]%N).

Definition resize_keeps (b : Buffer) : option Buffer := Some b.

(** An encoder that answers with the two markers every JPEG stream has. *)
Definition jpeg_markers (req : CompositeRequest) : Buffer :=
  [255; 216; 255; 217]%N.

Section RatioInvariant.

Variable targetRatio : Q.

Local Abbreviation delta := (candidate_delta targetRatio).
Local Abbreviation width_at := (candidate_width targetRatio).

(** What the loop knows after the values [seen]: nothing, or the first
    least [delta] among them. *)
Definition loop_invariant (seen : list Z) (st : (Z * Z) * option Q) : Prop :=
  match snd st with
  | None => seen = []
  | Some d =>
      exists h before after,
        seen = before ++ h :: after
        /\ fst st = (width_at h, h)
        /\ d = delta h
        /\ (forall x, In x before -> (delta h < delta x)%Q)
        /\ (forall x, In x after -> (delta h <= delta x)%Q)
  end.

End RatioInvariant.

Section CompositeOutcome.

Variable fetch : Z -> jsstring -> FetchOutcome.
Variable sharp_resize : Buffer -> option Buffer.

(** The resized thumbnail of the item at [index], when its response is
    ok, its body arrives and [sharp] decodes it; [None] is a failure. *)
Definition thumbnail_of (img : ImageMetadata.t) (index : Z) : option Buffer :=
  match fetch index (fetch_url img) with
  | Response true _ (Some body) => sharp_resize body
  | _ => None
  end.

(** The successes with their positions, in the order of the positions. *)
Definition successes (images : list ImageMetadata.t) : list (Buffer * Z) :=
  filter_non_null
    (map_indexed (process_image fetch sharp_resize) (retained images)).

(** The canvas a call asks for once something succeeded. *)
Definition canvas_request (images : list ImageMetadata.t) : CompositeRequest :=
  let rows :=
    Qceiling (Float.div (inject_Z (Z.of_nat (length (retained images))))
                        (inject_Z COLUMNS)) in
  {| canvas_width := COLUMNS * THUMBNAIL_SIZE + (COLUMNS + 1) * SPACING;
     canvas_height := rows * THUMBNAIL_SIZE + (rows + 1) * SPACING;
     layers := map thumbnail_layer (successes images)
               ++ map overlay_layer (successes images) |}.

End CompositeOutcome.

(** ** Text helpers *)

(** A [<] with a [>] somewhere after it: what the pattern of [stripHtml]
    matches. *)
Definition has_tag (s : jsstring) : Prop :=
  exists before after, s = before ++ lt_sign :: after /\ In gt_sign after.

(** [t] is [s] with some of its units deleted: the units of [t] are
    units of [s], in the order they have there. *)
Inductive subsequence : jsstring -> jsstring -> Prop :=
| subsequence_nil : subsequence [] []
| subsequence_keep (c : N) (t s : jsstring) :
    subsequence t s -> subsequence (c :: t) (c :: s)
| subsequence_drop (c : N) (t s : jsstring) :
    subsequence t s -> subsequence t (c :: s).

(** A tag: a [<], units other than [>], and a [>]. *)
Definition tag (g : jsstring) : Prop :=
  exists body, g = lt_sign :: body ++ [gt_sign] /\ ~ In gt_sign body.

(** A text made of tags, one after the other, and of nothing else. *)
Definition tags_only (s : jsstring) : Prop :=
  exists tags, Forall tag tags /\ s = concat tags.

(** ** Records *)

(** An optional text of a record: when present it is not empty and holds at
    most [cap] units and the three dots. *)
Definition text_within (cap : Z) (field : option jsstring) : Prop :=
  match field with
  | Some t => t <> [] /\ Z.of_nat (length t) <= cap + 3
  | None => True
  end.

(** The extended metadata of the first image-info entry of a page. *)
Definition page_metadata (page : RawPage.t) : option ExtMetadata.t :=
  match RawPage.imageinfo page with
  | Some (info :: _) => ImageInfo.extmetadata info
  | _ => None
  end.

(** The same search with another window. *)
Definition with_window (params : SearchImagesInput.t) (offset limit : Z)
  : SearchImagesInput.t :=
  {| SearchImagesInput.query := SearchImagesInput.query params;
     SearchImagesInput.limit := limit;
     SearchImagesInput.offset := offset;
     SearchImagesInput.license := SearchImagesInput.license params;
     SearchImagesInput.include_thumbnails :=
       SearchImagesInput.include_thumbnails params |}.

(** The images of a call; none when it throws. *)
Definition images_of (outcome : jsstring + SearchResult.t)
  : list ImageMetadata.t :=
  match outcome with
  | inr r => SearchResult.images r
  | inl _ => []
  end.

(** None of the four license entries of the source yields a field:
    the two names and the URL are absent or empty, and so are the usage
    terms once their tags are removed. *)
Definition license_sources_empty (ext : option ExtMetadata.t) : Prop :=
  truthy_str (ext_field ext ExtMetadata.LicenseShortName) = false
  /\ truthy_str (ext_field ext ExtMetadata.License) = false
  /\ truthy_str (stripHtml (ext_field ext ExtMetadata.UsageTerms)) = false
  /\ truthy_str (ext_field ext ExtMetadata.LicenseUrl) = false.

(** The text fields of a record keep to their caps. *)
Definition texts_within_caps (im : ImageMetadata.t) : Prop :=
  text_within 500 (ImageMetadata.caption im)
  /\ text_within 500 (ImageMetadata.date im)
  /\ text_within 500 (ImageMetadata.description im)
  /\ text_within 500 (ImageMetadata.credit im)
  /\ text_within 500 (ImageMetadata.artist im)
  /\ match ImageMetadata.license im with
     | Some l =>
         text_within 100 (LicenseInfo.name l)
         /\ text_within 500 (LicenseInfo.usageTerms l)
         /\ LicenseInfo.url l <> Some []
     | None => True
     end.

(** ** The compositor and the URL *)

(** A unit of base64 text: a letter, a digit, [+], [/] or the padding. *)
Definition base64_unit (c : N) : bool :=
  (((65 <=? c) && (c <=? 90)) || ((97 <=? c) && (c <=? 122))
   || ((48 <=? c) && (c <=? 57)) || (c =? 43) || (c =? 47) || (c =? 61))%N.

(** A byte. *)
Definition is_byte (x : N) : Prop := (x < 256)%N.

(** The number a base64 digit stands for. *)
Definition base64_value (c : N) : option N :=
  (if (65 <=? c) && (c <=? 90) then Some (c - 65)
   else if (97 <=? c) && (c <=? 122) then Some (c - 71)
   else if (48 <=? c) && (c <=? 57) then Some (c + 4)
   else if c =? 43 then Some 62
   else if c =? 47 then Some 63
   else None)%N.

(** The bytes a base64 text stands for: four digits give three bytes; the
    last four may end in one or two paddings and give two bytes or one. *)
Fixpoint base64_decode (s : jsstring) : option Buffer :=
  match s with
  | [] => Some []
  | a :: b :: c :: d :: r =>
      match base64_value a, base64_value b with
      | Some va, Some vb =>
          let x := (va * 4 + vb / 16)%N in
          match base64_value c, base64_value d, r with
          | Some vc, Some vd, _ =>
              match base64_decode r with
              | Some bytes =>
                  Some (x :: (vb mod 16 * 16 + vc / 4)%N
                          :: (vc mod 4 * 64 + vd)%N :: bytes)
              | None => None
              end
          | Some vc, None, [] =>
              if (d =? 61)%N then Some [x; (vb mod 16 * 16 + vc / 4)%N]
              else None
          | None, None, [] =>
              if ((c =? 61) && (d =? 61))%N then Some [x] else None
          | _, _, _ => None
          end
      | _, _ => None
      end
  | _ => None
  end.


(** The box of the cell size at the origin of a layer lies on the canvas,
    within its margin. *)
Definition layer_on_canvas (req : CompositeRequest) (layer : CompositeLayer)
  : Prop :=
  SPACING <= top layer
  /\ top layer + THUMBNAIL_SIZE <= canvas_height req
  /\ SPACING <= left layer
  /\ left layer + THUMBNAIL_SIZE <= canvas_width req.

(** The bytes of a label show the number [k]: after the attributes of the
    [<text] element and the [>] that ends them, the numeral of [k] stands
    on a line of its own, and [</text>] follows on the next. *)
Definition label_shows (label : Buffer) (k : Z) : Prop :=
  exists before attributes tail,
    forallb (fun c => negb (c =? 62)%N) attributes = true
    /\ label = before ++ lit "<text " ++ attributes ++ [62; 10]%N
               ++ repeat 32%N 10 ++ decimal k
               ++ [10]%N ++ repeat 32%N 8 ++ lit "</text>" ++ tail.

(** ** The request URL *)

(** The units of a string are UTF-16 code units. *)
Definition code_units (s : jsstring) : Prop :=
  Forall (fun c => (c < 65536)%N) s.

(** What an encoded name or value is made of: a safe byte, [+] or [%]. *)
Definition encoded_unit (c : N) : bool :=
  (form_safe c || (c =? 43) || (c =? 37))%N.

(** The query string of the request, around the encoded search text and
    the number of pages asked for. *)
Definition request_url (search total : jsstring) : jsstring :=
  lit "https://commons.wikimedia.org/w/api.php"
  ++ lit "?action=query&format=json&formatversion=2"
  ++ lit "&generator=search&gsrsearch="
  ++ search
  ++ lit "&gsrnamespace=6&gsrlimit="
  ++ total
  ++ lit "&prop=imageinfo&iiprop=url%7Csize%7Cmime%7Cextmetadata"
  ++ lit "&iiurlwidth=256".

(** A string of letters and digits. *)
Definition alphanumeric (s : jsstring) : Prop :=
  Forall (fun c => (((48 <=? c) && (c <=? 57)) || ((65 <=? c) && (c <=? 90))
                    || ((97 <=? c) && (c <=? 122)))%N = true) s.

(** ** Rounding *)

(** Half a unit in the last place of a double, relative to its value:
    [2^-53]. *)
Definition eps : Q := 1 # 9007199254740992.

(** ** The search tool *)

(** Why a search fails, if it does: the message of the error that reaches
    [searchWikimediaImages]. *)
Definition failure_cause (outcome : ApiOutcome) : option jsstring :=
  match outcome with
  | ApiRejected reason => Some (message_of reason (lit "Unknown error"))
  | ApiResponse false status statusText _ =>
      Some (lit "Wikimedia API request failed: " ++ number_to_string status
            ++ lit " " ++ statusText)
  | ApiResponse true _ _ (inl reason) =>
      Some (message_of reason (lit "Unknown error"))
  | ApiResponse true _ _ (inr doc) =>
      match WikimediaApiResponse.error doc with
      | Some e =>
          Some (lit "Wikimedia API error: " ++ WikimediaApiResponse.info e)
      | None => None
      end
  end.

Definition is_text (item : ContentItem) : Prop :=
  match item with
  | TextItem _ => True
  | ImageItem _ _ _ => False
  end.

(** A [yaml.dump] that writes 25001 units, whatever the records. *)
Definition yaml_long (images : list ImageMetadata.t) : jsstring :=
  repeat 120%N (Z.to_nat 25001).

(** A [yaml.dump] that writes one line per record. *)
Definition yaml_short (images : list ImageMetadata.t) : jsstring :=
  flat_map (fun im => lit "- index: " ++ decimal (ImageMetadata.index im)
                      ++ [newline]) images.

(** An API that answers every request with the sample document. *)
Definition api_sample (url : jsstring) : ApiOutcome :=
  ApiResponse true 200 (lit "OK") (inr sample_unordered).

(** An API that answers every request with 503. *)
Definition api_unavailable (url : jsstring) : ApiOutcome :=
  ApiResponse false 503 (lit "Service Unavailable") (inl OtherValue).

(** Two records ask for the same thumbnail: same URL, width and height. *)
Definition same_picture (a b : ImageMetadata.t) : Prop :=
  ImageMetadata.url a = ImageMetadata.url b
  /\ ImageMetadata.width a = ImageMetadata.width b
  /\ ImageMetadata.height a = ImageMetadata.height b.

(** The result of the sample search, computed. *)
Definition sample_result : SearchResult.t :=
  match snd (parseWikimediaResponse sample_unordered (sample_params 0 9)) with
  | inr r => r
  | inl _ => {| SearchResult.images := []; SearchResult.hasMore := false;
                SearchResult.nextOffset := None |}
  end.

(** * Properties *)

(** ** Decimal numerals *)

Lemma digit_uint_units (k : N) (d : Decimal.uint) :
  (k < 10)%N -> uint_units (digit_uint k d) = (48 + k)%N :: uint_units d.
Proof. intros Hk. digit_cases k. Qed.

Lemma digit_uint_value (k : N) (d : Decimal.uint) :
  (k < 10)%N ->
  DecimalPos.Unsigned.of_lu (digit_uint k d)
  = (k + 10 * DecimalPos.Unsigned.of_lu d)%N.
Proof. intros Hk. digit_cases k. Qed.

Lemma digit_uint_revapp (k : N) (r d : Decimal.uint) :
  Decimal.revapp (digit_uint k r) d = Decimal.revapp r (digit_uint k d).
Proof. digit_cases k. Qed.

Lemma digit_uint_nzhead (k : N) (d : Decimal.uint) :
  (0 < k < 10)%N -> Decimal.nzhead (digit_uint k d) = digit_uint k d.
Proof. intros Hk. digit_cases k. Qed.

Lemma digit_uint_not_nil (k : N) (d : Decimal.uint) :
  digit_uint k d <> Decimal.Nil.
Proof. digit_cases k. Qed.

Lemma little_uint_value (fuel : nat) :
  forall n, (n < 2 ^ N.of_nat fuel)%N ->
  DecimalPos.Unsigned.of_lu (little_uint fuel n) = n.
Proof.
  induction fuel as [|fuel IH]; intros n Hn.
  - cbn in Hn. cbn. lia.
  - cbn [little_uint].
    pose proof (N.mod_upper_bound n 10 ltac:(lia)) as Hm.
    rewrite digit_uint_value by exact Hm.
    pose proof (N.div_mod n 10 ltac:(lia)) as Hdm.
    destruct (N.ltb_spec n 10) as [Hlt|Hge].
    + cbn [DecimalPos.Unsigned.of_lu]. rewrite N.mod_small by exact Hlt. lia.
    + rewrite IH; [lia|].
      replace (N.of_nat (S fuel)) with (N.succ (N.of_nat fuel)) in Hn by lia.
      rewrite N.pow_succ_r' in Hn.
      apply N.Div0.div_lt_upper_bound. lia.
Qed.

Lemma little_uint_units (fuel : nat) :
  forall n d, (0 < n < 2 ^ N.of_nat fuel)%N ->
  decimal_digits fuel n (uint_units d)
  = uint_units (Decimal.revapp (little_uint fuel n) d)
  /\ Decimal.nzhead (Decimal.revapp (little_uint fuel n) d)
     = Decimal.revapp (little_uint fuel n) d
  /\ Decimal.revapp (little_uint fuel n) d <> Decimal.Nil.
Proof.
  induction fuel as [|fuel IH]; intros n d Hn; [cbn in Hn; lia|].
  cbn [little_uint decimal_digits]. cbv zeta.
  pose proof (N.mod_upper_bound n 10 ltac:(lia)) as Hm.
  rewrite digit_uint_revapp, <- digit_uint_units by exact Hm.
  destruct (N.ltb_spec n 10) as [Hlt|Hge].
  - cbn [Decimal.revapp]. split; [reflexivity|].
    rewrite N.mod_small by exact Hlt.
    split; [apply digit_uint_nzhead; lia|apply digit_uint_not_nil].
  - apply IH. split.
    + apply N.div_str_pos. lia.
    + replace (N.of_nat (S fuel)) with (N.succ (N.of_nat fuel)) in Hn by lia.
      rewrite N.pow_succ_r' in Hn.
      apply N.Div0.div_lt_upper_bound. lia.
Qed.

Lemma decimal_to_uint (p : positive) :
  decimal (Zpos p) = uint_units (Pos.to_uint p).
Proof.
  unfold decimal. cbn [Z.to_N].
  set (fuel := S (N.to_nat (N.log2 (Npos p)))).
  assert (Hn : (0 < Npos p < 2 ^ N.of_nat fuel)%N).
  { split; [lia|]. unfold fuel.
    replace (N.of_nat (S (N.to_nat (N.log2 (Npos p)))))
      with (N.succ (N.log2 (Npos p))) by lia.
    apply N.log2_spec. lia. }
  destruct (little_uint_units fuel (Npos p) Decimal.Nil Hn)
    as (Hunits & Hhead & Hnil).
  change (uint_units Decimal.Nil) with (@nil N) in Hunits.
  rewrite Hunits. f_equal.
  fold (Decimal.rev (little_uint fuel (Npos p))) in *.
  set (D := Decimal.rev (little_uint fuel (Npos p))) in *.
  assert (Hval : N.of_uint D = Npos p).
  { unfold N.of_uint. rewrite DecimalPos.Unsigned.of_uint_alt. unfold D.
    rewrite DecimalFacts.rev_rev. apply little_uint_value, Hn. }
  change (Pos.to_uint p) with (N.to_uint (Npos p)).
  rewrite <- Hval, DecimalN.Unsigned.to_of.
  unfold Decimal.unorm. rewrite Hhead. destruct D; congruence.
Qed.

(** What [number_to_string] writes for a number that is not negative are
    its decimal digits. *)
Lemma number_to_string_decimal (z : Z) :
  0 <= z -> number_to_string z = decimal z.
Proof.
  intros Hz. destruct z as [|p|p]; [reflexivity| |lia].
  rewrite decimal_to_uint. unfold number_to_string, uint_units.
  cbn [Z.to_int NilZero.string_of_int]. unfold NilZero.string_of_uint.
  pose proof (DecimalPos.Unsigned.to_uint_nonnil p) as Hne.
  destruct (Pos.to_uint p); [contradiction|..]; reflexivity.
Qed.

(** A negative number is written as a minus sign and the digits of its
    absolute value. *)
Lemma number_to_string_negative (z : Z) :
  z < 0 -> number_to_string z = 45%N :: decimal (- z).
Proof.
  intros Hz. destruct z as [|p|p]; [lia|lia|].
  cbn [Z.opp]. rewrite decimal_to_uint. unfold number_to_string, uint_units.
  cbn [Z.to_int NilZero.string_of_int]. unfold NilZero.string_of_uint.
  pose proof (DecimalPos.Unsigned.to_uint_nonnil p) as Hne.
  destruct (Pos.to_uint p); [contradiction|..]; reflexivity.
Qed.

Example decimal_samples :
  decimal 0 = lit "0" /\ decimal 7 = lit "7" /\ decimal 171 = lit "171"
  /\ decimal 1000 = lit "1000"
  /\ decimal 9007199254740991 = lit "9007199254740991".
Proof. vm_compute. repeat split. Qed.

(** A numeral is made of digits and is not empty. *)
Lemma decimal_digits_units (fuel : nat) :
  forall n tail,
    Forall (fun c => (48 <= c <= 57)%N) tail ->
    Forall (fun c => (48 <= c <= 57)%N) (decimal_digits fuel n tail).
Proof.
  induction fuel as [|fuel IH]; intros n tail Ht; [exact Ht|].
  cbn [decimal_digits]. cbv zeta.
  pose proof (N.mod_upper_bound n 10 ltac:(lia)) as Hm.
  assert (Hc : Forall (fun c => (48 <= c <= 57)%N) ((48 + n mod 10)%N :: tail))
    by (constructor; [cbv beta; revert Hm; generalize (n mod 10)%N; lia
                     |exact Ht]).
  destruct (n <? 10)%N; [exact Hc|apply IH, Hc].
Qed.

Lemma decimal_units (z : Z) : Forall (fun c => (48 <= c <= 57)%N) (decimal z).
Proof. apply decimal_digits_units. constructor. Qed.

(** ** The aspect ratio label *)

Lemma gcd_rec_Zgcd (fuel : nat) :
  forall a b, 0 <= a -> 0 <= b -> b < Z.of_nat fuel ->
  gcd_rec fuel a b = Z.gcd a b.
Proof.
  induction fuel as [|fuel IH]; intros a b Ha Hb Hfuel; [lia|].
  cbn [gcd_rec]. destruct (Z.eqb_spec b 0) as [->|Hnz].
  - rewrite Z.gcd_0_r. lia.
  - rewrite Z.rem_mod_nonneg by lia.
    pose proof (Z.mod_pos_bound a b ltac:(lia)) as Hm.
    rewrite IH by lia.
    rewrite (Z.gcd_comm b), Z.gcd_mod by exact Hnz. apply Z.gcd_comm.
Qed.

(** The recursion of [gcd] ends within the depth it is given, with the
    greatest common divisor. *)
Lemma gcd_is_Zgcd (a b : Z) : 0 <= a -> 0 <= b -> gcd a b = Z.gcd a b.
Proof.
  intros Ha Hb. unfold gcd. apply gcd_rec_Zgcd; lia.
Qed.

Section RatioLoop.

Variable targetRatio : Q.

Local Abbreviation delta := (candidate_delta targetRatio).
Local Abbreviation width_at := (candidate_width targetRatio).

Lemma ratio_step_invariant (seen : list Z) st (h : Z) :
  loop_invariant targetRatio seen st ->
  loop_invariant targetRatio (seen ++ [h]) (ratio_step targetRatio st h).
Proof.
  unfold loop_invariant, ratio_step. destruct st as [pair [d|]]; cbn [snd fst].
  - intros (h0 & before & after & Hseen & Hpair & Hd & Hbefore & Hafter).
    cbn [Float.ltb_inf].
    destruct (Qle_bool d (delta h)) eqn:Hcmp; cbn [negb snd fst].
    + apply Qle_bool_iff in Hcmp.
      exists h0, before, (after ++ [h]). subst seen d.
      rewrite <- app_assoc. repeat split; auto.
      intros x Hx. apply in_app_or in Hx as [Hx|[<-|[]]]; auto.
    + assert (Hlt : (delta h < d)%Q).
      { apply Qnot_le_lt. intro Hle. apply Qle_bool_iff in Hle. congruence. }
      exists h, seen, []. subst d. repeat split; auto; [|intros x []].
      intros x Hx. subst seen. apply in_app_or in Hx as [Hx|[<-|Hx]].
      * eapply Qlt_trans; [exact Hlt|auto].
      * exact Hlt.
      * eapply Qlt_le_trans; [exact Hlt|auto].
  - intros ->. cbn. exists h, [], []. repeat split; auto; intros x [].
Qed.

Lemma ratio_loop_invariant (l : list Z) :
  forall seen st, loop_invariant targetRatio seen st ->
  loop_invariant targetRatio (seen ++ l)
                 (fold_left (ratio_step targetRatio) l st).
Proof.
  induction l as [|h l IH]; intros seen st Hinv; cbn [fold_left].
  - rewrite app_nil_r. exact Hinv.
  - replace (seen ++ h :: l) with ((seen ++ [h]) ++ l)
      by (rewrite <- app_assoc; reflexivity).
    apply IH, ratio_step_invariant, Hinv.
Qed.

End RatioLoop.

Lemma heights_range (h : Z) : In h heights <-> 1 <= h <= MAX_COMPONENT.
Proof.
  unfold heights, MAX_COMPONENT. rewrite in_map_iff. split.
  - intros (n & <- & Hn). apply in_seq in Hn. lia.
  - intros Hh. exists (Z.to_nat h). split; [lia|]. apply in_seq. lia.
Qed.

Lemma heights_sorted : StronglySorted Z.lt heights.
Proof.
  unfold heights. generalize 1%nat (Z.to_nat MAX_COMPONENT).
  intros s n. revert s. induction n as [|n IH]; intros s; cbn; constructor.
  - apply IH.
  - apply Forall_forall. intros x Hx. apply in_map_iff in Hx as (k & <- & Hk).
    apply in_seq in Hk. lia.
Qed.

Lemma sorted_split_before (before after : list Z) (h x : Z) :
  StronglySorted Z.lt (before ++ h :: after) ->
  In x (before ++ h :: after) -> x < h -> In x before.
Proof.
  induction before as [|b before IH]; cbn; intros Hs Hin Hlt.
  - inversion Hs as [|? ? _ Hall]; subst. destruct Hin as [->|Hin]; [lia|].
    rewrite Forall_forall in Hall. specialize (Hall _ Hin). lia.
  - inversion Hs as [|? ? Hs' _]; subst. destruct Hin as [->|Hin]; auto.
  Qed.

Lemma ratio_loop_first (targetRatio : Q) (start : Z * Z) (l : list Z) :
  l <> [] -> StronglySorted Z.lt l ->
  exists h,
    In h l
    /\ (forall h', In h' l ->
        (candidate_delta targetRatio h <= candidate_delta targetRatio h')%Q)
    /\ (forall h', In h' l -> h' < h ->
        (candidate_delta targetRatio h < candidate_delta targetRatio h')%Q)
    /\ fst (fold_left (ratio_step targetRatio) l (start, None))
       = (candidate_width targetRatio h, h).
Proof.
  intros Hne Hsorted.
  pose proof (ratio_loop_invariant targetRatio l [] (start, None) eq_refl)
    as Hinv.
  unfold loop_invariant in Hinv. rewrite app_nil_l in Hinv.
  destruct (fold_left (ratio_step targetRatio) l (start, None))
    as [pair [d|]]; cbn [snd fst] in *; [|contradiction].
  destruct Hinv as (h & before & after & Hsplit & Hpair & _ & Hbefore & Hafter).
  exists h. split; [rewrite Hsplit; apply in_elt|]. split; [|split].
  - intros h' Hh'. rewrite Hsplit in Hh'.
    apply in_app_or in Hh' as [Hh'|[<-|Hh']].
    + apply Qlt_le_weak; auto.
    + apply Qle_refl.
    + auto.
  - intros h' Hh' Hlt. apply Hbefore.
    apply (sorted_split_before before after h h'); [| |exact Hlt].
    + rewrite <- Hsplit. exact Hsorted.
    + rewrite <- Hsplit. exact Hh'.
  - exact Hpair.
Qed.

Lemma heights_not_nil : heights <> [].
Proof.
  intro H.
  assert (Hin : In 1 heights)
    by (apply heights_range; unfold MAX_COMPONENT; lia).
  rewrite H in Hin. exact Hin.
Qed.

(** The loop of [getAspectRatio] ends on the first least [delta]. *)
Lemma ratio_loop_first_minimizer (targetRatio : Q) (start : Z * Z) :
  exists h,
    first_minimizer (candidate_delta targetRatio) h
    /\ fst (fold_left (ratio_step targetRatio) heights (start, None))
       = (candidate_width targetRatio h, h).
Proof.
  destruct (ratio_loop_first targetRatio start heights heights_not_nil
              heights_sorted) as (h & Hin & Hmin & Hfirst & Hfold).
  exists h. split; [|exact Hfold].
  apply heights_range in Hin.
  split; [exact Hin|]. split.
  - intros h' Hh'. apply Hmin, heights_range, Hh'.
  - intros h' Hh'. apply Hfirst; [|lia]. apply heights_range. lia.
Qed.

Lemma first_minimizer_unique (delta : Z -> Q) (h1 h2 : Z) :
  first_minimizer delta h1 -> first_minimizer delta h2 -> h1 = h2.
Proof.
  intros (R1 & M1 & F1) (R2 & M2 & F2).
  destruct (Z.lt_trichotomy h1 h2) as [Hlt|[Heq|Hgt]]; [|exact Heq|].
  - exfalso. specialize (F2 h1 ltac:(lia)). specialize (M1 h2 R2).
    exact (Qlt_not_le _ _ F2 M1).
  - exfalso. specialize (F1 h2 ltac:(lia)). specialize (M2 h1 R1).
    exact (Qlt_not_le _ _ F1 M2).
Qed.

(** The reduced pair, as the branch of [getAspectRatio] for positive
    dimensions computes it. *)
Lemma reduced_pair (width height : Z) :
  0 < width -> 0 < height ->
  gcd (Z.abs width) (Z.abs height) = Z.gcd width height.
Proof.
  intros Hw Hh. rewrite gcd_is_Zgcd by lia.
  rewrite Z.gcd_abs_l, Z.gcd_abs_r. reflexivity.
Qed.

Lemma getAspectRatio_unknown (width height : Z) :
  width <= 0 \/ height <= 0 -> getAspectRatio width height = lit "unknown".
Proof.
  intros H. unfold getAspectRatio.
  replace ((width <=? 0) || (height <=? 0))%bool with true; [reflexivity|].
  symmetry. apply orb_true_iff. rewrite !Z.leb_le. exact H.
Qed.

Lemma getAspectRatio_positive (width height : Z) :
  0 < width -> 0 < height ->
  getAspectRatio width height =
    let g := Z.gcd width height in
    if ((width / g <=? MAX_COMPONENT) && (height / g <=? MAX_COMPONENT))%bool
    then ratio_label (width / g) (height / g)
    else
      let targetRatio := Float.div (inject_Z width) (inject_Z height) in
      let bestPair :=
        fst (fold_left (ratio_step targetRatio) heights
                       ((width / g, height / g), None)) in
      approx_sign :: ratio_label (fst bestPair) (snd bestPair).
Proof.
  intros Hw Hh. unfold getAspectRatio.
  replace ((width <=? 0) || (height <=? 0))%bool with false.
  - rewrite reduced_pair by assumption. reflexivity.
  - symmetry. apply orb_false_iff. rewrite !Z.leb_gt. split; assumption.
Qed.

(** The width and the distance of the loop body are the rounded, clamped
    product and the rounded distance of the search in doubles. *)
Lemma candidate_width_double (width height h : Z) :
  candidate_width (double_ratio width height) h = double_width width height h.
Proof.
  unfold candidate_width, double_width, clamp, MAX_COMPONENT. lia.
Qed.

Lemma candidate_delta_double (width height h : Z) :
  candidate_delta (double_ratio width height) h = double_delta width height h.
Proof.
  unfold candidate_delta, double_delta. rewrite candidate_width_double.
  reflexivity.
Qed.

Lemma double_width_range (width height h : Z) :
  1 <= double_width width height h <= 21.
Proof. unfold double_width, clamp. lia. Qed.

(** C2, as the code has it.  A non-positive dimension gives ["unknown"]; a
    reduced pair with both components at most 21 gives the two numerals
    with a colon between them; otherwise the label is the sign U+2248
    followed by the numerals of [w] and [h], where [h] is the first of
    1..21 that makes the distance [|w/h - width/height|] least and [w] is
    [round((width/height) * h)] clamped to 1..21 -- quotient, product and
    distance being the double-precision values the code computes.
    [getAspectRatio(4, 3)] is ["4:3"], [getAspectRatio(0, 100)] is
    ["unknown"], and [getAspectRatio(37, 6)] is the sign and ["19:3"]. *)
Theorem getAspectRatio_label (width height : Z) :
  (width <= 0 \/ height <= 0 -> getAspectRatio width height = lit "unknown")
  /\ (0 < width -> 0 < height -> reduced_fits width height ->
      getAspectRatio width height
      = decimal (width / Z.gcd width height) ++ lit ":"
        ++ decimal (height / Z.gcd width height))
  /\ (0 < width -> 0 < height -> ~ reduced_fits width height ->
      exists h,
        first_minimizer (double_delta width height) h
        /\ getAspectRatio width height
           = 8776%N :: decimal (double_width width height h) ++ lit ":"
                    ++ decimal h)
  /\ getAspectRatio 4 3 = lit "4:3"
  /\ getAspectRatio 0 100 = lit "unknown"
  /\ getAspectRatio 37 6 = 8776%N :: lit "19:3".
Proof.
  split; [apply getAspectRatio_unknown|]. split; [|split].
  - intros Hw Hh [Hfw Hfh]. rewrite getAspectRatio_positive by assumption.
    cbv zeta. unfold MAX_COMPONENT.
    apply Z.leb_le in Hfw, Hfh. rewrite Hfw, Hfh. cbn [andb].
    assert (Hg : 0 < Z.gcd width height).
    { pose proof (Z.gcd_nonneg width height).
      destruct (Z.eq_dec (Z.gcd width height) 0) as [E|]; [|lia].
      apply Z.gcd_eq_0_l in E. lia. }
    unfold ratio_label.
    rewrite !number_to_string_decimal by (apply Z.div_pos; lia).
    reflexivity.
  - intros Hw Hh Hnot.
    rewrite getAspectRatio_positive by assumption. cbv zeta.
    unfold MAX_COMPONENT at 1 2.
    destruct (_ && _)%bool eqn:Hfit.
    + exfalso. apply Hnot. apply andb_true_iff in Hfit.
      rewrite !Z.leb_le in Hfit. exact Hfit.
    + fold (double_ratio width height).
      destruct (ratio_loop_first_minimizer (double_ratio width height)
                  (width / Z.gcd width height, height / Z.gcd width height))
        as (h & (Hr & Hmin & Hfirst) & Hfold).
      exists h. split.
      * split; [exact Hr|]. split.
        -- intros h' Hh'. rewrite <- !candidate_delta_double. auto.
        -- intros h' Hh'. rewrite <- !candidate_delta_double. auto.
      * rewrite Hfold. cbn [fst snd]. unfold ratio_label, approx_sign.
        rewrite candidate_width_double.
        pose proof (double_width_range width height h).
        rewrite !number_to_string_decimal by lia. reflexivity.
  - repeat split; vm_compute; reflexivity.
Qed.

(** The theorem at 1920 x 817, whose reduced pair exceeds the bound: the
    label is that of [h = 3], [w = 7]. *)
Lemma getAspectRatio_label_witness :
  ~ reduced_fits 1920 817
  /\ getAspectRatio 1920 817 = 8776%N :: lit "7:3"
  /\ double_width 1920 817 3 = 7
  /\ exists h,
       first_minimizer (double_delta 1920 817) h
       /\ getAspectRatio 1920 817
          = 8776%N :: decimal (double_width 1920 817 h) ++ lit ":"
                   ++ decimal h.
Proof.
  assert (Hnot : ~ reduced_fits 1920 817).
  { unfold reduced_fits. vm_compute. intros [H _]. apply H. reflexivity. }
  split; [exact Hnot|]. split; [vm_compute; reflexivity|].
  split; [vm_compute; reflexivity|].
  apply (proj1 (proj2 (proj2 (getAspectRatio_label 1920 817)))).
  - lia.
  - lia.
  - exact Hnot.
Defined.

(** The values [h] can take. *)
Lemma component_cases (h : Z) :
  1 <= h <= 21 -> In h (map Z.of_nat (seq 1 21)).
Proof.
  intros Hh. apply in_map_iff. exists (Z.to_nat h).
  split; [lia|apply in_seq; lia].
Qed.

(** C2 as stated, with the distances of exact arithmetic, fails at 37 x 6:
    [6:1] and [19:3] are equally far from 37/6, so the first pair is
    [(6, 1)], yet the rounded distances differ and the code answers
    with [19:3]. *)
Lemma getAspectRatio_exact_counterexample :
  ~ (forall width height,
       0 < width -> 0 < height -> ~ reduced_fits width height ->
       exists h,
         first_minimizer (exact_delta width height) h
         /\ getAspectRatio width height
            = 8776%N :: decimal (exact_width width height h) ++ lit ":"
                     ++ decimal h).
Proof.
  intros Hclaim.
  destruct (Hclaim 37 6) as (h & (Hr & Hmin & Hfirst) & Hlabel); [lia|lia| |].
  - unfold reduced_fits. vm_compute. intros [H _]. apply H. reflexivity.
  - assert (Hh : h = 1).
    { destruct (Z.eq_dec h 1) as [|Hne]; [assumption|exfalso].
      specialize (Hfirst 1 ltac:(lia)).
      assert (Hall : forallb
                       (fun k => (k =? 1)
                                 || Qle_bool (exact_delta 37 6 1)
                                             (exact_delta 37 6 k))
                       (map Z.of_nat (seq 1 21)) = true)
        by (vm_compute; reflexivity).
      rewrite forallb_forall in Hall.
      specialize (Hall h (component_cases h Hr)).
      apply orb_true_iff in Hall as [Hall|Hall]; [apply Z.eqb_eq in Hall; lia|].
      apply Qle_bool_iff in Hall. exact (Qlt_not_le _ _ Hfirst Hall). }
    subst h. vm_compute in Hlabel. discriminate Hlabel.
Qed.

Example getAspectRatio_37_6 :
  getAspectRatio 37 6 = 8776%N :: lit "19:3"
  /\ first_minimizer (exact_delta 37 6) 1
  /\ exact_width 37 6 1 = 6
  /\ (exact_delta 37 6 3 == exact_delta 37 6 1)%Q.
Proof.
  split; [vm_compute; reflexivity|]. split; [|split; vm_compute; reflexivity].
  split; [lia|]. split.
  - intros h' Hh'.
    assert (Hall : forallb
                     (fun k => Qle_bool (exact_delta 37 6 1)
                                        (exact_delta 37 6 k))
                     (map Z.of_nat (seq 1 21)) = true)
      by (vm_compute; reflexivity).
    rewrite forallb_forall in Hall.
    apply Qle_bool_iff, Hall, component_cases, Hh'.
  - intros h' Hh'. lia.
Qed.

(** The rounding at work: the doubles nearest to 1/10 and to 37/6, and
    the two distances the loop compares at 37 x 6. *)
Example round_double_values :
  Float.round_double (1 # 10) = 3602879701896397 # 36028797018963968
  /\ Float.div 37 6 = 6943049425529515 # 1125899906842624
  /\ candidate_delta (Float.div 37 6) 1
     = 187649984473771 # 1125899906842624
  /\ candidate_delta (Float.div 37 6) 3
     = 93824992236885 # 562949953421312.
Proof. vm_compute. repeat split. Qed.

Example getAspectRatio_1920_817 :
  getAspectRatio 1920 817 = 8776%N :: lit "7:3".
Proof. vm_compute. reflexivity. Qed.

(** ** The normalizer *)

Lemma sort_insert_perm {A} (cmp : A -> A -> Z) (x : A) (l : list A) :
  Permutation (x :: l) (sort_insert cmp x l).
Proof.
  induction l as [|y l IH]; cbn; [reflexivity|].
  destruct (cmp x y <=? 0); [reflexivity|].
  rewrite perm_swap. apply perm_skip, IH.
Qed.

Lemma array_sort_perm {A} (cmp : A -> A -> Z) (l : list A) :
  Permutation l (array_sort cmp l).
Proof.
  induction l as [|x l IH]; cbn; [constructor|].
  rewrite <- sort_insert_perm. apply perm_skip, IH.
Qed.

Lemma array_sort_length {A} (cmp : A -> A -> Z) (l : list A) :
  length (array_sort cmp l) = length l.
Proof. symmetry. apply Permutation_length, array_sort_perm. Qed.

(** The key the comparator of [sort] goes by is the ordinal of the
    page. *)
Lemma ordinal_index_or_zero (page : RawPage.t) :
  ordinal page = index_or_zero page.
Proof. reflexivity. Qed.

Lemma sort_insert_sorted (x : RawPage.t) (l : list RawPage.t) :
  StronglySorted by_ordinal l ->
  StronglySorted by_ordinal (sort_insert compare_pages x l).
Proof.
  induction 1 as [|y l Hs IH Hall]; cbn.
  - repeat constructor.
  - unfold compare_pages at 1.
    rewrite (ordinal_index_or_zero x), (ordinal_index_or_zero y).
    destruct (Z.leb_spec (index_or_zero x - index_or_zero y) 0).
    + constructor; [constructor; assumption|].
      constructor; [unfold by_ordinal; lia|].
      eapply Forall_impl; [|exact Hall]. unfold by_ordinal. intros; lia.
    + constructor; [exact IH|].
      eapply Permutation_Forall; [apply sort_insert_perm|].
      constructor; [unfold by_ordinal; lia|exact Hall].
Qed.

Lemma array_sort_sorted (l : list RawPage.t) :
  StronglySorted by_ordinal (array_sort compare_pages l).
Proof.
  induction l as [|x l IH]; cbn; [constructor|].
  apply sort_insert_sorted, IH.
Qed.

(** Sorting is stable, so pages already in ordinal order stay as they are. *)
Lemma array_sort_sorted_id (l : list RawPage.t) :
  StronglySorted by_ordinal l -> array_sort compare_pages l = l.
Proof.
  induction 1 as [|x l Hs IH Hall]; cbn; [reflexivity|].
  fold (array_sort compare_pages l). rewrite IH.
  destruct l as [|y l]; cbn; [reflexivity|].
  inversion Hall as [|? ? Hxy _]; subst. unfold compare_pages, by_ordinal in *.
  rewrite (ordinal_index_or_zero x), (ordinal_index_or_zero y).
  destruct (Z.leb_spec (index_or_zero x - index_or_zero y) 0);
    [reflexivity|lia].
Qed.

Lemma StronglySorted_skipn {A} (R : A -> A -> Prop) (n : nat) (l : list A) :
  StronglySorted R l -> StronglySorted R (skipn n l).
Proof.
  revert l. induction n as [|n IH]; intros l Hs; [exact Hs|].
  destruct l as [|x l]; cbn; [constructor|].
  apply IH. inversion Hs; assumption.
Qed.

Lemma StronglySorted_firstn {A} (R : A -> A -> Prop) (n : nat) (l : list A) :
  StronglySorted R l -> StronglySorted R (firstn n l).
Proof.
  revert l. induction n as [|n IH]; intros l Hs; [constructor|].
  destruct l as [|x l]; cbn; [constructor|].
  inversion Hs as [|? ? Hs' Hall]; subst. constructor; [apply IH, Hs'|].
  rewrite Forall_forall in *. intros y Hy. apply Hall.
  eapply In_nth_error in Hy as [k Hk].
  destruct (Nat.lt_ge_cases k n) as [Hlt|Hge].
  - rewrite nth_error_firstn in Hk.
    destruct (k <? n)%nat eqn:E; [eapply nth_error_In, Hk|discriminate].
  - rewrite nth_error_firstn in Hk. apply Nat.ltb_ge in Hge.
    rewrite Hge in Hk. discriminate.
Qed.

Lemma array_slice_sorted {A} (R : A -> A -> Prop) (l : list A) (s e : Z) :
  StronglySorted R l -> StronglySorted R (array_slice l s e).
Proof.
  intros Hs. unfold array_slice.
  apply StronglySorted_firstn, StronglySorted_skipn, Hs.
Qed.

Lemma array_slice_incl {A} (l : list A) (s e : Z) (x : A) :
  In x (array_slice l s e) -> In x l.
Proof.
  unfold array_slice. intros H.
  set (k := Z.to_nat _) in H. set (n := Z.to_nat _) in H.
  rewrite <- (firstn_skipn n l). apply in_or_app. right.
  rewrite <- (firstn_skipn k (skipn n l)). apply in_or_app. left. exact H.
Qed.

Lemma parse_pages_from (l : list RawPage.t) (acc : list ImageMetadata.t) :
  fold_left
    (fun images page =>
       match parse_page page with
       | Some imageMetadata => images ++ [imageMetadata]
       | None => images
       end) l acc
  = acc ++ records_of l.
Proof.
  revert acc. induction l as [|p l IH]; intros acc; cbn.
  - symmetry. apply app_nil_r.
  - rewrite IH. destruct (parse_page p); [|reflexivity].
    rewrite <- app_assoc. reflexivity.
Qed.

Lemma parse_pages_records (l : list RawPage.t) : parse_pages l = records_of l.
Proof. unfold parse_pages. apply parse_pages_from. Qed.

Lemma array_slice_nil {A} (s e : Z) : array_slice (@nil A) s e = [].
Proof. unfold array_slice. rewrite skipn_nil, firstn_nil. reflexivity. Qed.

Lemma parse_page_some (page : RawPage.t) (im : ImageMetadata.t) :
  parse_page page = Some im ->
  usable page = true
  /\ ImageMetadata.index im = ordinal page
  /\ taken_from im page
  /\ ImageMetadata.url im <> []
  /\ ImageMetadata.width im <> 0
  /\ ImageMetadata.height im <> 0.
Proof.
  unfold parse_page, usable, taken_from.
  destruct (RawPage.imageinfo page) as [[|info rest]|]; try discriminate.
  destruct (ImageInfo.thumburl info) as [u|] eqn:Hu; try discriminate.
  destruct (ImageInfo.width info) as [w|] eqn:Hw; try discriminate.
  destruct (ImageInfo.height info) as [h|] eqn:Hh; try discriminate.
  destruct u as [|c u]; cbn [truthy_str negb orb andb]; try discriminate.
  cbn [truthy_num].
  destruct (Z.eqb_spec w 0); cbn [negb orb andb]; try discriminate.
  destruct (Z.eqb_spec h 0); cbn [negb orb andb]; try discriminate.
  intros [= <-]. cbn.
  split; [reflexivity|]. split; [reflexivity|]. split.
  - exists info, rest. repeat split; assumption.
  - repeat split; [discriminate|assumption|assumption].
Qed.

Lemma parse_page_usable (page : RawPage.t) :
  usable page = true -> exists im, parse_page page = Some im.
Proof.
  unfold parse_page, usable.
  destruct (RawPage.imageinfo page) as [[|info rest]|]; try discriminate.
  destruct (ImageInfo.thumburl info) as [u|]; try discriminate.
  destruct (ImageInfo.width info) as [w|]; cbn [truthy_num];
    [|rewrite andb_false_r; discriminate].
  destruct (ImageInfo.height info) as [h|]; cbn [truthy_num];
    [|rewrite andb_false_r; discriminate].
  intros H. apply andb_true_iff in H as [H Hh].
  apply andb_true_iff in H as [Hu Hw]. rewrite Hu, Hw, Hh. cbn [negb orb].
  eexists. reflexivity.
Qed.

Lemma parse_page_iff (page : RawPage.t) :
  (exists im, parse_page page = Some im) <-> usable page = true.
Proof.
  split; [|apply parse_page_usable].
  intros [im H]. apply parse_page_some in H. tauto.
Qed.

Lemma records_of_usable (l : list RawPage.t) :
  Forall2 (fun page im => parse_page page = Some im)
          (filter usable l) (records_of l).
Proof.
  induction l as [|p l IH]; cbn; [constructor|].
  destruct (parse_page p) as [im|] eqn:Hp.
  - destruct (parse_page_some _ _ Hp) as [-> _]. constructor; assumption.
  - destruct (usable p) eqn:Hu; [|exact IH].
    apply parse_page_usable in Hu as [im Him]. congruence.
Qed.

(** What a call returns, in one equation: an error when the document
    carries one, else the records of the window and the paging fields. *)
Lemma parseWikimediaResponse_result
    (doc : WikimediaApiResponse.t) (params : SearchImagesInput.t) :
  snd (parseWikimediaResponse doc params) =
    match WikimediaApiResponse.error doc with
    | Some e => inl (lit "Wikimedia API error: " ++ WikimediaApiResponse.info e)
    | None =>
        let next := SearchImagesInput.offset params
                    + SearchImagesInput.limit params in
        let more :=
          (negb (Z.of_nat (length (document_pages doc)) =? 0)
           && (next <? Z.of_nat (length (document_pages doc))))%bool in
        inr {| SearchResult.images := records_of (page_window doc params);
               SearchResult.hasMore := more;
               SearchResult.nextOffset :=
                 if more then Some next else None |}
    end.
Proof.
  unfold parseWikimediaResponse, page_window, document_pages.
  destruct (WikimediaApiResponse.error doc); [reflexivity|].
  destruct (WikimediaApiResponse.query doc) as [[[[|p l]|]]|]; cbn [snd];
    try (cbn; rewrite array_slice_nil; reflexivity).
  rewrite parse_pages_records, array_sort_length.
  replace (Z.of_nat (length (p :: l)) =? 0) with false
    by (symmetry; apply Z.eqb_neq; cbn [length]; lia).
  reflexivity.
Qed.

Lemma records_of_in (l : list RawPage.t) (im : ImageMetadata.t) :
  In im (records_of l) -> exists page, In page l /\ parse_page page = Some im.
Proof.
  unfold records_of. rewrite in_flat_map. intros (page & Hin & Him).
  exists page. split; [exact Hin|].
  destruct (parse_page page); [|destruct Him].
  destruct Him as [->|[]]. reflexivity.
Qed.

Lemma records_of_sorted (l : list RawPage.t) :
  StronglySorted by_ordinal l ->
  StronglySorted Z.le (map ImageMetadata.index (records_of l)).
Proof.
  induction 1 as [|p l Hs IH Hall]; cbn; [constructor|].
  destruct (parse_page p) as [im|] eqn:Hp; cbn; [|exact IH].
  constructor; [exact IH|].
  apply Forall_forall. intros i Hi. apply in_map_iff in Hi as (im' & <- & Him').
  apply records_of_in in Him' as (q & Hq & Hpq).
  rewrite Forall_forall in Hall. specialize (Hall q Hq).
  apply parse_page_some in Hp, Hpq.
  destruct Hp as (_ & -> & _), Hpq as (_ & -> & _). exact Hall.
Qed.

Lemma sort_insert_keeps (k : Z) (x : RawPage.t) (l : list RawPage.t) :
  StronglySorted by_ordinal l ->
  filter (fun p => ordinal p =? k) (sort_insert compare_pages x l)
  = filter (fun p => ordinal p =? k) (x :: l).
Proof.
  induction 1 as [|y l Hs IH Hall]; [reflexivity|].
  cbn [sort_insert]. unfold compare_pages at 1.
  destruct (Z.leb_spec (ordinal x - ordinal y) 0) as [Hle|Hgt];
    [reflexivity|].
  cbn [filter] in *. rewrite IH.
  destruct (Z.eqb_spec (ordinal y) k) as [Hy|Hy];
    destruct (Z.eqb_spec (ordinal x) k) as [Hx|Hx]; try reflexivity.
  lia.
Qed.

(** Sorting keeps the pages of one ordinal in the order they had. *)
Lemma array_sort_keeps (k : Z) (l : list RawPage.t) :
  filter (fun p => ordinal p =? k) (array_sort compare_pages l)
  = filter (fun p => ordinal p =? k) l.
Proof.
  induction l as [|x l IH]; [reflexivity|].
  cbn [array_sort fold_right]. fold (array_sort compare_pages l).
  rewrite sort_insert_keeps by apply array_sort_sorted.
  cbn [filter]. rewrite IH. reflexivity.
Qed.

Lemma page_window_incl (doc : WikimediaApiResponse.t)
    (params : SearchImagesInput.t) (page : RawPage.t) :
  In page (page_window doc params) -> In page (document_pages doc).
Proof.
  unfold page_window. intros H. apply array_slice_incl in H.
  eapply Permutation_in; [symmetry; apply array_sort_perm|exact H].
Qed.

(** *** Paging (C1) *)

(** C1.  With [offset >= 0] and [limit >= 1], a call that returns (it
    throws only for a document that carries an error) has [hasMore] true
    exactly when the sorted page list is longer than [offset + limit];
    [nextOffset] is present exactly when [hasMore] is true, and is then
    [offset + limit]. *)
Theorem parseWikimediaResponse_paging
    (doc : WikimediaApiResponse.t) (params : SearchImagesInput.t) :
  0 <= SearchImagesInput.offset params ->
  1 <= SearchImagesInput.limit params ->
  match snd (parseWikimediaResponse doc params) with
  | inl _ => WikimediaApiResponse.error doc <> None
  | inr r =>
      let L := Z.of_nat (length (array_sort compare_pages
                                            (document_pages doc))) in
      let next := SearchImagesInput.offset params
                  + SearchImagesInput.limit params in
      (SearchResult.hasMore r = true <-> L > next)
      /\ (SearchResult.nextOffset r <> None <-> SearchResult.hasMore r = true)
      /\ (SearchResult.hasMore r = true ->
          SearchResult.nextOffset r = Some next)
  end.
Proof.
  intros Ho Hl. rewrite parseWikimediaResponse_result, array_sort_length.
  destruct (WikimediaApiResponse.error doc); [discriminate|].
  cbv zeta. cbn [SearchResult.hasMore SearchResult.nextOffset].
  set (L := Z.of_nat (length (document_pages doc))).
  set (next := SearchImagesInput.offset params
               + SearchImagesInput.limit params).
  destruct (Z.eqb_spec L 0) as [HL|HL]; cbn [negb andb].
  - repeat split; try discriminate; try lia. intros H; contradiction.
  - destruct (Z.ltb_spec next L); repeat split; try discriminate; try lia;
      try reflexivity; try (intros H'; contradiction).
Qed.

(** Three pages, [offset = 0], [limit = 2]: one page lies beyond the
    window. *)
Lemma parseWikimediaResponse_paging_witness :
  match snd (parseWikimediaResponse sample_unordered (sample_params 0 2)) with
  | inl _ => False
  | inr r =>
      SearchResult.hasMore r = true /\ SearchResult.nextOffset r = Some 2
  end.
Proof.
  pose proof (parseWikimediaResponse_paging sample_unordered
                (sample_params 0 2) ltac:(cbn; lia) ltac:(cbn; lia)) as H.
  destruct (snd (parseWikimediaResponse sample_unordered (sample_params 0 2)))
    as [e|r].
  - apply H. reflexivity.
  - cbv zeta in H. destruct H as (Hmore & _ & Hnext).
    assert (Hm : SearchResult.hasMore r = true)
      by (apply Hmore; vm_compute; reflexivity).
    split; [exact Hm|exact (Hnext Hm)].
Defined.

(** *** Dropped and emitted pages (C3) *)

(** C3, as the code has it.  The records returned are those of the usable
    pages of the window, one each and in the window's order; a page is
    parsed into a record exactly when it is usable, so a page that lacks
    the thumbnail URL, the width or the height yields nothing.  An emitted
    record carries the URL, width and height of its page's first
    image-info entry: the URL is not empty, width and height are not
    zero. *)
Theorem parseWikimediaResponse_emits_usable
    (doc : WikimediaApiResponse.t) (params : SearchImagesInput.t) :
  match snd (parseWikimediaResponse doc params) with
  | inl _ => WikimediaApiResponse.error doc <> None
  | inr r =>
      Forall2 (fun page im => parse_page page = Some im /\ taken_from im page)
              (filter usable (page_window doc params))
              (SearchResult.images r)
      /\ (forall page,
            (exists im, parse_page page = Some im) <-> usable page = true)
      /\ Forall (fun im => ImageMetadata.url im <> []
                           /\ ImageMetadata.width im <> 0
                           /\ ImageMetadata.height im <> 0)
                (SearchResult.images r)
  end.
Proof.
  rewrite parseWikimediaResponse_result.
  destruct (WikimediaApiResponse.error doc); [discriminate|].
  cbv zeta. cbn [SearchResult.images]. split; [|split].
  - eapply Forall2_impl; [|apply records_of_usable].
    intros page im H. split; [exact H|]. apply parse_page_some in H. tauto.
  - apply parse_page_iff.
  - apply Forall_forall. intros im Him.
    apply records_of_in in Him as (page & _ & Hp).
    apply parse_page_some in Hp. tauto.
Qed.

(** C3 as stated fails for a width below zero: the guard of the loop tests
    that the width is there and is not zero, so a page with width -5 is
    emitted, and its record carries -5. *)
Lemma parseWikimediaResponse_width_counterexample :
  ~ (forall doc params r,
       snd (parseWikimediaResponse doc params) = inr r ->
       Forall (fun im => 0 < ImageMetadata.width im
                         /\ 0 < ImageMetadata.height im)
              (SearchResult.images r)).
Proof.
  intros Hclaim.
  specialize (Hclaim (sample_doc [sample_page 1 (-5) 3]) (sample_params 0 9)
                     _ eq_refl).
  vm_compute in Hclaim. inversion Hclaim as [|? ? [Hw _] _]; subst.
  discriminate Hw.
Qed.

(** A page without a width is not emitted, the usable page after it is. *)
Example parseWikimediaResponse_drops_incomplete :
  let incomplete :=
    {| RawPage.pageid := None; RawPage.index := Some 1;
       RawPage.title := None;
       RawPage.imageinfo :=
         Some [{| ImageInfo.thumburl := Some (lit "https://upload.example/a");
                  ImageInfo.size := None; ImageInfo.width := None;
                  ImageInfo.height := Some 10; ImageInfo.url := None;
                  ImageInfo.descriptionurl := None;
                  ImageInfo.descriptionshorturl := None;
                  ImageInfo.mime := None;
                  ImageInfo.extmetadata := None |}] |} in
  match snd (parseWikimediaResponse
               (sample_doc [incomplete; sample_page 2 4 3])
               (sample_params 0 9)) with
  | inr r => map ImageMetadata.index (SearchResult.images r) = [2]
  | inl _ => False
  end.
Proof. vm_compute. reflexivity. Qed.

(** *** Order of the records (C4) *)

(** C4.  Whatever the order of the pages in the document, the records
    returned are in ascending order of their [index]; each record was
    parsed from a page of the document, the next usable page of the window
    of the sorted list, and its [index] is the [index] of that page, or 0
    when the page has none -- the ordinal in the whole result set, not the
    position in the page returned. *)
Theorem parseWikimediaResponse_sorted
    (doc : WikimediaApiResponse.t) (params : SearchImagesInput.t) :
  match snd (parseWikimediaResponse doc params) with
  | inl _ => WikimediaApiResponse.error doc <> None
  | inr r =>
      StronglySorted Z.le (map ImageMetadata.index (SearchResult.images r))
      /\ Forall2 (fun page im =>
                    In page (document_pages doc)
                    /\ parse_page page = Some im
                    /\ taken_from im page
                    /\ ImageMetadata.index im
                       = match RawPage.index page with
                         | Some i => i
                         | None => 0
                         end)
                 (filter usable (page_window doc params))
                 (SearchResult.images r)
  end.
Proof.
  rewrite parseWikimediaResponse_result.
  destruct (WikimediaApiResponse.error doc); [discriminate|].
  cbv zeta. cbn [SearchResult.images]. split.
  - apply records_of_sorted. unfold page_window.
    apply array_slice_sorted, array_sort_sorted.
  - pose proof (records_of_usable (page_window doc params)) as H.
    assert (Hin : Forall (fun page => In page (document_pages doc))
                         (filter usable (page_window doc params))).
    { apply Forall_forall. intros page Hp. apply filter_In in Hp as [Hp _].
      eapply page_window_incl, Hp. }
    induction H as [|page im ps ims Hp _ IH]; constructor.
    + inversion Hin; subst. split; [assumption|]. split; [exact Hp|].
      apply parse_page_some in Hp. destruct Hp as (_ & Hi & Ht & _).
      split; [exact Ht|]. rewrite Hi. reflexivity.
    + apply IH. inversion Hin; assumption.
Qed.

(** Pages that arrive with the ordinals 5, none, 3: the records come with
    the indexes 0, 3, 5, the page without ordinal first. *)
Lemma parseWikimediaResponse_sorted_witness :
  match snd (parseWikimediaResponse sample_no_index (sample_params 0 9)) with
  | inl _ => False
  | inr r =>
      map ImageMetadata.index (SearchResult.images r) = [0; 3; 5]
      /\ StronglySorted Z.le (map ImageMetadata.index (SearchResult.images r))
  end.
Proof.
  pose proof (parseWikimediaResponse_sorted sample_no_index
                (sample_params 0 9)) as H.
  destruct (snd (parseWikimediaResponse sample_no_index (sample_params 0 9)))
    as [e|r] eqn:E.
  - vm_compute in E. discriminate E.
  - split; [|exact (proj1 H)].
    vm_compute in E. injection E as <-. vm_compute. reflexivity.
Defined.

(** The pages arrive with ordinals 5, 3, 4; the window at offset 1 of
    length 2 holds the records of ordinals 4 and 5, so the record at
    position 0 of the page has index 4. *)
Example parseWikimediaResponse_index_not_position :
  match snd (parseWikimediaResponse sample_unordered (sample_params 1 2)) with
  | inr r => map ImageMetadata.index (SearchResult.images r) = [4; 5]
  | inl _ => False
  end.
Proof. vm_compute. reflexivity. Qed.

(** *** The document after the call (C9) *)

(** C9 as stated fails: [sort] reorders the [pages] array of the document
    it is given.  Pages with ordinals 2, 1 are in the order 1, 2 after the
    call. *)
Lemma parseWikimediaResponse_mutates_counterexample :
  ~ (forall doc params, fst (parseWikimediaResponse doc params) = doc).
Proof.
  intros Hclaim.
  specialize (Hclaim (sample_doc [sample_page 2 4 3; sample_page 1 4 3])
                     (sample_params 0 9)).
  vm_compute in Hclaim. discriminate Hclaim.
Qed.

(** C9, as the code has it.  The call changes nothing of the document but
    the order of its [pages] array: a document with an error, or without
    pages, is left as it is; otherwise the array is sorted in place, by
    ordinal and stably -- the pages after the call are the pages before,
    each as often, in ascending order of their ordinals, those of one
    ordinal in the order they had -- while the error and the rest of the
    query stay as they are; and a document whose pages were in that order
    already is left as it is. *)
Theorem parseWikimediaResponse_document
    (doc : WikimediaApiResponse.t) (params : SearchImagesInput.t) :
  let doc' := fst (parseWikimediaResponse doc params) in
  WikimediaApiResponse.error doc' = WikimediaApiResponse.error doc
  /\ WikimediaApiResponse.query doc'
     = match WikimediaApiResponse.query doc with
       | Some {| WikimediaApiResponse.pages := Some (_ :: _) |} =>
           Some {| WikimediaApiResponse.pages := Some (document_pages doc') |}
       | unchanged => unchanged
       end
  /\ (WikimediaApiResponse.error doc <> None \/ document_pages doc = [] ->
      doc' = doc)
  /\ (WikimediaApiResponse.error doc = None ->
      document_pages doc' = array_sort compare_pages (document_pages doc))
  /\ Permutation (document_pages doc) (document_pages doc')
  /\ (WikimediaApiResponse.error doc = None ->
      StronglySorted by_ordinal (document_pages doc'))
  /\ (forall k,
        filter (fun page => index_or_zero page =? k) (document_pages doc')
        = filter (fun page => index_or_zero page =? k) (document_pages doc))
  /\ (StronglySorted by_ordinal (document_pages doc) -> doc' = doc).
Proof.
  destruct doc as [q e]. unfold parseWikimediaResponse, document_pages.
  cbn [WikimediaApiResponse.error WikimediaApiResponse.query].
  destruct e as [e|]; cbn [fst].
  { cbn [WikimediaApiResponse.error WikimediaApiResponse.query].
    split; [reflexivity|]. split; [destruct q as [[[[|p l]|]]|]; reflexivity|].
    repeat split; try reflexivity; try discriminate. }
  destruct q as [[[[|p l]|]]|]; cbn [fst];
    try (repeat split; reflexivity || constructor).
  cbn [WikimediaApiResponse.error WikimediaApiResponse.query].
  split; [reflexivity|]. split; [reflexivity|].
  split; [|split; [|split; [|split; [|split]]]].
  - intros [H|H]; [contradiction|discriminate].
  - reflexivity.
  - apply array_sort_perm.
  - intros _. apply array_sort_sorted.
  - intros k. apply (array_sort_keeps k (p :: l)).
  - intros Hs. rewrite (array_sort_sorted_id _ Hs). reflexivity.
Qed.

(** Pages that arrive with the ordinals 5, 3, 4 are in the order 3, 4, 5
    after the call. *)
Lemma parseWikimediaResponse_document_witness :
  let doc' :=
    fst (parseWikimediaResponse sample_unordered (sample_params 0 9)) in
  StronglySorted by_ordinal (document_pages doc')
  /\ map index_or_zero (document_pages doc') = [3; 4; 5]
  /\ map index_or_zero (document_pages sample_unordered) = [5; 3; 4].
Proof.
  cbv zeta. split; [|split; vm_compute; reflexivity].
  apply (parseWikimediaResponse_document sample_unordered (sample_params 0 9)).
  reflexivity.
Defined.

(** Pages in ordinal order already: the document is as it was. *)
Example parseWikimediaResponse_document_kept :
  fst (parseWikimediaResponse
         (sample_doc [sample_page 1 4 3; sample_page 2 4 3])
         (sample_params 0 9))
  = sample_doc [sample_page 1 4 3; sample_page 2 4 3].
Proof. vm_compute. reflexivity. Qed.

(** ** The width segment of a thumbnail URL *)

Lemma skip_digits_prefix (s : jsstring) :
  exists digits, forallb is_digit digits = true /\ s = digits ++ skip_digits s.
Proof.
  induction s as [|c s (digits & Hd & Hs)]; cbn.
  - exists []. split; reflexivity.
  - destruct (is_digit c) eqn:Hc.
    + exists (c :: digits). cbn. rewrite Hc, Hd. split; [reflexivity|].
      f_equal. exact Hs.
    + exists []. split; reflexivity.
Qed.

Lemma skip_digits_app (digits rest : jsstring) :
  forallb is_digit digits = true ->
  skip_digits (digits ++ lit "px-" ++ rest) = lit "px-" ++ rest.
Proof.
  induction digits as [|d digits IH]; cbn; intros H; [reflexivity|].
  apply andb_true_iff in H as [Hd H]. rewrite Hd. apply IH, H.
Qed.

Lemma match_width_segment_some (s rest : jsstring) :
  match_width_segment s = Some rest ->
  exists digits,
    digits <> [] /\ forallb is_digit digits = true
    /\ s = width_segment digits ++ rest.
Proof.
  unfold match_width_segment. destruct s as [|c [|d r]]; try discriminate.
  destruct (N.eqb_spec c slash) as [->|]; cbn [andb]; [|discriminate].
  destruct (is_digit d) eqn:Hd; [|discriminate].
  destruct (skip_digits_prefix (d :: r)) as (digits & Hdigits & Hsplit).
  destruct (skip_digits (d :: r)) as [|p [|x [|m rest']]]; try discriminate.
  destruct (N.eqb_spec p 112) as [->|]; cbn [andb]; [|discriminate].
  destruct (N.eqb_spec x 120) as [->|]; cbn [andb]; [|discriminate].
  destruct (N.eqb_spec m 45) as [->|]; [|discriminate].
  intros [= ->]. exists digits. split; [|split; [exact Hdigits|]].
  - intros ->. cbn in Hsplit. injection Hsplit as -> _. discriminate Hd.
  - unfold width_segment. rewrite Hsplit. cbn. rewrite <- app_assoc.
    reflexivity.
Qed.

Lemma match_width_segment_complete (digits rest : jsstring) :
  digits <> [] -> forallb is_digit digits = true ->
  match_width_segment (width_segment digits ++ rest) = Some rest.
Proof.
  intros Hne Hd. destruct digits as [|d digits]; [contradiction|].
  unfold width_segment, match_width_segment.
  cbn [app]. rewrite N.eqb_refl. cbn [andb].
  pose proof Hd as Hd'. cbn in Hd'. apply andb_true_iff in Hd' as [Hd0 _].
  rewrite Hd0.
  change (d :: (digits ++ lit "px-") ++ rest)
    with (((d :: digits) ++ lit "px-") ++ rest).
  rewrite <- app_assoc, skip_digits_app by exact Hd. reflexivity.
Qed.

Lemma replace_no_match (url replacement : jsstring) :
  (forall before s, url = before ++ s -> match_width_segment s = None) ->
  replace_width_segment url replacement = url.
Proof.
  induction url as [|c url IH]; intros Hnone; cbn [replace_width_segment];
    [reflexivity|].
  rewrite (Hnone [] (c :: url) eq_refl). f_equal. apply IH.
  intros before s ->. apply (Hnone (c :: before) s). reflexivity.
Qed.

Lemma replace_leftmost_match (before s rest replacement : jsstring) :
  match_width_segment s = Some rest ->
  (forall b1 b2, before = b1 ++ b2 -> b2 <> [] ->
                 match_width_segment (b2 ++ s) = None) ->
  replace_width_segment (before ++ s) replacement
  = before ++ replacement ++ rest.
Proof.
  intros Hmatch. induction before as [|c before IH]; intros Hnone.
  - cbn [app]. destruct s as [|c s]; [discriminate Hmatch|].
    cbn [replace_width_segment]. rewrite Hmatch. reflexivity.
  - cbn [app replace_width_segment].
    pose proof (Hnone [] (c :: before) eq_refl ltac:(discriminate)) as H0.
    cbn [app] in H0. rewrite H0.
    f_equal. apply IH. intros b1 b2 -> Hb2.
    apply (Hnone (c :: b1) b2); [reflexivity|exact Hb2].
Qed.

(** What [replaceUrlWidth] writes for a width is its text. *)
Lemma number_image_text (newWidth : number) :
  number_image newWidth = width_text newWidth.
Proof.
  destruct newWidth as [z|]; [|reflexivity]. cbn [number_image width_text].
  destruct (Z.ltb_spec z 0).
  - apply number_to_string_negative. assumption.
  - apply number_to_string_decimal. assumption.
Qed.

(** C10.  A URL without a width segment comes back as it is, so the
    request for a record with such a URL goes to the stored URL; in a URL
    with a width segment, the leftmost one has its digits replaced by the
    text of the computed width -- its decimal digits, for a width that
    is not negative and below [2^53] -- and what stands before and after
    it (further segments too) is kept. *)
Theorem replaceUrlWidth_first_segment (url : jsstring) (newWidth : number) :
  (~ has_width_segment url -> replaceUrlWidth url newWidth = url)
  /\ (forall img, ImageMetadata.url img = url -> ~ has_width_segment url ->
                  fetch_url img = url)
  /\ (forall before digits after,
        printable newWidth ->
        occurs_at url before digits after -> leftmost url before ->
        replaceUrlWidth url newWidth
        = before ++ lit "/" ++ width_text newWidth ++ lit "px-" ++ after).
Proof.
  assert (Hsame : forall w, ~ has_width_segment url ->
                            replaceUrlWidth url w = url).
  { intros w Hnone. apply replace_no_match. intros before s ->.
    destruct (match_width_segment s) as [rest|] eqn:Hm; [|reflexivity].
    exfalso. apply Hnone.
    apply match_width_segment_some in Hm as (digits & Hne & Hd & ->).
    exists before, digits, rest. repeat split; assumption. }
  split; [apply Hsame|]. split.
  - intros img Hurl Hnone. unfold fetch_url. rewrite Hurl. apply Hsame, Hnone.
  - unfold replaceUrlWidth.
    intros before digits after _ (Hne & Hd & ->) Hleft.
    rewrite number_image_text.
    rewrite (replace_leftmost_match before _ after).
    + rewrite <- !app_assoc. reflexivity.
    + apply match_width_segment_complete; assumption.
    + intros b1 b2 -> Hb2.
      destruct (match_width_segment _) as [rest|] eqn:Hm; [|reflexivity].
      exfalso.
      apply match_width_segment_some in Hm as (digits' & Hne' & Hd' & Heq).
      specialize (Hleft b1 digits' rest).
      assert (Hlen : (length (b1 ++ b2) <= length b1)%nat).
      { apply Hleft. repeat split; try assumption.
        rewrite <- app_assoc, Heq. reflexivity. }
      rewrite length_app in Hlen. destruct b2; [contradiction|].
      cbn in Hlen. lia.
Qed.

Lemma no_match_before_sound (before s : jsstring) :
  forall n, match_width_segment s <> None -> (length before < n)%nat ->
  no_match_before n (before ++ s) = false.
Proof.
  induction before as [|c before IH]; intros n Hm Hn;
    (destruct n as [|n]; [lia|]).
  - cbn [app]. destruct s as [|c s]; [contradiction Hm; reflexivity|].
    cbn [no_match_before]. destruct (match_width_segment (c :: s));
      [reflexivity|contradiction Hm; reflexivity].
  - cbn [app no_match_before].
    destruct (match_width_segment (c :: before ++ s)); [reflexivity|].
    apply IH; [exact Hm|cbn in Hn; lia].
Qed.

Lemma occurs_at_matches (url before digits after : jsstring) :
  occurs_at url before digits after ->
  url = before ++ (width_segment digits ++ after)
  /\ match_width_segment (width_segment digits ++ after) <> None.
Proof.
  intros (Hne & Hd & ->). split; [reflexivity|].
  rewrite match_width_segment_complete by assumption. discriminate.
Qed.

Lemma leftmost_check (url before : jsstring) :
  no_match_before (length before) url = true -> leftmost url before.
Proof.
  intros Hcheck before' digits' after' Hocc.
  apply occurs_at_matches in Hocc as [-> Hm].
  destruct (Nat.le_gt_cases (length before) (length before')) as [|Hlt];
    [assumption|].
  rewrite (no_match_before_sound _ _ _ Hm Hlt) in Hcheck. discriminate.
Qed.

Lemma no_segment_check (url : jsstring) :
  no_match_before (S (length url)) url = true -> ~ has_width_segment url.
Proof.
  intros Hcheck (before & digits & after & Hocc).
  apply occurs_at_matches in Hocc as [-> Hm].
  rewrite (no_match_before_sound _ _ _ Hm) in Hcheck; [discriminate|].
  rewrite length_app. lia.
Qed.

(** A URL with two width segments: the first is rewritten, the second is
    kept. *)
Lemma replaceUrlWidth_first_segment_witness :
  replaceUrlWidth
    (lit "https://upload.example/thumb/Cat.jpg/256px-Cat/64px-x.jpg")
    (Finite 171)
  = lit "https://upload.example/thumb/Cat.jpg/171px-Cat/64px-x.jpg".
Proof.
  set (url :=
         lit "https://upload.example/thumb/Cat.jpg/256px-Cat/64px-x.jpg").
  rewrite (proj2 (proj2 (replaceUrlWidth_first_segment url (Finite 171)))
                 (lit "https://upload.example/thumb/Cat.jpg")
                 (lit "256") (lit "Cat/64px-x.jpg")).
  - vm_compute. reflexivity.
  - unfold printable, safe_integer. lia.
  - split; [discriminate|]. split; reflexivity.
  - apply leftmost_check. vm_compute. reflexivity.
Defined.

Example replaceUrlWidth_rewrites :
  replaceUrlWidth
    (lit "https://upload.example/thumb/Cat.jpg/256px-Cat/64px-x.jpg")
    (Finite 171)
  = lit "https://upload.example/thumb/Cat.jpg/171px-Cat/64px-x.jpg".
Proof. vm_compute. reflexivity. Qed.

Example replaceUrlWidth_no_segment :
  ~ has_width_segment (lit "https://upload.example/Cat.jpg")
  /\ replaceUrlWidth (lit "https://upload.example/Cat.jpg") (Finite 171)
     = lit "https://upload.example/Cat.jpg".
Proof.
  split; [apply no_segment_check|]; vm_compute; reflexivity.
Qed.

(** ** The compositor *)

Lemma array_slice_cap {A} (l : list A) :
  array_slice l 0 MAX_IMAGES_IN_COMPOSITE
  = firstn (Z.to_nat MAX_IMAGES_IN_COMPOSITE) l.
Proof.
  unfold array_slice, MAX_IMAGES_IN_COMPOSITE. cbn [Z.ltb Z.compare].
  rewrite (Z.min_l 0) by lia. cbn [Z.to_nat skipn]. rewrite Z.sub_0_r.
  destruct (Z.le_gt_cases 15 (Z.of_nat (length l))) as [Hle|Hgt].
  - rewrite (Z.min_l 15) by lia. reflexivity.
  - rewrite (Z.min_r 15) by lia. rewrite Nat2Z.id.
    rewrite firstn_all, firstn_all2 by lia. reflexivity.
Qed.

Lemma base64_nonempty (b : Buffer) : b <> [] -> base64 b <> [].
Proof.
  destruct b as [|x [|y [|z r]]]; intros H; [contradiction| | |]; discriminate.
Qed.

Lemma base64_digit_unit (n : N) :
  (n < 64)%N -> base64_unit (base64_digit n) = true.
Proof.
  intros Hn. destruct n as [|p]; [reflexivity|].
  do 6 (destruct p as [p|p|]; try reflexivity); exfalso; lia.
Qed.

Lemma list_ind3 {A} (P : list A -> Prop) :
  P [] -> (forall x, P [x]) -> (forall x y, P [x; y]) ->
  (forall x y z r, P r -> P (x :: y :: z :: r)) ->
  forall l, P l.
Proof.
  intros H0 H1 H2 H3.
  assert (Hall : forall l, P l /\ (forall x, P (x :: l))
                           /\ (forall x y, P (x :: y :: l))).
  { induction l as [|c l (IH0 & IH1 & IH2)]; [auto|].
    split; [apply IH1|]. split; [intros x; apply IH2|].
    intros x y. apply H3, IH0. }
  intros l. apply Hall.
Qed.

Lemma base64_shape (b : Buffer) :
  Forall is_byte b ->
  Z.of_nat (length (base64 b)) = 4 * ((Z.of_nat (length b) + 2) / 3)
  /\ Forall (fun c => base64_unit c = true) (base64 b).
Proof.
  unfold is_byte.
  induction b as [|x|x y|x y z r IH] using list_ind3; intros Hb.
  - split; [reflexivity|constructor].
  - inversion Hb as [|? ? Hx _]; subst. split; [reflexivity|].
    cbn [base64]. repeat constructor; apply base64_digit_unit.
    + apply N.Div0.div_lt_upper_bound; lia.
    + pose proof (N.mod_upper_bound x 4 ltac:(lia)). lia.
  - inversion Hb as [|? ? Hx Hb']; subst.
    inversion Hb' as [|? ? Hy _]; subst. split; [reflexivity|].
    cbn [base64].
    pose proof (N.mod_upper_bound x 4 ltac:(lia)).
    pose proof (N.mod_upper_bound y 16 ltac:(lia)).
    assert (y / 16 < 16)%N by (apply N.Div0.div_lt_upper_bound; lia).
    repeat constructor; apply base64_digit_unit;
      [apply N.Div0.div_lt_upper_bound; lia|lia|lia].
  - inversion Hb as [|? ? Hx Hb']; subst.
    inversion Hb' as [|? ? Hy Hb'']; subst.
    inversion Hb'' as [|? ? Hz Hr]; subst.
    destruct (IH Hr) as [IHlen IHunits]. cbn [base64]. split.
    + cbn [length]. rewrite !Nat2Z.inj_succ, IHlen.
      replace (Z.succ (Z.succ (Z.succ (Z.of_nat (length r)))) + 2)
        with (Z.of_nat (length r) + 2 + 1 * 3) by lia.
      rewrite Z.div_add by lia. lia.
    + pose proof (N.mod_upper_bound x 4 ltac:(lia)).
      pose proof (N.mod_upper_bound y 16 ltac:(lia)).
      pose proof (N.mod_upper_bound z 64 ltac:(lia)).
      assert (y / 16 < 16)%N by (apply N.Div0.div_lt_upper_bound; lia).
      assert (z / 64 < 4)%N by (apply N.Div0.div_lt_upper_bound; lia).
      repeat (constructor; [apply base64_digit_unit; try lia|]);
        [apply N.Div0.div_lt_upper_bound; lia|exact IHunits].
Qed.

Lemma base64_value_digit (n : N) :
  (n < 64)%N -> base64_value (base64_digit n) = Some n.
Proof.
  intros Hn. destruct n as [|p]; [reflexivity|].
  do 6 (destruct p as [p|p|]; try reflexivity); exfalso; lia.
Qed.

Lemma base64_value_pad : base64_value pad = None.
Proof. reflexivity. Qed.

(** The four digits of three bytes, and the bytes back from them. *)
Lemma sextets (x y z : N) :
  (x < 256 -> y < 256 -> z < 256 ->
   x / 4 < 64 /\ x mod 4 * 16 + y / 16 < 64 /\ y mod 16 * 4 + z / 64 < 64
   /\ z mod 64 < 64 /\ x mod 4 * 16 < 64 /\ y mod 16 * 4 < 64
   /\ x / 4 * 4 + (x mod 4 * 16 + y / 16) / 16 = x
   /\ (x mod 4 * 16 + y / 16) mod 16 * 16 + (y mod 16 * 4 + z / 64) / 4 = y
   /\ (y mod 16 * 4 + z / 64) mod 4 * 64 + z mod 64 = z
   /\ x / 4 * 4 + (x mod 4 * 16) / 16 = x
   /\ (x mod 4 * 16 + y / 16) mod 16 * 16 + (y mod 16 * 4) / 4 = y)%N.
Proof.
  intros Hx Hy Hz.
  pose proof (N.div_mod x 4 ltac:(lia)) as Ex.
  pose proof (N.mod_upper_bound x 4 ltac:(lia)) as Bx.
  pose proof (N.div_mod y 16 ltac:(lia)) as Ey.
  pose proof (N.mod_upper_bound y 16 ltac:(lia)) as By.
  pose proof (N.div_mod z 64 ltac:(lia)) as Ez.
  pose proof (N.mod_upper_bound z 64 ltac:(lia)) as Bz.
  revert Ex Bx Ey By Ez Bz.
  generalize (x / 4)%N (x mod 4)%N (y / 16)%N (y mod 16)%N (z / 64)%N
             (z mod 64)%N.
  intros xq xr yq yr zq zr Ex Bx Ey By Ez Bz.
  assert (Hyq : (yq < 16)%N) by lia.
  assert (Hzq : (zq < 4)%N) by lia.
  assert (D1 : ((xr * 16 + yq) / 16 = xr)%N)
    by (symmetry; apply (N.div_unique _ 16 xr yq); lia).
  assert (M1 : ((xr * 16 + yq) mod 16 = yq)%N)
    by (symmetry; apply (N.mod_unique _ 16 xr yq); lia).
  assert (D2 : ((yr * 4 + zq) / 4 = yr)%N)
    by (symmetry; apply (N.div_unique _ 4 yr zq); lia).
  assert (M2 : ((yr * 4 + zq) mod 4 = zq)%N)
    by (symmetry; apply (N.mod_unique _ 4 yr zq); lia).
  assert (D3 : ((xr * 16) / 16 = xr)%N) by (apply N.div_mul; lia).
  assert (D4 : ((yr * 4) / 4 = yr)%N) by (apply N.div_mul; lia).
  rewrite D1, M1, D2, M2, D3, D4. lia.
Qed.

(** Decoding what [base64] writes gives the bytes back. *)
Lemma base64_decode_encode (b : Buffer) :
  Forall is_byte b -> base64_decode (base64 b) = Some b.
Proof.
  unfold is_byte.
  induction b as [|x|x y|x y z r IH] using list_ind3; intros Hb.
  - reflexivity.
  - inversion Hb as [|? ? Hx _]; subst.
    destruct (sextets x 0 0 Hx ltac:(lia) ltac:(lia))
      as (S1 & _ & _ & _ & S5 & _ & _ & _ & _ & R1 & _).
    cbn [base64 base64_decode].
    rewrite !base64_value_digit, base64_value_pad by assumption.
    cbv zeta. change (pad =? 61)%N with true. cbn [andb]. rewrite R1.
    reflexivity.
  - inversion Hb as [|? ? Hx Hb']; subst.
    inversion Hb' as [|? ? Hy _]; subst.
    destruct (sextets x y 0 Hx Hy ltac:(lia))
      as (S1 & S2 & _ & _ & _ & S6 & R1 & _ & _ & _ & R2).
    cbn [base64 base64_decode].
    rewrite !base64_value_digit, base64_value_pad by assumption.
    cbv zeta. change (pad =? 61)%N with true. rewrite R1, R2. reflexivity.
  - inversion Hb as [|? ? Hx Hb']; subst.
    inversion Hb' as [|? ? Hy Hb'']; subst.
    inversion Hb'' as [|? ? Hz Hr]; subst.
    destruct (sextets x y z Hx Hy Hz)
      as (S1 & S2 & S3 & S4 & _ & _ & R1 & R2 & R3 & _).
    cbn [base64 base64_decode].
    rewrite !base64_value_digit by assumption.
    cbv zeta. rewrite (IH Hr), R1, R2, R3. reflexivity.
Qed.

Example base64_decode_sample :
  base64_decode (lit "TWFu") = Some [77; 97; 110]%N
  /\ base64_decode (lit "TWE=") = Some [77; 97]%N
  /\ base64_decode (lit "TQ==") = Some [77]%N
  /\ base64_decode (lit "/9j/2Q==") = Some [255; 216; 255; 217]%N
  /\ base64_decode (lit "TQ=") = None.
Proof. vm_compute. repeat split. Qed.

(** Text of units below 128 is its own UTF-8. *)
Lemma Buffer_from_ascii (t : jsstring) :
  Forall (fun c => (c < 128)%N) t -> Buffer_from t = t.
Proof.
  induction 1 as [|c t Hc _ IH]; [reflexivity|].
  unfold Buffer_from in *. cbn [flat_map]. rewrite IH. unfold utf8_unit.
  apply N.ltb_lt in Hc. rewrite Hc. reflexivity.
Qed.

(** The template of the label around the text it is given. *)
Lemma overlay_svg_text (label : jsstring) :
  overlay_svg label
  = firstn 44 (overlay_svg []) ++ lit "<text "
    ++ firstn 275 (skipn 50 (overlay_svg [])) ++ [62; 10]%N
    ++ repeat 32%N 10 ++ label
    ++ [10]%N ++ repeat 32%N 8 ++ lit "</text>" ++ skipn 353 (overlay_svg []).
Proof. vm_compute. reflexivity. Qed.

(** The label of the item at position [k - 1] shows [k]. *)
Lemma overlay_label_shows (k : Z) :
  0 <= k -> label_shows (Buffer_from (overlay_svg (number_to_string k))) k.
Proof.
  intros Hk. rewrite number_to_string_decimal by exact Hk.
  rewrite Buffer_from_ascii.
  - exists (firstn 44 (overlay_svg [])),
      (firstn 275 (skipn 50 (overlay_svg []))), (skipn 353 (overlay_svg [])).
    split; [vm_compute; reflexivity|apply overlay_svg_text].
  - rewrite overlay_svg_text.
    assert (Hfixed : forall t, forallb (fun c => (c <? 128)%N) t = true ->
                               Forall (fun c => (c < 128)%N) t).
    { intros t Ht. apply Forall_forall. intros c Hc.
      rewrite forallb_forall in Ht. apply N.ltb_lt, Ht, Hc. }
    repeat (apply Forall_app; split);
      try (apply Hfixed; vm_compute; reflexivity).
    eapply Forall_impl; [|apply decimal_units]. cbv beta. intros c Hc. lia.
Qed.

Lemma filter_non_null_in {A} (l : list (option A)) (a : A) :
  In a (filter_non_null l) <-> In (Some a) l.
Proof.
  induction l as [|[b|] l IH]; cbn; [tauto| |].
  - rewrite IH. split; intros [H|H]; auto; left; congruence.
  - rewrite IH. split; [auto|]. intros [H|H]; [discriminate|assumption].
Qed.

Lemma map_from_in {A B} (f : A -> Z -> B) (l : list A) (k : Z) (b : B) :
  In b (map_from f l k)
  <-> exists n a, nth_error l n = Some a /\ b = f a (k + Z.of_nat n).
Proof.
  revert k. induction l as [|x l IH]; intros k; cbn [map_from In].
  - split; [contradiction|]. intros ([|n] & a & H & _); discriminate H.
  - rewrite IH. split.
    + intros [<-|(n & a & Hn & ->)].
      * exists O, x. split; [reflexivity|]. f_equal. lia.
      * exists (S n), a. split; [exact Hn|]. f_equal. lia.
    + intros ([|n] & a & Hn & ->); cbn in Hn.
      * left. injection Hn as ->. f_equal. lia.
      * right. exists n, a. split; [exact Hn|]. f_equal. lia.
Qed.

Lemma map_from_length {A B} (f : A -> Z -> B) (l : list A) (k : Z) :
  length (map_from f l k) = length l.
Proof.
  revert k. induction l as [|x l IH]; intros k; cbn; [reflexivity|].
  rewrite IH. reflexivity.
Qed.

Lemma cell_top_formula (i : Z) :
  cell_top i = i / 3 * 256 + (i / 3 + 1) * 10.
Proof. reflexivity. Qed.

Lemma cell_left_formula (i : Z) :
  0 <= i -> cell_left i = i mod 3 * 256 + (i mod 3 + 1) * 10.
Proof.
  intros Hi. unfold cell_left, COLUMNS, THUMBNAIL_SIZE, SPACING.
  rewrite Z.rem_mod_nonneg by lia. reflexivity.
Qed.

Lemma cell_injective (i j : Z) :
  0 <= i -> 0 <= j ->
  cell_top i = cell_top j -> cell_left i = cell_left j -> i = j.
Proof.
  intros Hi Hj. rewrite !cell_top_formula, !cell_left_formula by assumption.
  intros Ht Hl.
  pose proof (Z.div_mod i 3 ltac:(lia)). pose proof (Z.div_mod j 3 ltac:(lia)).
  lia.
Qed.

Lemma cell_not_overlay (i j : Z) : cell_top i <> cell_top j + 5.
Proof. rewrite !cell_top_formula. lia. Qed.

Section CompositeProperties.

Variable fetch : Z -> jsstring -> FetchOutcome.
Variable sharp_resize : Buffer -> option Buffer.
Variable sharp_jpeg : CompositeRequest -> Buffer.

Lemma process_image_thumbnail (img : ImageMetadata.t) (index : Z) :
  process_image fetch sharp_resize img index
  = match thumbnail_of fetch sharp_resize img index with
    | Some b => Some (b, index)
    | None => None
    end.
Proof.
  unfold process_image, fetch_and_resize, thumbnail_of.
  destruct (fetch index (fetch_url img)) as [|[|] status [body|]];
    cbn [negb]; try reflexivity.
  destruct (sharp_resize body); reflexivity.
Qed.

Lemma successes_in (images : list ImageMetadata.t) (b : Buffer) (i : Z) :
  In (b, i) (successes fetch sharp_resize images)
  <-> exists n img,
        i = Z.of_nat n
        /\ nth_error (retained images) n = Some img
        /\ thumbnail_of fetch sharp_resize img i = Some b.
Proof.
  unfold successes, map_indexed. rewrite filter_non_null_in, map_from_in.
  split.
  - intros (n & img & Hn & Hp). rewrite process_image_thumbnail in Hp.
    cbn [Z.add] in Hp.
    destruct (thumbnail_of fetch sharp_resize img (Z.of_nat n)) as [b'|] eqn:Ht;
      [|discriminate].
    injection Hp as -> ->. exists n, img. auto.
  - intros (n & img & -> & Hn & Ht). exists n, img. split; [exact Hn|].
    rewrite process_image_thumbnail. cbn [Z.add]. rewrite Ht. reflexivity.
Qed.

Lemma successes_nil (images : list ImageMetadata.t) :
  successes fetch sharp_resize images = []
  <-> forall n img, nth_error (retained images) n = Some img ->
                    thumbnail_of fetch sharp_resize img (Z.of_nat n) = None.
Proof.
  split.
  - intros Hnil n img Hn.
    destruct (thumbnail_of fetch sharp_resize img (Z.of_nat n)) as [b|] eqn:Ht;
      [|reflexivity].
    assert (Hin : In (b, Z.of_nat n) (successes fetch sharp_resize images))
      by (apply successes_in; exists n, img; auto).
    rewrite Hnil in Hin. destruct Hin.
  - intros Hall.
    destruct (successes fetch sharp_resize images) as [|[b i] l] eqn:Hs;
      [reflexivity|exfalso].
    assert (Hin : In (b, i) (successes fetch sharp_resize images))
      by (rewrite Hs; left; reflexivity).
    apply successes_in in Hin as (n & img & -> & Hn & Ht).
    rewrite (Hall n img Hn) in Ht. discriminate.
Qed.

(** A call in one equation. *)
Lemma generateThumbnailComposite_run (images : list ImageMetadata.t) :
  generateThumbnailComposite fetch sharp_resize sharp_jpeg images
  = match successes fetch sharp_resize images with
    | [] => {| returned := [];
               fetched := map fetch_url (retained images);
               composed := None |}
    | _ :: _ =>
        {| returned :=
             base64 (sharp_jpeg (canvas_request fetch sharp_resize images));
           fetched := map fetch_url (retained images);
           composed := Some (canvas_request fetch sharp_resize images) |}
    end.
Proof.
  unfold generateThumbnailComposite, canvas_request, successes.
  rewrite array_slice_cap. fold (retained images).
  destruct (retained images) as [|img l] eqn:Hr; [reflexivity|].
  replace (Z.of_nat (length (img :: l)) =? 0) with false
    by (symmetry; apply Z.eqb_neq; cbn [length]; lia).
  destruct (filter_non_null _) as [|v vs]; reflexivity.
Qed.

End CompositeProperties.

Section CompositeClaims.

Variable fetch : Z -> jsstring -> FetchOutcome.
Variable sharp_resize : Buffer -> option Buffer.
Variable sharp_jpeg : CompositeRequest -> Buffer.

Local Abbreviation run :=
  (generateThumbnailComposite fetch sharp_resize sharp_jpeg).
Local Abbreviation thumb := (thumbnail_of fetch sharp_resize).

(** *** Failures and the empty result (C5) *)

(** C5.  Provided the JPEG stream [sharp] encodes is made of bytes and is
    never empty: a call on the empty list returns the empty string without
    a request; a call whose retained items all fail returns the empty
    string; an item fails, and only it, when its request is rejected, its
    response is not ok, its body does not arrive or [sharp] cannot resize
    it -- whatever is thrown in its task is caught; and when one item at
    least succeeds the call returns the base64 text of the encoded canvas:
    not empty, four units for every three bytes begun, each a letter, a
    digit, [+], [/] or the padding [=], and decoding it gives the bytes
    of the stream back. *)
Theorem generateThumbnailComposite_failures
    (jpeg_nonempty : forall req, sharp_jpeg req <> [])
    (jpeg_bytes : forall req, Forall is_byte (sharp_jpeg req))
    (images : list ImageMetadata.t) :
  (images = [] ->
   run images = {| returned := []; fetched := []; composed := None |})
  /\ ((forall n img, nth_error (retained images) n = Some img ->
                     thumb img (Z.of_nat n) = None) ->
      returned (run images) = [])
  /\ (forall img index,
        process_image fetch sharp_resize img index
        = match fetch index (fetch_url img) with
          | Response true _ (Some body) =>
              match sharp_resize body with
              | Some resized => Some (resized, index)
              | None => None
              end
          | _ => None
          end)
  /\ (forall img index,
        fetch_and_resize fetch sharp_resize img index = Thrown ->
        process_image fetch sharp_resize img index = None)
  /\ ((exists n img, nth_error (retained images) n = Some img
                     /\ thumb img (Z.of_nat n) <> None) ->
      let text := returned (run images) in
      text = base64 (sharp_jpeg (canvas_request fetch sharp_resize images))
      /\ text <> []
      /\ Z.of_nat (length text)
         = 4 * ((Z.of_nat
                   (length (sharp_jpeg
                              (canvas_request fetch sharp_resize images)))
                 + 2) / 3)
      /\ Forall (fun c => base64_unit c = true) text
      /\ base64_decode text
         = Some (sharp_jpeg (canvas_request fetch sharp_resize images))).
Proof.
  split; [|split; [|split; [|split]]].
  - intros ->. reflexivity.
  - intros Hall. rewrite generateThumbnailComposite_run.
    apply successes_nil in Hall. rewrite Hall. reflexivity.
  - intros img index. unfold process_image, fetch_and_resize.
    destruct (fetch index (fetch_url img)) as [|[|] status [body|]];
      cbn [negb]; try reflexivity.
    destruct (sharp_resize body); reflexivity.
  - intros img index H. unfold process_image. rewrite H. reflexivity.
  - intros (n & img & Hn & Hsome). cbv zeta.
    rewrite generateThumbnailComposite_run.
    destruct (successes fetch sharp_resize images) eqn:Hs.
    + exfalso. apply Hsome.
      exact (proj1 (successes_nil fetch sharp_resize images) Hs n img Hn).
    + cbn [returned]. split; [reflexivity|].
      split; [apply base64_nonempty, jpeg_nonempty|].
      destruct (base64_shape _ (jpeg_bytes (canvas_request fetch sharp_resize
                                              images))) as [Hlen Hunits].
      split; [exact Hlen|]. split; [exact Hunits|].
      apply base64_decode_encode, jpeg_bytes.
Qed.

(** *** The cap on the items (C6) *)

(** C6.  The requests of a call are those of the first 15 records, one
    each and in their order, so there are [min 15 (length images)] of
    them; the whole call is the call on the first 15 records. *)
Theorem generateThumbnailComposite_cap (images : list ImageMetadata.t) :
  fetched (run images)
  = map fetch_url (firstn (Z.to_nat MAX_IMAGES_IN_COMPOSITE) images)
  /\ length (fetched (run images)) = Nat.min 15 (length images)
  /\ run images = run (firstn (Z.to_nat MAX_IMAGES_IN_COMPOSITE) images).
Proof.
  assert (Hf : fetched (generateThumbnailComposite fetch sharp_resize
                          sharp_jpeg images)
               = map fetch_url (retained images)).
  { rewrite generateThumbnailComposite_run.
    destruct (successes fetch sharp_resize images); reflexivity. }
  split; [exact Hf|]. split.
  - rewrite Hf, length_map. unfold retained. apply length_firstn.
  - rewrite !generateThumbnailComposite_run.
    unfold canvas_request, successes, retained.
    rewrite firstn_firstn, Nat.min_id. reflexivity.
Qed.

(** *** The cells of the grid (C7) *)

(** C7.  When nothing is composed, every retained item failed.
    Otherwise the layers are the thumbnails of the successes followed by
    their labels, and for the retained item at position [i]: if it
    succeeded, its thumbnail lies at [top = row * 256 + (row + 1) * 10],
    [left = col * 256 + (col + 1) * 10] with [row = i / 3] and
    [col = i mod 3], and its label lies 5 pixels further right and down
    and shows the numeral of [i + 1] as the text of its [<text>] element;
    if it failed, no layer lies at its cell, neither thumbnail nor
    label. *)
Theorem generateThumbnailComposite_layout (images : list ImageMetadata.t) :
  match composed (run images) with
  | None =>
      forall n img, nth_error (retained images) n = Some img ->
                    thumb img (Z.of_nat n) = None
  | Some req =>
      layers req
      = map thumbnail_layer (successes fetch sharp_resize images)
        ++ map overlay_layer (successes fetch sharp_resize images)
      /\ forall n img,
           nth_error (retained images) n = Some img ->
           let i := Z.of_nat n in
           let row := i / 3 in
           let col := i mod 3 in
           let cellTop := row * 256 + (row + 1) * 10 in
           let cellLeft := col * 256 + (col + 1) * 10 in
           match thumb img i with
           | Some b =>
               In {| input := b; top := cellTop; left := cellLeft |}
                  (layers req)
               /\ In {| input :=
                          Buffer_from
                            (overlay_svg (number_to_string (i + 1)));
                        top := cellTop + 5;
                        left := cellLeft + 5 |}
                     (layers req)
               /\ label_shows
                    (Buffer_from (overlay_svg (number_to_string (i + 1))))
                    (i + 1)
           | None =>
               forall layer, In layer (layers req) ->
                 ~ (top layer = cellTop /\ left layer = cellLeft)
                 /\ ~ (top layer = cellTop + 5 /\ left layer = cellLeft + 5)
           end
  end.
Proof.
  pose proof (successes_in fetch sharp_resize images) as Hin.
  pose proof (successes_nil fetch sharp_resize images) as Hnil.
  rewrite generateThumbnailComposite_run. unfold canvas_request.
  destruct (successes fetch sharp_resize images) as [|v vs].
  { cbn [composed]. apply Hnil. reflexivity. }
  cbn [composed layers]. clear Hnil. set (succ := v :: vs) in *.
  split; [reflexivity|]. cbv zeta. intros n img Hn.
  set (i := Z.of_nat n).
  set (cellTop := i / 3 * 256 + (i / 3 + 1) * 10).
  set (cellLeft := i mod 3 * 256 + (i mod 3 + 1) * 10).
  assert (Htop : cell_top i = cellTop) by reflexivity.
  assert (Hleft : cell_left i = cellLeft)
    by (unfold cell_left; rewrite Z.rem_mod_nonneg by (unfold COLUMNS; lia);
        reflexivity).
  destruct (thumbnail_of fetch sharp_resize img i) as [b|] eqn:Ht.
  - assert (Hb : In (b, i) succ) by (apply Hin; exists n, img; auto).
    split; [|split; [|apply overlay_label_shows; lia]];
      apply in_or_app; [left|right]; apply in_map_iff;
      exists (b, i); (split; [|exact Hb]).
    + unfold thumbnail_layer. cbn [fst snd]. rewrite Htop, Hleft. reflexivity.
    + unfold overlay_layer. cbn [fst snd]. rewrite Htop, Hleft. reflexivity.
  - assert (Hsame : forall m img' b',
              nth_error (retained images) m = Some img' ->
              thumbnail_of fetch sharp_resize img' (Z.of_nat m) = Some b' ->
              cell_top (Z.of_nat m) = cell_top i ->
              cell_left (Z.of_nat m) = cell_left i -> False).
    { intros m img' b' Hm Htm Ht1 Hl1.
      apply cell_injective in Hl1; [|lia|lia|exact Ht1].
      assert (m = n) by lia. subst m. rewrite Hn in Hm. injection Hm as <-.
      fold i in Htm. congruence. }
    intros layer Hl. rewrite <- Htop, <- Hleft.
    apply in_app_or in Hl as [Hl|Hl];
      apply in_map_iff in Hl as ([b j] & <- & Hj);
      apply Hin in Hj as (m & img' & -> & Hm & Htm);
      cbn [top left fst snd thumbnail_layer overlay_layer];
      split; intros [H1 H2].
    + exact (Hsame m img' b Hm Htm H1 H2).
    + exact (cell_not_overlay _ _ H1).
    + symmetry in H1. exact (cell_not_overlay _ _ H1).
    + apply (Hsame m img' b Hm Htm); lia.
Qed.

(** *** A single record (C8) *)

(** C8, as the code has it.  One record whose thumbnail arrives: the
    call returns the base64 text of the encoded canvas, not empty when
    the JPEG stream is not; the canvas is that of one row of three
    columns, 808 by 276, whatever the number of items; its layers are
    the thumbnail at (10, 10) and the label ["1"] at (15, 15). *)
Theorem generateThumbnailComposite_single
    (jpeg_nonempty : forall req, sharp_jpeg req <> [])
    (img : ImageMetadata.t) (b : Buffer) :
  thumb img 0 = Some b ->
  exists req,
    composed (run [img]) = Some req
    /\ returned (run [img]) = base64 (sharp_jpeg req)
    /\ returned (run [img]) <> []
    /\ (canvas_width req, canvas_height req) = grid_canvas COLUMNS 1
    /\ grid_canvas COLUMNS 1 = (808, 276)
    /\ layers req
       = [ {| input := b; top := 10; left := 10 |};
           {| input := Buffer_from (overlay_svg (lit "1"));
              top := 15; left := 15 |} ].
Proof.
  intros Ht.
  assert (Hs : successes fetch sharp_resize [img] = [(b, 0)]).
  { unfold successes, retained, map_indexed.
    change (firstn (Z.to_nat MAX_IMAGES_IN_COMPOSITE) [img]) with [img].
    cbn [map_from filter_non_null].
    rewrite process_image_thumbnail, Ht. reflexivity. }
  rewrite generateThumbnailComposite_run. unfold canvas_request.
  rewrite Hs. cbn [composed returned].
  eexists. split; [reflexivity|]. split; [reflexivity|].
  split; [apply base64_nonempty, jpeg_nonempty|].
  cbn [canvas_width canvas_height layers].
  split; [|split]; reflexivity.
Qed.

End CompositeClaims.

(** *** The claims in the sample worlds *)

(** Two items, the second answered with 404: the call still returns
    text, the eight units that encode the four bytes of the stream. *)
Lemma generateThumbnailComposite_failures_witness :
  let text :=
    returned (generateThumbnailComposite fetch_second_missing resize_keeps
                jpeg_markers
                [sample_image 1 800 600; sample_image 2 600 800]) in
  text = lit "/9j/2Q=="
  /\ text <> []
  /\ Z.of_nat (length text) = 8
  /\ Forall (fun c => base64_unit c = true) text
  /\ base64_decode text = Some [255; 216; 255; 217]%N.
Proof.
  cbv zeta.
  destruct (proj2 (proj2 (proj2 (proj2
              (generateThumbnailComposite_failures
                 fetch_second_missing resize_keeps jpeg_markers
                 (fun req => ltac:(discriminate))
                 (fun req => ltac:(unfold jpeg_markers, is_byte;
                                   repeat constructor))
                 [sample_image 1 800 600; sample_image 2 600 800])))))
    as (Htext & Hne & Hlen & Hunits & Hback).
  - exists 0%nat, (sample_image 1 800 600).
    split; [reflexivity|]. vm_compute. discriminate.
  - split; [rewrite Htext; vm_compute; reflexivity|].
    split; [exact Hne|]. split; [rewrite Hlen; reflexivity|].
    split; [exact Hunits|exact Hback].
Defined.

Example generateThumbnailComposite_all_fail :
  generateThumbnailComposite (fun _ _ => FetchRejected) resize_keeps
    jpeg_markers [sample_image 1 800 600; sample_image 2 600 800]
  = {| returned := [];
       fetched :=
         [lit "https://upload.example/thumb/Cat.jpg/256px-Cat.jpg";
          lit "https://upload.example/thumb/Cat.jpg/192px-Cat.jpg"];
       composed := None |}.
Proof. vm_compute. reflexivity. Qed.

(** Twenty records: fifteen requests. *)
Example generateThumbnailComposite_twenty :
  length (fetched (generateThumbnailComposite fetch_all_ok resize_keeps
                     jpeg_markers (repeat (sample_image 1 800 600) 20)))
  = 15%nat.
Proof. vm_compute. reflexivity. Qed.

(** Three items, the one at position 1 answered with 404: the thumbnails
    of positions 0 and 2 lie in the first and third cell, the label of the
    third cell shows 3, and nothing lies in the second. *)
Lemma generateThumbnailComposite_layout_witness :
  match composed (generateThumbnailComposite fetch_second_missing resize_keeps
                    jpeg_markers
                    [sample_image 1 800 600; sample_image 2 600 800;
                     sample_image 3 400 400]) with
  | None => False
  | Some req =>
      In {| input := [255; 216; 255]%N; top := 10; left := 542 |} (layers req)
      /\ (exists label,
            In {| input := label; top := 15; left := 547 |} (layers req)
            /\ label_shows label 3)
      /\ forall layer, In layer (layers req) ->
                       ~ (top layer = 10 /\ left layer = 276)
  end.
Proof.
  pose proof (generateThumbnailComposite_layout fetch_second_missing
                resize_keeps jpeg_markers
                [sample_image 1 800 600; sample_image 2 600 800;
                 sample_image 3 400 400]) as H.
  destruct (composed _) as [req|] eqn:E.
  - destruct H as [_ H]. split; [|split].
    + pose proof (H 2%nat _ eq_refl) as H2. vm_compute in H2.
      exact (proj1 H2).
    + pose proof (H 2%nat _ eq_refl) as H2. cbv zeta in H2.
      change (thumbnail_of fetch_second_missing resize_keeps
                (sample_image 3 400 400) (Z.of_nat 2))
        with (Some [255; 216; 255]%N) in H2.
      destruct H2 as (_ & Hlabel & Hshows).
      exists (Buffer_from (overlay_svg (number_to_string (Z.of_nat 2 + 1)))).
      split; [exact Hlabel|exact Hshows].
    + intros layer Hl. pose proof (H 1%nat _ eq_refl) as H1.
      vm_compute in H1. exact (proj1 (H1 layer Hl)).
  - vm_compute in E. discriminate E.
Defined.

Example generateThumbnailComposite_partial_failure :
  option_map
    (fun req => (canvas_width req, canvas_height req,
                 map (fun l => (top l, left l)) (layers req)))
    (composed (generateThumbnailComposite fetch_second_missing resize_keeps
                 jpeg_markers
                 [sample_image 1 800 600; sample_image 2 600 800;
                  sample_image 3 400 400; sample_image 4 400 400]))
  = Some (808, 542, [(10, 10); (10, 542); (276, 10);
                     (15, 15); (15, 547); (281, 15)]).
Proof. vm_compute. reflexivity. Qed.

(** One item in a world where everything arrives. *)
Lemma generateThumbnailComposite_single_witness :
  exists req,
    composed (generateThumbnailComposite fetch_all_ok resize_keeps
                jpeg_markers [sample_image 1 800 600]) = Some req
    /\ (canvas_width req, canvas_height req) = (808, 276).
Proof.
  destruct (generateThumbnailComposite_single fetch_all_ok resize_keeps
              jpeg_markers (fun req => ltac:(discriminate))
              (sample_image 1 800 600) [255; 216; 255]%N eq_refl)
    as (req & Hc & _ & _ & Hsize & Hgrid & _).
  exists req. split; [exact Hc|]. rewrite Hsize. exact Hgrid.
Defined.

(** C8 as stated fails: the canvas of a single item is not that of a grid
    of one column (276 by 276); it is 808 wide, the three columns being
    laid out whatever the number of items. *)
Lemma generateThumbnailComposite_single_counterexample :
  ~ (forall fetch sharp_resize sharp_jpeg img b,
       thumbnail_of fetch sharp_resize img 0 = Some b ->
       exists req,
         composed (generateThumbnailComposite fetch sharp_resize sharp_jpeg
                     [img]) = Some req
         /\ (canvas_width req, canvas_height req) = grid_canvas 1 1).
Proof.
  intros Hclaim.
  destruct (Hclaim fetch_all_ok resize_keeps jpeg_markers
                   (sample_image 1 800 600) [255; 216; 255]%N eq_refl)
    as (req & Hc & Hsize).
  vm_compute in Hc. injection Hc as <-. vm_compute in Hsize.
  discriminate Hsize.
Qed.

(** * Further properties *)

(** ** Text helpers *)

Lemma truncateString_cases (s : jsstring) (maxLength : Z) :
  s <> [] ->
  truncateString (Some s) maxLength
  = if Z.of_nat (length s) <=? maxLength then Some s
    else Some (firstn (Z.to_nat maxLength) s ++ lit "...").
Proof. destruct s; [contradiction|reflexivity]. Qed.

(** [truncateString] with a cap that is not negative: nothing for an absent
    or empty string; a string within the cap as it is; a longer one cut to
    the cap and closed with three dots, [maxLength + 3] units in all.  The
    result is never the empty string. *)
Theorem truncateString_bound (str : option jsstring) (maxLength : Z) :
  0 <= maxLength ->
  match truncateString str maxLength with
  | None => str = None \/ str = Some []
  | Some t =>
      exists s,
        str = Some s /\ s <> [] /\ t <> []
        /\ Z.of_nat (length t) <= maxLength + 3
        /\ (Z.of_nat (length s) <= maxLength -> t = s)
        /\ (maxLength < Z.of_nat (length s) ->
            t = firstn (Z.to_nat maxLength) s ++ lit "..."
            /\ Z.of_nat (length t) = maxLength + 3)
  end.
Proof.
  intros Hmax. destruct str as [[|c s]|]; cbn [truncateString]; auto.
  set (full := c :: s).
  destruct (Z.leb_spec (Z.of_nat (length full)) maxLength) as [Hle|Hgt].
  - exists full. repeat split; try discriminate; try lia.
  - exists full.
    assert (Hlen : length (firstn (Z.to_nat maxLength) full ++ lit "...")
                   = (Z.to_nat maxLength + 3)%nat).
    { rewrite length_app, length_firstn. cbn [lit length]. lia. }
    repeat split; try discriminate; try lia.
    intros H. apply (f_equal (@length _)) in H. rewrite Hlen in H.
    cbn in H. lia.
Qed.

Lemma truncateString_bound_witness :
  truncateString (Some (lit "Wikimedia")) 4 = Some (lit "Wiki...").
Proof.
  pose proof (truncateString_bound (Some (lit "Wikimedia")) 4 ltac:(lia)) as H.
  destruct (truncateString (Some (lit "Wikimedia")) 4) as [t|].
  - destruct H as (s & [= <-] & _ & _ & _ & _ & Hcut).
    f_equal. apply Hcut. cbn. lia.
  - destruct H as [H|H]; discriminate H.
Defined.

Lemma strip_tags_in (inTag : bool) (s : jsstring) (c : N) :
  In c (strip_tags inTag s) -> In c s.
Proof.
  revert inTag. induction s as [|x s IH]; intros inTag; cbn; [tauto|].
  destruct inTag.
  - intros H. right. exact (IH _ H).
  - destruct ((x =? lt_sign)%N && existsb (N.eqb gt_sign) s)%bool.
    + intros H. right. exact (IH _ H).
    + intros [H|H]; [left; exact H|right; exact (IH _ H)].
Qed.

Lemma strip_tags_length (inTag : bool) (s : jsstring) :
  (length (strip_tags inTag s) <= length s)%nat.
Proof.
  revert inTag. induction s as [|x s IH]; intros inTag; cbn; [lia|].
  destruct inTag; [specialize (IH (negb (x =? gt_sign)%N)); lia|].
  destruct ((x =? lt_sign)%N && existsb (N.eqb gt_sign) s)%bool; cbn;
    [specialize (IH true)|specialize (IH false)]; lia.
Qed.

Lemma existsb_gt_in (s : jsstring) :
  existsb (N.eqb gt_sign) s = true <-> In gt_sign s.
Proof.
  rewrite existsb_exists. split.
  - intros (x & Hx & Heq). apply N.eqb_eq in Heq. subst. exact Hx.
  - intros H. exists gt_sign. split; [exact H|apply N.eqb_refl].
Qed.

Lemma has_tag_cons (c : N) (s : jsstring) :
  has_tag (c :: s) -> (c = lt_sign /\ In gt_sign s) \/ has_tag s.
Proof.
  intros ([|b before] & after & Heq & Hin); injection Heq as -> ->.
  - left. split; [reflexivity|exact Hin].
  - right. exists before, after. split; [reflexivity|exact Hin].
Qed.

Lemma strip_tags_no_tag (inTag : bool) (s : jsstring) :
  ~ has_tag (strip_tags inTag s).
Proof.
  revert inTag. induction s as [|x s IH]; intros inTag; cbn.
  - intros ([|b before] & after & Heq & _); discriminate Heq.
  - destruct inTag; [apply IH|].
    destruct ((x =? lt_sign)%N && existsb (N.eqb gt_sign) s)%bool eqn:Hopen;
      [apply IH|].
    intros Htag. apply has_tag_cons in Htag as [[-> Hin]|Htag];
      [|exact (IH false Htag)].
    apply strip_tags_in in Hin. apply existsb_gt_in in Hin.
    rewrite N.eqb_refl, Hin in Hopen. discriminate Hopen.
Qed.

Lemma strip_tags_fixed (s : jsstring) :
  ~ has_tag s -> strip_tags false s = s.
Proof.
  induction s as [|x s IH]; intros Hnone; cbn; [reflexivity|].
  destruct ((x =? lt_sign)%N && existsb (N.eqb gt_sign) s)%bool eqn:Hopen.
  - exfalso. apply Hnone. apply andb_true_iff in Hopen as [Hx Hgt].
    apply N.eqb_eq in Hx. subst x. exists [], s. split; [reflexivity|].
    apply existsb_gt_in, Hgt.
  - f_equal. apply IH. intros (before & after & -> & Hin).
    apply Hnone. exists (x :: before), after. split; [reflexivity|exact Hin].
Qed.

Lemma strip_tags_subsequence (inTag : bool) (s : jsstring) :
  subsequence (strip_tags inTag s) s.
Proof.
  revert inTag. induction s as [|x s IH]; intros inTag; cbn; [constructor|].
  destruct inTag; [constructor; apply IH|].
  destruct ((x =? lt_sign)%N && existsb (N.eqb gt_sign) s)%bool;
    constructor; apply IH.
Qed.

(** Inside a tag everything goes, up to and with the first [>]. *)
Lemma strip_tags_inside (body rest : jsstring) :
  ~ In gt_sign body ->
  strip_tags true (body ++ gt_sign :: rest) = strip_tags false rest.
Proof.
  induction body as [|c body IH]; intros Hbody; cbn [app strip_tags].
  - rewrite N.eqb_refl. reflexivity.
  - replace (c =? gt_sign)%N with false.
    + apply IH. intros Hin. apply Hbody. right. exact Hin.
    + symmetry. apply N.eqb_neq. intros ->. apply Hbody. left. reflexivity.
Qed.

(** A tag in front of a text goes, and nothing else of the text does on
    its account. *)
Lemma strip_tags_tag (g rest : jsstring) :
  tag g -> strip_tags false (g ++ rest) = strip_tags false rest.
Proof.
  intros (body & -> & Hbody). cbn [app strip_tags].
  rewrite <- app_assoc. cbn [app].
  replace (existsb (N.eqb gt_sign) (body ++ gt_sign :: rest)) with true.
  - rewrite N.eqb_refl. cbn [andb]. apply strip_tags_inside, Hbody.
  - symmetry. apply existsb_gt_in, in_or_app. right. left. reflexivity.
Qed.

Lemma strip_tags_only (s : jsstring) : tags_only s -> strip_tags false s = [].
Proof.
  intros (tags & Htags & ->). induction Htags as [|g tags Hg _ IH];
    [reflexivity|].
  cbn [concat]. rewrite strip_tags_tag by exact Hg. exact IH.
Qed.

(** [stripHtml] only deletes, and deletes every tag: its result is the
    text with some units taken out, the others in their order, and in it
    no [<] has a [>] after it, so stripping the result again changes
    nothing; a text in which no [<] has a [>] after it comes back as it
    is.  An absent or empty text gives nothing, a text made of tags only
    gives the empty string. *)
Theorem stripHtml_no_tag (html : option jsstring) :
  match stripHtml html with
  | None => html = None \/ html = Some []
  | Some t =>
      exists s,
        html = Some s /\ s <> []
        /\ ~ has_tag t
        /\ subsequence t s
        /\ (length t <= length s)%nat
        /\ (forall c, In c t -> In c s)
        /\ strip_tags false t = t
        /\ (~ has_tag s -> t = s)
        /\ (tags_only s -> t = [])
  end.
Proof.
  destruct html as [[|c s]|]; cbn [stripHtml]; auto.
  exists (c :: s). split; [reflexivity|]. split; [discriminate|].
  split; [apply strip_tags_no_tag|]. split; [apply strip_tags_subsequence|].
  split; [apply strip_tags_length|].
  split; [intros x; apply strip_tags_in|].
  split; [apply strip_tags_fixed, strip_tags_no_tag|].
  split; [apply strip_tags_fixed|apply strip_tags_only].
Qed.

(** A text without tags comes back as it is, and two tags with nothing
    between them leave the empty string. *)
Lemma stripHtml_no_tag_witness :
  stripHtml (Some (lit "2 < 3 and 5 < 7")) = Some (lit "2 < 3 and 5 < 7")
  /\ stripHtml (Some (lit "<p class='x'><br>")) = Some [].
Proof.
  split.
  - pose proof (stripHtml_no_tag (Some (lit "2 < 3 and 5 < 7"))) as H.
    destruct (stripHtml (Some (lit "2 < 3 and 5 < 7"))) as [t|].
    + destruct H as (s & [= <-] & _ & _ & _ & _ & _ & _ & Hsame & _).
      f_equal. apply Hsame. intros (before & after & Heq & Hin).
      assert (Hall : In gt_sign (before ++ lt_sign :: after))
        by (apply in_or_app; right; right; exact Hin).
      rewrite <- Heq in Hall. vm_compute in Hall. intuition discriminate.
    + destruct H as [H|H]; discriminate H.
  - pose proof (stripHtml_no_tag (Some (lit "<p class='x'><br>"))) as H.
    destruct (stripHtml (Some (lit "<p class='x'><br>"))) as [t|].
    + destruct H as (s & [= <-] & _ & _ & _ & _ & _ & _ & _ & Honly).
      f_equal. apply Honly.
      exists [lit "<p class='x'>"; lit "<br>"]. split; [|reflexivity].
      repeat constructor.
      * exists (lit "p class='x'"). split; [reflexivity|].
        vm_compute. intuition discriminate.
      * exists (lit "br"). split; [reflexivity|].
        vm_compute. intuition discriminate.
    + destruct H as [H|H]; discriminate H.
Defined.

Example stripHtml_samples :
  stripHtml (Some (lit "<a href='x'>Jane <b>Doe</b></a>"))
  = Some (lit "Jane Doe")
  /\ stripHtml (Some (lit "<br>")) = Some []
  /\ stripHtml (Some (lit "a <<b>c> d")) = Some (lit "a c> d")
  /\ stripHtml (Some (lit "open < only")) = Some (lit "open < only").
Proof. vm_compute. repeat split. Qed.

(** ** The aspect ratio label *)

(** The local [gcd] of [getAspectRatio] is the greatest common divisor of
    two numbers that are not negative: it divides both, every common
    divisor divides it, and with a zero it is the other number. *)
Theorem gcd_greatest_common (a b : Z) :
  0 <= a -> 0 <= b ->
  (gcd a b | a) /\ (gcd a b | b)
  /\ (forall d, (d | a) -> (d | b) -> (d | gcd a b))
  /\ 0 <= gcd a b
  /\ gcd a 0 = a.
Proof.
  intros Ha Hb. rewrite (gcd_is_Zgcd a b Ha Hb), (gcd_is_Zgcd a 0 Ha) by lia.
  split; [apply Z.gcd_divide_l|]. split; [apply Z.gcd_divide_r|].
  split; [intros d; apply Z.gcd_greatest|].
  split; [apply Z.gcd_nonneg|]. rewrite Z.gcd_0_r. lia.
Qed.

Lemma gcd_greatest_common_witness : gcd 1920 1080 = 120 /\ (gcd 1920 1080 | 1920).
Proof.
  split; [vm_compute; reflexivity|].
  apply (gcd_greatest_common 1920 1080); lia.
Defined.

Lemma reduced_components (width height : Z) :
  0 < width -> 0 < height ->
  let g := Z.gcd width height in
  1 <= width / g /\ 1 <= height / g
  /\ width / g * height = height / g * width
  /\ Z.gcd (width / g) (height / g) = 1.
Proof.
  intros Hw Hh g.
  assert (Hg : 0 < g).
  { pose proof (Z.gcd_nonneg width height).
    destruct (Z.eq_dec g 0) as [H0|]; [|subst g; lia].
    apply Z.gcd_eq_0_l in H0. lia. }
  destruct (Z.gcd_divide_l width height) as [w Hwg].
  destruct (Z.gcd_divide_r width height) as [h Hhg].
  fold g in Hwg, Hhg.
  assert (Hwq : width / g = w) by (rewrite Hwg; apply Z.div_mul; lia).
  assert (Hhq : height / g = h) by (rewrite Hhg; apply Z.div_mul; lia).
  assert (Hcop : Z.gcd (width / g) (height / g) = 1)
    by (apply Z.gcd_div_gcd; [lia|reflexivity]).
  clearbody g. rewrite Hwq, Hhq in *.
  split; [nia|]. split; [nia|]. split; [|exact Hcop].
  rewrite Hwg, Hhg. ring.
Qed.

(** For positive dimensions the label names two components between 1 and
    21.  Without the approximation sign they are the ratio itself in
    lowest terms ([w * height = h * width], [w] and [h] coprime); the sign
    is there exactly when the ratio in lowest terms exceeds the bound. *)
Theorem getAspectRatio_components (width height : Z) :
  0 < width -> 0 < height ->
  exists w h,
    1 <= w <= MAX_COMPONENT /\ 1 <= h <= MAX_COMPONENT
    /\ ((reduced_fits width height
         /\ getAspectRatio width height = ratio_label w h
         /\ w * height = h * width /\ Z.gcd w h = 1)
        \/ (~ reduced_fits width height
            /\ getAspectRatio width height = approx_sign :: ratio_label w h)).
Proof.
  intros Hw Hh. rewrite getAspectRatio_positive by assumption. cbv zeta.
  destruct (reduced_components width height Hw Hh) as (H1 & H2 & Hx & Hg).
  destruct (_ && _)%bool eqn:Hfit.
  - apply andb_true_iff in Hfit. rewrite !Z.leb_le in Hfit.
    exists (width / Z.gcd width height), (height / Z.gcd width height).
    split; [lia|]. split; [lia|]. left. unfold reduced_fits.
    unfold MAX_COMPONENT in Hfit. tauto.
  - destruct (ratio_loop_first_minimizer
                (Float.div (inject_Z width) (inject_Z height))
                (width / Z.gcd width height, height / Z.gcd width height))
      as (h & (Hr & _) & Hfold).
    rewrite Hfold. cbn [fst snd].
    exists (candidate_width (Float.div (inject_Z width) (inject_Z height)) h),
      h.
    split; [unfold candidate_width, MAX_COMPONENT; lia|]. split; [exact Hr|].
    right. split; [|reflexivity]. unfold reduced_fits. intros Hc.
    apply andb_false_iff in Hfit. rewrite !Z.leb_gt in Hfit.
    unfold MAX_COMPONENT in Hfit. lia.
Qed.

Lemma getAspectRatio_components_witness :
  exists w h,
    1 <= w <= MAX_COMPONENT /\ 1 <= h <= MAX_COMPONENT
    /\ ((reduced_fits 1920 1080
         /\ getAspectRatio 1920 1080 = ratio_label w h
         /\ w * 1080 = h * 1920 /\ Z.gcd w h = 1)
        \/ (~ reduced_fits 1920 1080
            /\ getAspectRatio 1920 1080 = approx_sign :: ratio_label w h)).
Proof. apply getAspectRatio_components; lia. Defined.

(** Every size in the proportion [w : h], with [w] and [h] coprime and
    within the bound, is labelled ["w:h"]: the exact label does not depend
    on the scale. *)
Theorem getAspectRatio_scale (w h k : Z) :
  1 <= w <= MAX_COMPONENT -> 1 <= h <= MAX_COMPONENT -> Z.gcd w h = 1 ->
  0 < k ->
  getAspectRatio (k * w) (k * h) = ratio_label w h.
Proof.
  intros Hw Hh Hg Hk. rewrite getAspectRatio_positive by nia. cbv zeta.
  rewrite Z.gcd_mul_mono_l, Hg, Z.mul_1_r, Z.abs_eq by lia.
  rewrite !(Z.mul_comm k), !Z.div_mul by lia.
  destruct Hw as [_ Hw], Hh as [_ Hh]. apply Z.leb_le in Hw, Hh.
  rewrite Hw, Hh. reflexivity.
Qed.

Lemma getAspectRatio_scale_witness :
  getAspectRatio (120 * 16) (120 * 9) = ratio_label 16 9.
Proof.
  apply getAspectRatio_scale;
    try (unfold MAX_COMPONENT; lia); reflexivity.
Defined.

(** ** The normalizer *)

Lemma records_of_length (l : list RawPage.t) :
  (length (records_of l) <= length l)%nat.
Proof.
  induction l as [|p l IH]; [cbn; lia|].
  unfold records_of in *. cbn [flat_map]. rewrite length_app.
  destruct (parse_page p); cbn [length]; lia.
Qed.

Lemma array_slice_length {A} (l : list A) (s e : Z) :
  0 <= s -> 0 <= e ->
  Z.of_nat (length (array_slice l s e)) <= Z.max 0 (e - s).
Proof.
  intros Hs He. unfold array_slice.
  replace (s <? 0) with false by (symmetry; apply Z.ltb_ge; lia).
  replace (e <? 0) with false by (symmetry; apply Z.ltb_ge; lia).
  rewrite length_firstn.
  set (len := Z.of_nat (length l)).
  etransitivity; [apply inj_le, Nat.le_min_l|].
  destruct (Z.le_ge_cases e len), (Z.le_ge_cases s len);
    rewrite ?(Z.min_l e), ?(Z.min_r e), ?(Z.min_l s), ?(Z.min_r s) by lia;
    lia.
Qed.

(** A page of results holds at most [limit] records, and no more than the
    document has pages, when [offset] and [limit] are not negative. *)
Theorem parseWikimediaResponse_page_size
    (doc : WikimediaApiResponse.t) (params : SearchImagesInput.t) :
  0 <= SearchImagesInput.offset params ->
  0 <= SearchImagesInput.limit params ->
  let images := images_of (snd (parseWikimediaResponse doc params)) in
  Z.of_nat (length images) <= SearchImagesInput.limit params
  /\ (length images <= length (document_pages doc))%nat.
Proof.
  intros Ho Hl. rewrite parseWikimediaResponse_result.
  destruct (WikimediaApiResponse.error doc);
    cbn [images_of SearchResult.images];
    [cbn; lia|].
  pose proof (records_of_length (page_window doc params)) as Hrec.
  unfold page_window in *.
  set (sorted := array_sort compare_pages (document_pages doc)) in *.
  set (len := Z.of_nat (length sorted)) in *.
  pose proof (array_slice_length sorted
                (Z.min (SearchImagesInput.offset params) len)
                (Z.min (SearchImagesInput.offset params
                        + SearchImagesInput.limit params) len)
                ltac:(lia) ltac:(lia)) as Hslice.
  split; [lia|].
  assert (Hsub : (length (array_slice sorted
                     (Z.min (SearchImagesInput.offset params) len)
                     (Z.min (SearchImagesInput.offset params
                             + SearchImagesInput.limit params) len))
                  <= length sorted)%nat).
  { unfold array_slice. rewrite length_firstn, length_skipn. lia. }
  subst sorted. rewrite array_sort_length in Hsub. lia.
Qed.

Lemma parseWikimediaResponse_page_size_witness :
  Z.of_nat (length (images_of (snd (parseWikimediaResponse sample_unordered
                                      (sample_params 1 1))))) <= 1.
Proof.
  apply (parseWikimediaResponse_page_size sample_unordered (sample_params 1 1));
    cbn; lia.
Defined.

(** The pages of the document after a call. *)
Lemma document_pages_after
    (doc : WikimediaApiResponse.t) (params : SearchImagesInput.t) :
  WikimediaApiResponse.error (fst (parseWikimediaResponse doc params))
  = WikimediaApiResponse.error doc
  /\ document_pages (fst (parseWikimediaResponse doc params))
     = match WikimediaApiResponse.error doc with
       | Some _ => document_pages doc
       | None => array_sort compare_pages (document_pages doc)
       end.
Proof.
  destruct doc as [q e]. unfold parseWikimediaResponse, document_pages.
  cbn [WikimediaApiResponse.error WikimediaApiResponse.query].
  destruct e as [e|]; cbn [fst]; [split; reflexivity|].
  destruct q as [[[[|p l]|]]|]; cbn [fst]; split; reflexivity.
Qed.

Lemma array_sort_twice (l : list RawPage.t) :
  array_sort compare_pages (array_sort compare_pages l)
  = array_sort compare_pages l.
Proof. apply array_sort_sorted_id, array_sort_sorted. Qed.

Lemma reparse_result
    (doc : WikimediaApiResponse.t) (p q : SearchImagesInput.t) :
  snd (parseWikimediaResponse (fst (parseWikimediaResponse doc p)) q)
  = snd (parseWikimediaResponse doc q).
Proof.
  rewrite !parseWikimediaResponse_result. unfold page_window.
  destruct (document_pages_after doc p) as [-> Hpages].
  rewrite Hpages.
  destruct (WikimediaApiResponse.error doc); [reflexivity|].
  rewrite array_sort_twice, !array_sort_length. reflexivity.
Qed.

(** The reordering a call leaves in the document does not show in later
    calls: a call on the document as an earlier call left it returns what
    it returns on the document as it came, and leaves the pages as the
    earlier call left them. *)
Theorem parseWikimediaResponse_again
    (doc : WikimediaApiResponse.t) (p q : SearchImagesInput.t) :
  let doc' := fst (parseWikimediaResponse doc p) in
  snd (parseWikimediaResponse doc' q) = snd (parseWikimediaResponse doc q)
  /\ document_pages (fst (parseWikimediaResponse doc' q)) = document_pages doc'
  /\ fst (parseWikimediaResponse doc' q) = fst (parseWikimediaResponse doc q).
Proof.
  cbv zeta. split; [apply reparse_result|].
  assert (Hfst : forall d, fst (parseWikimediaResponse
                                  (fst (parseWikimediaResponse d p)) q)
                           = fst (parseWikimediaResponse d q)).
  { intros [qr e]. unfold parseWikimediaResponse.
    cbn [WikimediaApiResponse.error WikimediaApiResponse.query].
    destruct e as [e|]; cbn [fst WikimediaApiResponse.error]; [reflexivity|].
    destruct qr as [[[[|x l]|]]|];
      cbn [fst WikimediaApiResponse.error WikimediaApiResponse.query];
      try reflexivity.
    destruct (array_sort compare_pages (x :: l)) as [|y s] eqn:Hs.
    - apply (f_equal (@length _)) in Hs. rewrite array_sort_length in Hs.
      discriminate Hs.
    - cbn [fst]. rewrite <- Hs, array_sort_twice. reflexivity. }
  split; [|apply Hfst].
  rewrite Hfst.
  destruct (document_pages_after doc p) as [_ ->].
  destruct (document_pages_after doc q) as [_ ->]. reflexivity.
Qed.

Lemma slice_window {A} (l : list A) (a b : Z) :
  0 <= a <= b -> b <= Z.of_nat (length l) ->
  array_slice l a b = firstn (Z.to_nat (b - a)) (skipn (Z.to_nat a) l).
Proof.
  intros Hab Hb. unfold array_slice.
  replace (a <? 0) with false by (symmetry; apply Z.ltb_ge; lia).
  replace (b <? 0) with false by (symmetry; apply Z.ltb_ge; lia).
  rewrite !Z.min_l by lia. reflexivity.
Qed.

Lemma firstn_plus {A} (x y : nat) (l : list A) :
  firstn (x + y) l = firstn x l ++ firstn y (skipn x l).
Proof.
  revert l. induction x as [|x IH]; intros l; [reflexivity|].
  destruct l as [|c l]; cbn; [rewrite firstn_nil; reflexivity|].
  f_equal. apply IH.
Qed.

Lemma skipn_plus {A} (x y : nat) (l : list A) :
  skipn (x + y) l = skipn y (skipn x l).
Proof.
  revert l. induction x as [|x IH]; intros l; [reflexivity|].
  destruct l as [|c l]; cbn; [rewrite skipn_nil; reflexivity|]. apply IH.
Qed.

Lemma slices_join {A} (l : list A) (a b c : Z) :
  0 <= a <= b -> b <= c -> c <= Z.of_nat (length l) ->
  array_slice l a b ++ array_slice l b c = array_slice l a c.
Proof.
  intros Hab Hbc Hc. rewrite !slice_window by lia.
  replace (Z.to_nat (c - a)) with (Z.to_nat (b - a) + Z.to_nat (c - b))%nat
    by lia.
  rewrite firstn_plus. f_equal. f_equal.
  replace (Z.to_nat b) with (Z.to_nat a + Z.to_nat (b - a))%nat by lia.
  apply skipn_plus.
Qed.

(** Consecutive windows tile the result set: the records of the window at
    [offset] of length [limit], followed by those of the window that
    starts at [offset + limit] -- the [nextOffset] of the first call --
    are the records of the one window of both lengths; no record is lost
    or repeated between two pages.  The second call is made on the
    document as the first left it. *)
Theorem parseWikimediaResponse_windows_tile
    (doc : WikimediaApiResponse.t) (params : SearchImagesInput.t)
    (offset limit limit' : Z) :
  0 <= offset -> 0 <= limit -> 0 <= limit' ->
  let first := parseWikimediaResponse doc (with_window params offset limit) in
  let second :=
    parseWikimediaResponse (fst first)
                           (with_window params (offset + limit) limit') in
  let both :=
    parseWikimediaResponse doc (with_window params offset (limit + limit')) in
  images_of (snd first) ++ images_of (snd second) = images_of (snd both).
Proof.
  intros Ho Hl Hl'. cbv zeta. rewrite reparse_result.
  rewrite !parseWikimediaResponse_result.
  destruct (WikimediaApiResponse.error doc); [reflexivity|].
  cbv zeta. cbn [images_of SearchResult.images]. unfold page_window, records_of.
  cbn [with_window SearchImagesInput.offset SearchImagesInput.limit].
  rewrite <- flat_map_app. f_equal.
  replace (offset + (limit + limit')) with (offset + limit + limit') by lia.
  apply slices_join; lia.
Qed.

Lemma parseWikimediaResponse_windows_tile_witness :
  map ImageMetadata.index
      (images_of (snd (parseWikimediaResponse sample_unordered
                         (with_window (sample_params 0 9) 0 1)))
       ++ images_of
            (snd (parseWikimediaResponse
                    (fst (parseWikimediaResponse sample_unordered
                            (with_window (sample_params 0 9) 0 1)))
                    (with_window (sample_params 0 9) (0 + 1) 2))))
  = [3; 4; 5].
Proof.
  rewrite (parseWikimediaResponse_windows_tile sample_unordered
             (sample_params 0 9) 0 1 2) by lia.
  vm_compute. reflexivity.
Defined.

(** The sort is stable: pages of one ordinal -- pages without ordinal
    among them, which count as 0 -- are in the document after the call in
    the order they had before it. *)
Theorem parseWikimediaResponse_stable
    (doc : WikimediaApiResponse.t) (params : SearchImagesInput.t) (k : Z) :
  filter (fun p => ordinal p =? k)
         (document_pages (fst (parseWikimediaResponse doc params)))
  = filter (fun p => ordinal p =? k) (document_pages doc).
Proof.
  destruct (document_pages_after doc params) as [_ ->].
  destruct (WikimediaApiResponse.error doc); [reflexivity|].
  induction (document_pages doc) as [|x l IH]; [reflexivity|].
  cbn [array_sort fold_right]. fold (array_sort compare_pages l).
  rewrite sort_insert_keeps by apply array_sort_sorted.
  cbn [filter]. rewrite IH. reflexivity.
Qed.

Lemma truncateString_length (str : option jsstring) (maxLength : Z)
    (t : jsstring) :
  0 <= maxLength -> truncateString str maxLength = Some t ->
  t <> [] /\ Z.of_nat (length t) <= maxLength + 3.
Proof.
  intros Hmax. destruct str as [[|c s]|]; cbn [truncateString];
    try discriminate.
  destruct (Z.leb_spec (Z.of_nat (length (c :: s))) maxLength) as [Hle|Hgt];
    intros [= <-].
  - split; [discriminate|lia].
  - split.
    + intros H. apply (f_equal (@length _)) in H.
      rewrite length_app in H. cbn in H. lia.
    + rewrite length_app, length_firstn. cbn [lit length]. lia.
Qed.

Lemma capped_field_within (v : option jsstring)
    (f : option jsstring -> option jsstring) (cap : Z) :
  0 <= cap -> text_within cap (capped_field v f cap).
Proof.
  intros Hcap. unfold capped_field. destruct (truthy_str v); [|exact I].
  destruct (truncateString (f v) cap) as [t|] eqn:Ht; [|exact I].
  cbn [truthy_str]. destruct t as [|c t]; [exact I|].
  exact (truncateString_length _ _ _ Hcap Ht).
Qed.

Lemma capped_field_none (v : option jsstring)
    (f : option jsstring -> option jsstring) (cap : Z) :
  capped_field v f cap = None
  <-> truthy_str v = false \/ truthy_str (f v) = false.
Proof.
  unfold capped_field. destruct (truthy_str v); [|tauto].
  destruct (f v) as [[|c s]|]; cbn [truncateString truthy_str]; try tauto.
  destruct (Z.of_nat (length (c :: s)) <=? cap); cbn [truthy_str].
  - split; [discriminate|intros [H|H]; discriminate H].
  - destruct (firstn (Z.to_nat cap) (c :: s)); cbn;
      (split; [discriminate|intros [H|H]; discriminate H]).
Qed.

Lemma stripHtml_falsy (v : option jsstring) :
  truthy_str v = false -> truthy_str (stripHtml v) = false.
Proof. destruct v as [[|c s]|]; [reflexivity|discriminate|reflexivity]. Qed.

Lemma license_has_keys_false (l : LicenseInfo.t) :
  license_has_keys l = false
  <-> LicenseInfo.name l = None /\ LicenseInfo.usageTerms l = None
      /\ LicenseInfo.url l = None.
Proof.
  unfold license_has_keys.
  destruct (LicenseInfo.name l), (LicenseInfo.usageTerms l),
    (LicenseInfo.url l); split;
    try discriminate; try tauto;
    intros (H1 & H2 & H3); discriminate.
Qed.

Lemma parse_page_texts (page : RawPage.t) (im : ImageMetadata.t) :
  parse_page page = Some im ->
  texts_within_caps im
  /\ ImageMetadata.aspectRatio im
     = Some (getAspectRatio (ImageMetadata.width im) (ImageMetadata.height im))
  /\ (ImageMetadata.license im = None
      <-> license_sources_empty (page_metadata page))
  /\ (forall l, ImageMetadata.license im = Some l ->
                l = build_license (page_metadata page)
                /\ license_has_keys l = true)
  /\ (truthy_str (ext_field (page_metadata page) ExtMetadata.LicenseShortName)
      = true ->
      exists l, ImageMetadata.license im = Some l
                /\ LicenseInfo.name l
                   = truncateString
                       (ext_field (page_metadata page)
                                  ExtMetadata.LicenseShortName) 100).
Proof.
  unfold parse_page, page_metadata, texts_within_caps.
  destruct (RawPage.imageinfo page) as [[|info rest]|]; try discriminate.
  destruct (ImageInfo.thumburl info) as [u|]; try discriminate.
  destruct (ImageInfo.width info) as [w|]; try discriminate.
  destruct (ImageInfo.height info) as [h|]; try discriminate.
  destruct (_ || _)%bool; [discriminate|].
  set (ext := ImageInfo.extmetadata info).
  intros [= <-].
  cbn [ImageMetadata.caption ImageMetadata.date ImageMetadata.description
       ImageMetadata.credit ImageMetadata.artist ImageMetadata.license
       ImageMetadata.aspectRatio ImageMetadata.width ImageMetadata.height].
  assert (Hname : LicenseInfo.name (build_license ext) = None
                  <-> truthy_str (ext_field ext ExtMetadata.LicenseShortName)
                      = false
                      /\ truthy_str (ext_field ext ExtMetadata.License)
                         = false).
  { cbn [build_license LicenseInfo.name].
    destruct (truthy_str (ext_field ext ExtMetadata.LicenseShortName)) eqn:Hs.
    - rewrite capped_field_none. unfold id. rewrite Hs.
      split; [intros [H|H]; discriminate H|intros [H _]; discriminate H].
    - rewrite capped_field_none. unfold id. tauto. }
  assert (Husage : LicenseInfo.usageTerms (build_license ext) = None
                   <-> truthy_str (stripHtml
                                     (ext_field ext ExtMetadata.UsageTerms))
                       = false).
  { cbn [build_license LicenseInfo.usageTerms]. rewrite capped_field_none.
    split; [intros [H|H]; [apply stripHtml_falsy|]; exact H|tauto]. }
  assert (Hurl : LicenseInfo.url (build_license ext) = None
                 <-> truthy_str (ext_field ext ExtMetadata.LicenseUrl) = false).
  { cbn [build_license LicenseInfo.url].
    destruct (ext_field ext ExtMetadata.LicenseUrl) as [[|c s]|];
      cbn [truthy_str]; split; intros H; reflexivity || discriminate H. }
  assert (Hkeys : license_has_keys (build_license ext) = false
                  <-> license_sources_empty ext).
  { rewrite license_has_keys_false, Hname, Husage, Hurl.
    unfold license_sources_empty. tauto. }
  split; [|split; [reflexivity|split; [|split]]].
  - repeat split; try (apply capped_field_within; lia).
    destruct (license_has_keys (build_license ext)); [|exact I].
    cbn [build_license LicenseInfo.name LicenseInfo.usageTerms LicenseInfo.url].
    split; [|split].
    + destruct (truthy_str _); apply capped_field_within; lia.
    + apply capped_field_within; lia.
    + destruct (ext_field ext ExtMetadata.LicenseUrl) as [[|c s]|];
        cbn [truthy_str]; discriminate.
  - rewrite <- Hkeys.
    destruct (license_has_keys (build_license ext));
      split; intros H; reflexivity || discriminate H.
  - intros l. destruct (license_has_keys (build_license ext)) eqn:Hk;
      intros [= <-]. split; [reflexivity|exact Hk].
  - intros Hs.
    assert (Hk : license_has_keys (build_license ext) = true).
    { destruct (license_has_keys (build_license ext)) eqn:Hk; [reflexivity|].
      destruct (proj1 Hkeys eq_refl) as [Hk' _]. congruence. }
    rewrite Hk. eexists. split; [reflexivity|].
    cbn [build_license LicenseInfo.name]. rewrite Hs.
    unfold capped_field, id. rewrite Hs.
    destruct (ext_field ext ExtMetadata.LicenseShortName) as [[|c s]|];
      try discriminate Hs.
    cbn [truncateString].
    destruct (Z.of_nat (length (c :: s)) <=? 100); [reflexivity|].
    destruct (firstn (Z.to_nat 100) (c :: s)); reflexivity.
Qed.

(** The records of a result, page by page: each text field that is there
    is not empty and keeps to its cap (500 units and the three dots; 100
    for the license name), and the aspect ratio is there and is the label
    of the record's width and height. *)
Theorem parseWikimediaResponse_record_texts
    (doc : WikimediaApiResponse.t) (params : SearchImagesInput.t) :
  Forall
    (fun im =>
       texts_within_caps im
       /\ ImageMetadata.aspectRatio im
          = Some (getAspectRatio (ImageMetadata.width im)
                                 (ImageMetadata.height im)))
    (images_of (snd (parseWikimediaResponse doc params))).
Proof.
  rewrite parseWikimediaResponse_result.
  destruct (WikimediaApiResponse.error doc); [constructor|].
  cbv zeta. cbn [images_of SearchResult.images].
  apply Forall_forall. intros im Him.
  apply records_of_in in Him as (page & _ & Hp).
  apply parse_page_texts in Hp. tauto.
Qed.

(** The license of a record, page by page: the object is left out exactly
    when none of the four license entries of the page yields a field;
    when it is there it has a key at least; and the short name of the
    license, when the page has one, is the name, whatever the long name. *)
Theorem parseWikimediaResponse_record_license
    (doc : WikimediaApiResponse.t) (params : SearchImagesInput.t) :
  Forall2
    (fun page im =>
       (ImageMetadata.license im = None
        <-> license_sources_empty (page_metadata page))
       /\ (forall l, ImageMetadata.license im = Some l ->
                     l = build_license (page_metadata page)
                     /\ license_has_keys l = true)
       /\ (truthy_str (ext_field (page_metadata page)
                                 ExtMetadata.LicenseShortName) = true ->
           exists l, ImageMetadata.license im = Some l
                     /\ LicenseInfo.name l
                        = truncateString
                            (ext_field (page_metadata page)
                                       ExtMetadata.LicenseShortName) 100))
    (match WikimediaApiResponse.error doc with
     | Some _ => []
     | None => filter usable (page_window doc params)
     end)
    (images_of (snd (parseWikimediaResponse doc params))).
Proof.
  rewrite parseWikimediaResponse_result.
  destruct (WikimediaApiResponse.error doc); [constructor|].
  cbv zeta. cbn [images_of SearchResult.images].
  eapply Forall2_impl; [|apply records_of_usable].
  intros page im Hp. apply parse_page_texts in Hp. tauto.
Qed.

(** ** The compositor *)

Lemma grid_rows (n : Z) :
  1 <= n <= MAX_IMAGES_IN_COMPOSITE ->
  Qceiling (Float.div (inject_Z n) (inject_Z COLUMNS)) = (n + 2) / 3.
Proof.
  unfold MAX_IMAGES_IN_COMPOSITE. intros Hn.
  assert (Hall : forallb
                   (fun m => Qceiling (Float.div (inject_Z m)
                                                 (inject_Z COLUMNS))
                             =? (m + 2) / 3)
                   (map Z.of_nat (seq 1 15)) = true)
    by (vm_compute; reflexivity).
  rewrite forallb_forall in Hall. apply Z.eqb_eq, Hall, in_map_iff.
  exists (Z.to_nat n). split; [lia|apply in_seq; lia].
Qed.

Lemma nth_error_lt {A} (l : list A) (n : nat) (a : A) :
  nth_error l n = Some a -> (n < length l)%nat.
Proof. intros H. apply nth_error_Some. rewrite H. discriminate. Qed.

Lemma retained_length (images : list ImageMetadata.t) :
  length (retained images) = Nat.min 15 (length images).
Proof. unfold retained. apply length_firstn. Qed.

(** The canvas depends on the number of records kept only, not on which
    of them failed: it is 808 wide and one row of 266 high for every three
    records begun, plus the margin of 10; and the box of every layer,
    thumbnail or label, lies on it. *)
Theorem generateThumbnailComposite_canvas
    (fetch : Z -> jsstring -> FetchOutcome)
    (sharp_resize : Buffer -> option Buffer)
    (sharp_jpeg : CompositeRequest -> Buffer)
    (images : list ImageMetadata.t) (req : CompositeRequest) :
  composed (generateThumbnailComposite fetch sharp_resize sharp_jpeg images)
  = Some req ->
  let n := Z.of_nat (Nat.min 15 (length images)) in
  canvas_width req = 808
  /\ canvas_height req = 266 * ((n + 2) / 3) + 10
  /\ Forall (layer_on_canvas req) (layers req).
Proof.
  rewrite generateThumbnailComposite_run.
  pose proof (successes_in fetch sharp_resize images) as Hin.
  destruct (successes fetch sharp_resize images) as [|v vs] eqn:Hs;
    [discriminate|].
  cbn [composed]. intros [= <-]. cbv zeta.
  assert (Hn : 1 <= Z.of_nat (length (retained images))
               <= MAX_IMAGES_IN_COMPOSITE).
  { rewrite retained_length. unfold MAX_IMAGES_IN_COMPOSITE. split; [|lia].
    destruct v as [b i].
    destruct (proj1 (Hin b i) (or_introl eq_refl)) as (m & img & _ & Hm & _).
    apply nth_error_lt in Hm. rewrite retained_length in Hm. lia. }
  unfold canvas_request. cbn [canvas_width canvas_height layers].
  rewrite (grid_rows _ Hn). rewrite Hs. rewrite retained_length in *.
  set (n := Z.of_nat (Nat.min 15 (length images))) in *.
  unfold COLUMNS, THUMBNAIL_SIZE, SPACING.
  split; [reflexivity|]. split; [lia|].
  assert (Hcell : forall b i, In (b, i) (v :: vs) ->
            0 <= i / 3 <= (n + 2) / 3 - 1 /\ 0 <= Z.rem i 3 <= 2).
  { intros b i Hbi. apply Hin in Hbi as (m & img & -> & Hm & _).
    apply nth_error_lt in Hm. rewrite retained_length in Hm.
    rewrite Z.rem_mod_nonneg by lia.
    pose proof (Z.mod_pos_bound (Z.of_nat m) 3 ltac:(lia)).
    pose proof (Z.div_pos (Z.of_nat m) 3 ltac:(lia) ltac:(lia)).
    assert (Z.of_nat m / 3 <= (n - 1) / 3) by (apply Z.div_le_mono; lia).
    replace (n + 2) with (n - 1 + 1 * 3) by lia.
    rewrite Z.div_add by lia. lia. }
  apply Forall_app. split; apply Forall_forall; intros layer Hl;
    apply in_map_iff in Hl as ([b i] & <- & Hbi);
    destruct (Hcell b i Hbi) as [Hrow Hcol];
    unfold layer_on_canvas, thumbnail_layer, overlay_layer, cell_top,
      cell_left, COLUMNS, THUMBNAIL_SIZE, SPACING;
    cbn [top left fst snd canvas_width canvas_height]; nia.
Qed.

Lemma generateThumbnailComposite_canvas_witness :
  exists req,
    composed (generateThumbnailComposite fetch_second_missing resize_keeps
                jpeg_markers (repeat (sample_image 1 800 600) 7)) = Some req
    /\ canvas_width req = 808 /\ canvas_height req = 808.
Proof.
  destruct (composed (generateThumbnailComposite fetch_second_missing
                        resize_keeps jpeg_markers
                        (repeat (sample_image 1 800 600) 7))) as [req|] eqn:E.
  - exists req. split; [reflexivity|].
    destruct (generateThumbnailComposite_canvas _ _ _ _ _ E) as (Hw & Hh & _).
    split; [exact Hw|]. rewrite Hh. reflexivity.
  - vm_compute in E. discriminate E.
Defined.

(** What a call returns is base64 text, whatever happens to the items,
    when the stream [sharp] encodes is made of bytes: four units for
    every three bytes begun, each a letter, a digit, [+], [/] or the
    padding [=]. *)
Theorem generateThumbnailComposite_base64
    (fetch : Z -> jsstring -> FetchOutcome)
    (sharp_resize : Buffer -> option Buffer)
    (sharp_jpeg : CompositeRequest -> Buffer)
    (images : list ImageMetadata.t) :
  (forall req, Forall is_byte (sharp_jpeg req)) ->
  let text :=
    returned (generateThumbnailComposite fetch sharp_resize sharp_jpeg images)
  in
  (Z.of_nat (length text) mod 4 = 0)
  /\ Forall (fun c => base64_unit c = true) text
  /\ (composed (generateThumbnailComposite fetch sharp_resize sharp_jpeg
                  images) = None -> text = []).
Proof.
  intros Hbytes. cbv zeta. rewrite generateThumbnailComposite_run.
  destruct (successes fetch sharp_resize images);
    cbn [returned composed].
  - split; [reflexivity|]. split; [constructor|reflexivity].
  - destruct (base64_shape _ (Hbytes (canvas_request fetch sharp_resize
                                        images))) as [Hlen Hunits].
    split; [|split; [exact Hunits|discriminate]].
    rewrite Hlen, Z.mul_comm. apply Z.mod_mul. lia.
Qed.

Lemma generateThumbnailComposite_base64_witness :
  returned (generateThumbnailComposite fetch_all_ok resize_keeps jpeg_markers
              [sample_image 1 800 600]) = lit "/9j/2Q=="
  /\ Forall (fun c => base64_unit c = true) (lit "/9j/2Q==").
Proof.
  assert (Hrun : returned (generateThumbnailComposite fetch_all_ok
                             resize_keeps jpeg_markers
                             [sample_image 1 800 600]) = lit "/9j/2Q==")
    by (vm_compute; reflexivity).
  split; [exact Hrun|]. rewrite <- Hrun.
  apply (generateThumbnailComposite_base64 fetch_all_ok resize_keeps
           jpeg_markers [sample_image 1 800 600]).
  intros req. unfold jpeg_markers, is_byte.
  repeat constructor.
Defined.

(** ** The width segment of a thumbnail URL *)

Lemma skip_digits_slash (u x : jsstring) :
  skip_digits (u ++ slash :: x) = skip_digits u ++ slash :: x.
Proof.
  induction u as [|c u IH]; [reflexivity|].
  cbn [app skip_digits]. destruct (is_digit c); [exact IH|reflexivity].
Qed.

(** A match that begins in front of a [/] ends in front of it: what
    follows the [/] does not decide it. *)
Lemma match_before_slash (b x y : jsstring) :
  b <> [] ->
  match_width_segment (b ++ slash :: x) = None ->
  match_width_segment (b ++ slash :: y) = None.
Proof.
  intros Hb. destruct b as [|c [|d u]]; [contradiction| |].
  { intros _. cbn [app match_width_segment].
    change (is_digit slash) with false. rewrite andb_false_r. reflexivity. }
  cbn [app match_width_segment].
  destruct ((c =? slash)%N && is_digit d)%bool; [|reflexivity].
  change (d :: u ++ slash :: x) with ((d :: u) ++ slash :: x).
  change (d :: u ++ slash :: y) with ((d :: u) ++ slash :: y).
  rewrite !skip_digits_slash.
  destruct (skip_digits (d :: u)) as [|p [|q [|m rest]]]; cbn [app].
  - intros _. destruct y as [|y1 [|y2 yr]]; reflexivity.
  - intros _. destruct y as [|y1 yr]; [reflexivity|].
    destruct (p =? 112)%N; reflexivity.
  - intros _. destruct (p =? 112)%N, (q =? 120)%N; reflexivity.
  - destruct ((p =? 112) && (q =? 120) && (m =? 45))%N;
      [discriminate|reflexivity].
Qed.

Lemma uint_digits (d : Decimal.uint) :
  forallb is_digit (lit (NilEmpty.string_of_uint d)) = true.
Proof. induction d; cbn; auto. Qed.

Lemma number_to_string_digits (z : Z) :
  0 <= z ->
  number_to_string z <> [] /\ forallb is_digit (number_to_string z) = true.
Proof.
  intros Hz. unfold number_to_string.
  destruct z as [|p|p]; [split; [discriminate|reflexivity]| |lia].
  cbn [Z.to_int NilZero.string_of_int].
  unfold NilZero.string_of_uint.
  destruct (Pos.to_uint p) eqn:E;
    try (split; [discriminate|rewrite <- E at 1; apply uint_digits
                                || apply (uint_digits (_ u))]).
  split; [discriminate|reflexivity].
Qed.

Lemma replace_at_leftmost (url before digits after replacement : jsstring) :
  occurs_at url before digits after -> leftmost url before ->
  replace_width_segment url replacement = before ++ replacement ++ after
  /\ forall b1 b2, before = b1 ++ b2 -> b2 <> [] ->
                   match_width_segment (b2 ++ width_segment digits ++ after)
                   = None.
Proof.
  intros (Hne & Hd & ->) Hleft.
  assert (Hnone : forall b1 b2, before = b1 ++ b2 -> b2 <> [] ->
            match_width_segment (b2 ++ width_segment digits ++ after) = None).
  { intros b1 b2 -> Hb2.
    destruct (match_width_segment _) as [rest|] eqn:Hm; [|reflexivity].
    exfalso.
    apply match_width_segment_some in Hm as (digits' & Hne' & Hd' & Heq).
    assert (Hlen : (length (b1 ++ b2) <= length b1)%nat).
    { apply (Hleft b1 digits' rest). repeat split; try assumption.
      rewrite <- app_assoc, Heq. reflexivity. }
    rewrite length_app in Hlen. destruct b2; [contradiction|].
    cbn in Hlen. lia. }
  split; [|exact Hnone].
  apply replace_leftmost_match; [|exact Hnone].
  apply match_width_segment_complete; assumption.
Qed.

Lemma has_segment_leftmost (url : jsstring) :
  has_width_segment url ->
  exists before digits after,
    occurs_at url before digits after /\ leftmost url before.
Proof.
  intros (b0 & d0 & a0 & H0).
  remember (length b0) as n eqn:Hn. revert b0 d0 a0 H0 Hn.
  induction n as [n IH] using lt_wf_ind. intros b0 d0 a0 H0 Hn.
  destruct (no_match_before (length b0) url) eqn:Hcheck.
  - exists b0, d0, a0. split; [exact H0|apply leftmost_check, Hcheck].
  - assert (Hex : exists b1 d1 a1,
               occurs_at url b1 d1 a1 /\ (length b1 < length b0)%nat).
    { clear IH Hn H0. revert url Hcheck.
      induction b0 as [|c b0 IHb]; intros url Hcheck; [discriminate|].
      cbn [length no_match_before] in Hcheck.
      destruct url as [|x url]; [discriminate|].
      destruct (match_width_segment (x :: url)) as [rest|] eqn:Hm.
      - apply match_width_segment_some in Hm as (d1 & Hne & Hd & Heq).
        exists [], d1, rest. split; [repeat split; assumption|cbn; lia].
      - destruct (IHb url Hcheck) as (b1 & d1 & a1 & (Hne & Hd & ->) & Hlt).
        exists (x :: b1), d1, a1.
        split; [repeat split; assumption|cbn; lia]. }
    destruct Hex as (b1 & d1 & a1 & H1 & Hlt).
    apply (IH (length b1) ltac:(lia) b1 d1 a1 H1 eq_refl).
Qed.

(** Rewriting a URL twice to the same width is rewriting it once, for a
    width that is not negative and below [2^53], which is written as its
    decimal digits: the segment the first call writes is the one the
    second call finds. *)
Theorem replaceUrlWidth_twice (url : jsstring) (z : Z) :
  0 <= z < 2 ^ 53 ->
  replaceUrlWidth (replaceUrlWidth url (Finite z)) (Finite z)
  = replaceUrlWidth url (Finite z).
Proof.
  intros [Hz _]. destruct (number_to_string_digits z Hz) as [Hne Hd].
  unfold replaceUrlWidth. cbn [number_image].
  set (repl := lit "/" ++ number_to_string z ++ lit "px-").
  assert (Hrepl : repl = width_segment (number_to_string z)) by reflexivity.
  destruct (no_match_before (S (length url)) url) eqn:Hcheck.
  - assert (Hsame : replace_width_segment url repl = url).
    { apply replace_no_match. intros before s ->.
      destruct (match_width_segment s) as [rest|] eqn:Hm; [|reflexivity].
      rewrite no_match_before_sound in Hcheck;
        [discriminate|congruence|rewrite length_app; lia]. }
    rewrite !Hsame. reflexivity.
  - assert (Hhas : has_width_segment url).
    { clear - Hcheck. revert Hcheck. generalize (S (length url)).
      intros n. revert url. induction n as [|n IH]; intros url Hcheck;
        [discriminate|].
      destruct url as [|x url]; [discriminate|].
      cbn [no_match_before] in Hcheck.
      destruct (match_width_segment (x :: url)) as [rest|] eqn:Hm.
      - apply match_width_segment_some in Hm as (d1 & Hne & Hd & Heq).
        exists [], d1, rest. repeat split; assumption.
      - destruct (IH url Hcheck) as (b1 & d1 & a1 & Hne & Hd & ->).
        exists (x :: b1), d1, a1. repeat split; assumption. }
    destruct (has_segment_leftmost url Hhas)
      as (before & digits & after & Hocc & Hleft).
    destruct (replace_at_leftmost url before digits after repl Hocc Hleft)
      as [Hfirst Hnone].
    rewrite Hfirst.
    apply (replace_leftmost_match before (repl ++ after) after repl).
    + rewrite Hrepl. apply match_width_segment_complete; assumption.
    + intros b1 b2 Hsplit Hb2. rewrite Hrepl. unfold width_segment.
      cbn [app]. rewrite <- app_assoc.
      apply (match_before_slash b2 (digits ++ lit "px-" ++ after));
        [exact Hb2|].
      specialize (Hnone b1 b2 Hsplit Hb2). unfold width_segment in Hnone.
      cbn [app] in Hnone. rewrite <- app_assoc in Hnone. exact Hnone.
Qed.

Lemma replaceUrlWidth_twice_witness :
  replaceUrlWidth
    (replaceUrlWidth (lit "https://upload.example/Cat.jpg/256px-Cat.jpg")
                     (Finite 192))
    (Finite 192)
  = replaceUrlWidth (lit "https://upload.example/Cat.jpg/256px-Cat.jpg")
                    (Finite 192).
Proof. apply replaceUrlWidth_twice. split; [lia|reflexivity]. Defined.

(** A record at least as wide as high, whose URL has ["/256px-"] for its
    leftmost width segment, is requested at its stored URL. *)
Theorem fetch_url_landscape (img : ImageMetadata.t) (before after : jsstring) :
  ImageMetadata.height img <= ImageMetadata.width img ->
  occurs_at (ImageMetadata.url img) before (lit "256") after ->
  leftmost (ImageMetadata.url img) before ->
  fetch_url img = ImageMetadata.url img.
Proof.
  intros Hwide Hocc Hleft. unfold fetch_url, calculateThumbnailWidth.
  replace (ImageMetadata.height img >? ImageMetadata.width img) with false
    by (symmetry; rewrite Z.gtb_ltb; apply Z.ltb_ge, Hwide).
  unfold replaceUrlWidth.
  destruct (replace_at_leftmost _ before (lit "256") after
              (lit "/" ++ number_image (Finite THUMBNAIL_SIZE) ++ lit "px-")
              Hocc Hleft) as [-> _].
  destruct Hocc as (_ & _ & ->). reflexivity.
Qed.

Lemma fetch_url_landscape_witness :
  fetch_url (sample_image 1 800 600)
  = ImageMetadata.url (sample_image 1 800 600).
Proof.
  apply (fetch_url_landscape (sample_image 1 800 600)
           (lit "https://upload.example/thumb/Cat.jpg") (lit "Cat.jpg")).
  - cbn. lia.
  - split; [discriminate|]. split; reflexivity.
  - apply leftmost_check. vm_compute. reflexivity.
Defined.

(** ** The request URL *)

Lemma code_points_two (x y : N) (s : jsstring) :
  code_points (x :: y :: s)
  = if is_high_surrogate x then
      if is_low_surrogate y
      then (65536 + (x - 55296) * 1024 + (y - 56320))%N :: code_points s
      else 65533%N :: code_points (y :: s)
    else if is_low_surrogate x then 65533%N :: code_points (y :: s)
    else x :: code_points (y :: s).
Proof. reflexivity. Qed.

Lemma code_points_bound (s : jsstring) :
  code_units s ->
  Forall (fun c => (c < 1114112)%N) (code_points s).
Proof.
  unfold code_units.
  assert (Hall : forall s,
             (Forall (fun c => (c < 65536)%N) s ->
              Forall (fun c => (c < 1114112)%N) (code_points s))
             /\ (forall x, Forall (fun c => (c < 65536)%N) (x :: s) ->
                           Forall (fun c => (c < 1114112)%N)
                                  (code_points (x :: s)))).
  { clear s. induction s as [|y s [IH0 IH1]].
    - split; [constructor|]. intros x Hx. inversion Hx; subst. cbn.
      destruct (is_high_surrogate x); [repeat constructor|].
      destruct (is_low_surrogate x); repeat constructor. lia.
    - split; [apply IH1|]. intros x Hx.
      inversion Hx as [|? ? Hx0 Hys]; subst.
      inversion Hys as [|? ? Hy0 Hs]; subst.
      rewrite code_points_two.
      pose proof (IH1 y Hys) as Htail. pose proof (IH0 Hs) as Hrest.
      revert Htail. generalize (code_points (y :: s)). intros tail Htail.
      destruct (is_high_surrogate x) eqn:Hhi.
      + destruct (is_low_surrogate y) eqn:Hlo.
        * constructor; [|exact Hrest].
          unfold is_high_surrogate, is_low_surrogate in *.
          apply andb_true_iff in Hhi as [_ Hhi], Hlo as [_ Hlo].
          apply N.leb_le in Hhi, Hlo. lia.
        * constructor; [lia|exact Htail].
      + destruct (is_low_surrogate x); (constructor; [lia|exact Htail]). }
  apply Hall.
Qed.

Lemma utf8_bytes (c : N) :
  (c < 1114112)%N -> Forall (fun b => (b < 256)%N) (utf8_code_point c).
Proof.
  intros Hc. unfold utf8_code_point.
  pose proof (N.mod_upper_bound c 64 ltac:(lia)).
  pose proof (N.mod_upper_bound (c / 64) 64 ltac:(lia)).
  pose proof (N.mod_upper_bound (c / 4096) 64 ltac:(lia)).
  destruct (N.ltb_spec c 128); [repeat constructor; lia|].
  destruct (N.ltb_spec c 2048).
  { assert (c / 64 < 32)%N by (apply N.Div0.div_lt_upper_bound; lia).
    repeat constructor; lia. }
  destruct (N.ltb_spec c 65536).
  { assert (c / 4096 < 16)%N by (apply N.Div0.div_lt_upper_bound; lia).
    repeat constructor; lia. }
  assert (c / 262144 < 5)%N by (apply N.Div0.div_lt_upper_bound; lia).
  repeat constructor; lia.
Qed.

Lemma hex_digit_safe (n : N) : (n < 16)%N -> form_safe (hex_digit n) = true.
Proof.
  intros Hn. destruct n as [|p]; [reflexivity|].
  do 4 (destruct p as [p|p|]; try reflexivity); exfalso; lia.
Qed.

Lemma form_encode_byte_units (b : N) :
  (b < 256)%N -> forallb encoded_unit (form_encode_byte b) = true.
Proof.
  intros Hb. unfold form_encode_byte.
  destruct (b =? 32)%N; [reflexivity|].
  destruct (form_safe b) eqn:Hs.
  - cbn. unfold encoded_unit. rewrite Hs. reflexivity.
  - cbn [forallb]. unfold encoded_unit at 1. cbn [orb].
    unfold encoded_unit.
    rewrite !hex_digit_safe;
      [reflexivity|apply N.mod_upper_bound; lia
       |apply N.Div0.div_lt_upper_bound; lia].
Qed.

Lemma form_encode_units (s : jsstring) :
  code_units s -> forallb encoded_unit (form_encode s) = true.
Proof.
  intros Hs. apply code_points_bound in Hs. unfold form_encode.
  induction Hs as [|c cs Hc _ IH]; [reflexivity|].
  cbn [flat_map]. rewrite flat_map_app, forallb_app, IH, andb_true_r.
  pose proof (utf8_bytes c Hc) as Hb.
  induction Hb as [|b bs Hb _ IHb]; [reflexivity|].
  cbn [flat_map]. rewrite forallb_app, IHb, andb_true_r.
  apply form_encode_byte_units, Hb.
Qed.

Lemma code_points_plain (s : jsstring) :
  Forall (fun c => (c < 128)%N) s -> code_points s = s.
Proof.
  induction 1 as [|c s Hc _ IH]; [reflexivity|].
  cbn [code_points].
  replace (is_high_surrogate c) with false
    by (symmetry; unfold is_high_surrogate; apply andb_false_iff; left;
        apply N.leb_gt; lia).
  replace (is_low_surrogate c) with false
    by (symmetry; unfold is_low_surrogate; apply andb_false_iff; left;
        apply N.leb_gt; lia).
  rewrite IH. reflexivity.
Qed.

Lemma form_safe_ascii (c : N) : form_safe c = true -> (c < 128)%N.
Proof.
  unfold form_safe. rewrite !orb_true_iff, !andb_true_iff, !N.leb_le, !N.eqb_eq.
  lia.
Qed.

(** Encoding leaves a text of safe units as it is. *)
Lemma form_encode_safe (s : jsstring) :
  forallb form_safe s = true -> form_encode s = s.
Proof.
  intros Hs. unfold form_encode. rewrite code_points_plain.
  - induction s as [|c s IH]; [reflexivity|].
    cbn [forallb] in Hs. apply andb_true_iff in Hs as [Hc Hs].
    cbn [flat_map]. rewrite flat_map_app, (IH Hs).
    pose proof (form_safe_ascii c Hc) as Hlt.
    unfold utf8_code_point. apply N.ltb_lt in Hlt. rewrite Hlt.
    cbn [flat_map app]. unfold form_encode_byte. rewrite Hc.
    destruct (N.eqb_spec c 32) as [->|]; [discriminate Hc|reflexivity].
  - apply Forall_forall. intros c Hin. apply form_safe_ascii.
    rewrite forallb_forall in Hs. apply Hs, Hin.
Qed.

(** Encoding goes unit by unit through a text of ASCII units. *)
Lemma form_encode_ascii_app (a b : jsstring) :
  Forall (fun c => (c < 128)%N) a ->
  form_encode (a ++ b) = form_encode a ++ form_encode b.
Proof.
  intros Ha. unfold form_encode.
  assert (Hcp : code_points (a ++ b) = a ++ code_points b).
  { induction Ha as [|c a Hc _ IH]; [reflexivity|].
    cbn [app code_points].
    replace (is_high_surrogate c) with false
      by (symmetry; unfold is_high_surrogate; apply andb_false_iff; left;
          apply N.leb_gt; lia).
    replace (is_low_surrogate c) with false
      by (symmetry; unfold is_low_surrogate; apply andb_false_iff; left;
          apply N.leb_gt; lia).
    rewrite IH. reflexivity. }
  rewrite Hcp, (code_points_plain a Ha), !flat_map_app. reflexivity.
Qed.

Lemma number_to_string_safe (z : Z) :
  forallb form_safe (number_to_string z) = true.
Proof.
  assert (Hu : forall d, forallb form_safe (lit (NilEmpty.string_of_uint d))
                         = true) by (induction d; cbn; auto).
  unfold number_to_string. destruct z as [|p|p]; [reflexivity| |];
    cbn [Z.to_int NilZero.string_of_int]; unfold NilZero.string_of_uint.
  - destruct (Pos.to_uint p) eqn:E; try (rewrite <- E; apply Hu). reflexivity.
  - destruct (Pos.to_uint p) eqn:E; cbn [lit forallb]; try reflexivity;
      change (form_safe (N_of_ascii "-")) with true; cbn [andb];
      rewrite <- E; apply Hu.
Qed.

Lemma buildWikimediaApiUrl_request (params : SearchImagesInput.t) :
  buildWikimediaApiUrl params
  = request_url (form_encode (search_query params))
                (number_to_string (total_to_fetch params)).
Proof.
  unfold buildWikimediaApiUrl, request_url. cbv zeta.
  cbn [URLSearchParams_toString].
  rewrite (form_encode_safe (number_to_string _))
    by apply number_to_string_safe.
  change (form_encode (lit "action")) with (lit "action").
  change (form_encode (lit "query")) with (lit "query").
  change (form_encode (lit "format")) with (lit "format").
  change (form_encode (lit "json")) with (lit "json").
  change (form_encode (lit "formatversion")) with (lit "formatversion").
  change (form_encode (lit "2")) with (lit "2").
  change (form_encode (lit "generator")) with (lit "generator").
  change (form_encode (lit "search")) with (lit "search").
  change (form_encode (lit "gsrsearch")) with (lit "gsrsearch").
  change (form_encode (lit "gsrnamespace")) with (lit "gsrnamespace").
  change (form_encode (lit "6")) with (lit "6").
  change (form_encode (lit "gsrlimit")) with (lit "gsrlimit").
  change (form_encode (lit "prop")) with (lit "prop").
  change (form_encode (lit "imageinfo")) with (lit "imageinfo").
  change (form_encode (lit "iiprop")) with (lit "iiprop").
  change (form_encode (lit "url|size|mime|extmetadata"))
    with (lit "url%7Csize%7Cmime%7Cextmetadata").
  change (form_encode (lit "iiurlwidth")) with (lit "iiurlwidth").
  change (form_encode (number_to_string THUMBNAIL_SIZE)) with (lit "256").
  unfold WIKIMEDIA_API_BASE.
  repeat rewrite <- app_assoc. reflexivity.
Qed.

Lemma encoded_units_count (s : jsstring) (c : N) :
  forallb encoded_unit s = true -> encoded_unit c = false ->
  count_occ N.eq_dec s c = 0%nat.
Proof.
  intros Hs Hc. apply count_occ_not_In. intros Hin.
  rewrite forallb_forall in Hs. rewrite (Hs c Hin) in Hc. discriminate Hc.
Qed.

Lemma search_query_units (params : SearchImagesInput.t) :
  code_units (SearchImagesInput.query params) ->
  code_units (search_query params).
Proof.
  unfold code_units, search_query. intros Hq.
  assert (Hlit : forall t, Forall (fun c => (c < 65536)%N) (lit t)).
  { induction t as [|a t IH]; constructor; [|exact IH].
    pose proof (N_ascii_bounded a). lia. }
  unfold CC0_WIKIDATA_ID.
  destruct (SearchImagesInput.license params);
    repeat (apply Forall_app; split); try apply Hlit; exact Hq.
Qed.

(** The request of a window that begins at [offset >= 0] and has
    [limit >= 0] places asks for [min(offset + limit + 1, 50)] pages,
    written in decimal digits. *)
Lemma total_to_fetch_text (params : SearchImagesInput.t) :
  0 <= SearchImagesInput.offset params ->
  0 <= SearchImagesInput.limit params ->
  number_to_string (total_to_fetch params)
  = decimal (Z.min (SearchImagesInput.offset params
                    + SearchImagesInput.limit params + 1) 50)
  /\ 1 <= total_to_fetch params <= 50.
Proof.
  intros Ho Hl. unfold total_to_fetch, MAX_RESULTS_LIMIT.
  split; [apply number_to_string_decimal|]; lia.
Qed.

(** The URL of a search, whatever the query, for a window with
    [offset >= 0] and [limit >= 0]: the fixed parameters in their order,
    the search text encoded, and the number of pages asked for, which is
    the end of the window plus one and never more than 50.  The encoded
    text is made of letters, digits, [*], [-], [.], [_], [+] and [%] only,
    so the URL has its ten parameters and no more: one [?], nine [&], ten
    [=] and no [#]. *)
Theorem buildWikimediaApiUrl_parameters (params : SearchImagesInput.t) :
  code_units (SearchImagesInput.query params) ->
  0 <= SearchImagesInput.offset params ->
  0 <= SearchImagesInput.limit params ->
  let url := buildWikimediaApiUrl params in
  let search := form_encode (search_query params) in
  url = request_url search
          (decimal (Z.min (SearchImagesInput.offset params
                           + SearchImagesInput.limit params + 1) 50))
  /\ total_to_fetch params <= 50
  /\ forallb encoded_unit search = true
  /\ count_occ N.eq_dec url 63%N = 1%nat
  /\ count_occ N.eq_dec url 38%N = 9%nat
  /\ count_occ N.eq_dec url 61%N = 10%nat
  /\ count_occ N.eq_dec url 35%N = 0%nat.
Proof.
  intros Hq Ho Hl. cbv zeta. rewrite buildWikimediaApiUrl_request.
  destruct (total_to_fetch_text params Ho Hl) as [Htext _].
  rewrite <- Htext.
  pose proof (form_encode_units _ (search_query_units params Hq)) as Hs.
  assert (Ht : forallb encoded_unit (number_to_string (total_to_fetch params))
               = true).
  { pose proof (number_to_string_safe (total_to_fetch params)) as H.
    rewrite forallb_forall in *. intros c Hc. unfold encoded_unit.
    rewrite (H c Hc). reflexivity. }
  split; [reflexivity|].
  split; [unfold total_to_fetch, MAX_RESULTS_LIMIT; lia|].
  split; [exact Hs|].
  unfold request_url. rewrite !count_occ_app.
  rewrite !(encoded_units_count _ _ Hs), !(encoded_units_count _ _ Ht)
    by reflexivity.
  repeat split; vm_compute; reflexivity.
Qed.

Lemma buildWikimediaApiUrl_parameters_witness :
  buildWikimediaApiUrl
    {| SearchImagesInput.query := lit "a&b=c #d";
       SearchImagesInput.limit := 20;
       SearchImagesInput.offset := 10;
       SearchImagesInput.license := all;
       SearchImagesInput.include_thumbnails := false |}
  = request_url (lit "a%26b%3Dc+%23d+filemime%3Aimage%2F*") (lit "31").
Proof.
  set (params := {| SearchImagesInput.query := lit "a&b=c #d";
                    SearchImagesInput.limit := 20;
                    SearchImagesInput.offset := 10;
                    SearchImagesInput.license := all;
                    SearchImagesInput.include_thumbnails := false |}).
  rewrite (proj1 (buildWikimediaApiUrl_parameters params
                    ltac:(unfold code_units; cbn; repeat constructor)
                    ltac:(cbn; lia) ltac:(cbn; lia))).
  vm_compute. reflexivity.
Defined.

Lemma alphanumeric_safe (s : jsstring) :
  alphanumeric s -> forallb form_safe s = true.
Proof.
  induction 1 as [|c s Hc _ IH]; [reflexivity|].
  cbn [forallb]. rewrite IH, andb_true_r. unfold form_safe. rewrite Hc.
  reflexivity.
Qed.

(** A query of letters and digits stands in the URL as it is, followed by
    the file-type filter and, for [no_restrictions], the license filter,
    with their spaces as [+] and their punctuation in hexadecimal; the
    window has [offset >= 0] and [limit >= 0]. *)
Theorem buildWikimediaApiUrl_keyword (params : SearchImagesInput.t) :
  alphanumeric (SearchImagesInput.query params) ->
  0 <= SearchImagesInput.offset params ->
  0 <= SearchImagesInput.limit params ->
  buildWikimediaApiUrl params
  = request_url
      (SearchImagesInput.query params ++ lit "+filemime%3Aimage%2F*"
       ++ match SearchImagesInput.license params with
          | no_restrictions => lit "+haswbstatement%3AP275%3DQ6938433"
          | all => []
          end)
      (decimal (Z.min (SearchImagesInput.offset params
                       + SearchImagesInput.limit params + 1) 50)).
Proof.
  intros Hq Ho Hl. rewrite buildWikimediaApiUrl_request.
  destruct (total_to_fetch_text params Ho Hl) as [-> _]. f_equal.
  pose proof (alphanumeric_safe _ Hq) as Hsafe.
  assert (Hascii : Forall (fun c => (c < 128)%N)
                          (SearchImagesInput.query params)).
  { apply Forall_forall. intros c Hc. apply form_safe_ascii.
    rewrite forallb_forall in Hsafe. apply Hsafe, Hc. }
  unfold search_query.
  destruct (SearchImagesInput.license params).
  - rewrite <- app_assoc, form_encode_ascii_app by exact Hascii.
    rewrite (form_encode_safe _ Hsafe). reflexivity.
  - rewrite form_encode_ascii_app by exact Hascii.
    rewrite (form_encode_safe _ Hsafe), app_nil_r. reflexivity.
Qed.

Lemma buildWikimediaApiUrl_keyword_witness :
  buildWikimediaApiUrl
    {| SearchImagesInput.query := lit "cats";
       SearchImagesInput.limit := 10;
       SearchImagesInput.offset := 0;
       SearchImagesInput.license := no_restrictions;
       SearchImagesInput.include_thumbnails := false |}
  = request_url
      (lit "cats" ++ lit "+filemime%3Aimage%2F*"
       ++ lit "+haswbstatement%3AP275%3DQ6938433")
      (lit "11").
Proof.
  apply (buildWikimediaApiUrl_keyword
           {| SearchImagesInput.query := lit "cats";
              SearchImagesInput.limit := 10;
              SearchImagesInput.offset := 0;
              SearchImagesInput.license := no_restrictions;
              SearchImagesInput.include_thumbnails := false |}).
  - unfold alphanumeric. cbn. repeat constructor.
  - cbn. lia.
  - cbn. lia.
Defined.

(** The ceiling of the paging.  For a document with no more pages than
    the request asks for, [hasMore] is true only when the window ends
    before the 50th result, and a page holds no record beyond the 50th:
    from [offset + limit >= 50] on the last page is never announced, and
    from [offset >= 50] on every page is empty. *)
Theorem parseWikimediaResponse_ceiling
    (doc : WikimediaApiResponse.t) (params : SearchImagesInput.t) :
  0 <= SearchImagesInput.offset params ->
  1 <= SearchImagesInput.limit params ->
  Z.of_nat (length (document_pages doc)) <= total_to_fetch params ->
  match snd (parseWikimediaResponse doc params) with
  | inl _ => WikimediaApiResponse.error doc <> None
  | inr r =>
      (SearchResult.hasMore r = true ->
       SearchImagesInput.offset params + SearchImagesInput.limit params
       < MAX_RESULTS_LIMIT)
      /\ Z.of_nat (length (SearchResult.images r))
         <= Z.max 0 (MAX_RESULTS_LIMIT - SearchImagesInput.offset params)
  end.
Proof.
  intros Ho Hl Hfetch. rewrite parseWikimediaResponse_result.
  destruct (WikimediaApiResponse.error doc); [discriminate|].
  cbv zeta. cbn [SearchResult.hasMore SearchResult.images].
  unfold total_to_fetch, MAX_RESULTS_LIMIT in *. split.
  - intros H. apply andb_true_iff in H as [_ H]. apply Z.ltb_lt in H. lia.
  - pose proof (records_of_length (page_window doc params)) as Hrec.
    unfold page_window in *.
    set (sorted := array_sort compare_pages (document_pages doc)) in *.
    assert (Hlen : length sorted = length (document_pages doc))
      by apply array_sort_length.
    set (len := Z.of_nat (length sorted)) in *.
    pose proof (array_slice_length sorted
                  (Z.min (SearchImagesInput.offset params) len)
                  (Z.min (SearchImagesInput.offset params
                          + SearchImagesInput.limit params) len)
                  ltac:(lia) ltac:(lia)) as Hslice.
    lia.
Qed.

Lemma parseWikimediaResponse_ceiling_witness :
  match snd (parseWikimediaResponse sample_unordered (sample_params 48 9)) with
  | inl _ => False
  | inr r => SearchResult.hasMore r = false
  end.
Proof.
  pose proof (parseWikimediaResponse_ceiling sample_unordered
                (sample_params 48 9) ltac:(cbn; lia) ltac:(cbn; lia)
                ltac:(vm_compute; discriminate)) as H.
  destruct (snd (parseWikimediaResponse sample_unordered (sample_params 48 9)))
    as [e|r].
  - apply H. reflexivity.
  - destruct H as [H _]. destruct (SearchResult.hasMore r); [|reflexivity].
    specialize (H eq_refl). cbn in H. unfold MAX_RESULTS_LIMIT in H. lia.
Defined.

(** ** Rounding to a double *)

Lemma floor_log2_lower (n d : positive) :
  let e := Float.floor_log2 n d in
  (0 <= e -> Zpos d * 2 ^ e <= Zpos n)
  /\ (e < 0 -> Zpos d <= Zpos n * 2 ^ (- e)).
Proof.
  unfold Float.floor_log2.
  pose proof (Z.log2_spec (Zpos n) ltac:(lia)) as [Hn _].
  pose proof (Z.log2_spec (Zpos d) ltac:(lia)) as [_ Hd].
  pose proof (Z.log2_nonneg (Zpos n)) as Hln.
  pose proof (Z.log2_nonneg (Zpos d)) as Hld.
  set (ln := Z.log2 (Zpos n)) in *. set (ld := Z.log2 (Zpos d)) in *.
  replace (Z.succ ld) with (ld + 1) in Hd by lia.
  destruct (Z.leb_spec (Zpos d * 2 ^ Z.max 0 (ln - ld))
                       (Zpos n * 2 ^ Z.max 0 (- (ln - ld)))) as [Ht|Ht];
    cbv zeta.
  - split; intros He.
    + rewrite Z.max_r in Ht by lia. rewrite (Z.max_l 0) in Ht by lia.
      rewrite Z.pow_0_r in Ht. lia.
    + rewrite Z.max_l in Ht by lia. rewrite (Z.max_r 0) in Ht by lia.
      rewrite Z.pow_0_r in Ht. lia.
  - split; intros He.
    + assert (H2 : 2 ^ (ld + 1) * 2 ^ (ln - ld - 1) = 2 ^ ln)
        by (rewrite <- Z.pow_add_r by lia; f_equal; lia).
      assert (0 < 2 ^ (ln - ld - 1)) by (apply Z.pow_pos_nonneg; lia).
      nia.
    + assert (H2 : 2 ^ ln * 2 ^ (- (ln - ld - 1)) = 2 ^ (ld + 1))
        by (rewrite <- Z.pow_add_r by lia; f_equal; lia).
      assert (0 < 2 ^ (- (ln - ld - 1))) by (apply Z.pow_pos_nonneg; lia).
      nia.
Qed.

Lemma scaled_lower (n d : positive) :
  let k := 52 - Float.floor_log2 n d in
  (0 <= k -> 2 ^ 52 * Zpos d <= Zpos n * 2 ^ k)
  /\ (k < 0 -> 2 ^ 52 * (Zpos d * 2 ^ (- k)) <= Zpos n).
Proof.
  cbv zeta. destruct (floor_log2_lower n d) as [Hpos Hneg]. cbv zeta in *.
  set (e := Float.floor_log2 n d) in *. split; intros Hk.
  - destruct (Z.le_gt_cases 0 e) as [He|He].
    + specialize (Hpos He).
      assert (H2 : 2 ^ e * 2 ^ (52 - e) = 2 ^ 52)
        by (rewrite <- Z.pow_add_r by lia; f_equal; lia).
      assert (0 < 2 ^ (52 - e)) by (apply Z.pow_pos_nonneg; lia).
      nia.
    + specialize (Hneg He).
      assert (H2 : 2 ^ (- e) * 2 ^ 52 = 2 ^ (52 - e))
        by (rewrite <- Z.pow_add_r by lia; f_equal; lia).
      assert (0 < 2 ^ 52) by (apply Z.pow_pos_nonneg; lia).
      nia.
  - specialize (Hpos ltac:(lia)).
    assert (H2 : 2 ^ 52 * 2 ^ (- (52 - e)) = 2 ^ e)
      by (rewrite <- Z.pow_add_r by lia; f_equal; lia).
    nia.
Qed.

Lemma round_half_even_error (x : Q) :
  2 * Z.abs (Float.round_half_even x * Zpos (Qden x) - Qnum x)
  <= Zpos (Qden x).
Proof.
  unfold Float.round_half_even.
  pose proof (Z.div_mod (Qnum x) (Zpos (Qden x)) ltac:(lia)) as Hdm.
  pose proof (Z.mod_pos_bound (Qnum x) (Zpos (Qden x)) ltac:(lia)) as Hm.
  set (f := Qnum x / Zpos (Qden x)) in *.
  set (r := Qnum x mod Zpos (Qden x)) in *.
  destruct (Z.compare_spec (2 * r) (Zpos (Qden x))) as [Hc|Hc|Hc];
    [destruct (Z.even f)| |]; nia.
Qed.

Lemma Qabs_Zle (a : Z) (b : positive) (c : Z) (e : positive) :
  Z.abs a * Zpos e <= c * Zpos b -> (Qabs (a # b) <= c # e)%Q.
Proof. intros H. unfold Qle. cbn. exact H. Qed.

Lemma round_pos_error (n d : positive) :
  (Qabs (Float.round_pos n d - (Zpos n # d)) <= (Zpos n # d) * eps)%Q.
Proof.
  unfold Float.round_pos.
  destruct (scaled_lower n d) as [Hpos Hneg]. cbv zeta in *.
  generalize dependent (Float.floor_log2 n d). intros e.
  replace (e - 52) with (- (52 - e)) by lia.
  generalize (52 - e). clear e. intros k Hpos Hneg.
  rewrite Qred_correct.
  pose proof (round_half_even_error (Float.scale2 (Zpos n # d) k)) as Herr.
  set (m := Float.round_half_even (Float.scale2 (Zpos n # d) k)) in *.
  unfold Float.scale2 in *. cbn [Qnum Qden inject_Z] in *.
  assert (H52 : 2 ^ 52 = 4503599627370496) by reflexivity.
  destruct (Z.leb_spec 0 k) as [Hk|Hk].
  - specialize (Hpos Hk). cbn [Qnum Qden] in Herr.
    assert (Hp : 0 < 2 ^ k) by (apply Z.pow_pos_nonneg; lia).
    destruct (Z.leb_spec 0 (- k)) as [Hk0|Hk0].
    + assert (k = 0) by lia. subst k. replace (- 0) with 0 in * by lia.
      rewrite Z.pow_0_r in *.
      unfold eps, Qminus, Qplus, Qopp, Qmult. cbn [Qnum Qden].
      apply Qabs_Zle. rewrite !Pos2Z.inj_mul. nia.
    + replace (- - k) with k by lia.
      unfold eps, Qminus, Qplus, Qopp, Qmult. cbn [Qnum Qden].
      apply Qabs_Zle. rewrite !Pos2Z.inj_mul, Z2Pos.id by lia. nia.
  - specialize (Hneg Hk). cbn [Qnum Qden] in Herr.
    assert (Hp : 0 < 2 ^ (- k)) by (apply Z.pow_pos_nonneg; lia).
    rewrite Pos2Z.inj_mul, Z2Pos.id in Herr by lia.
    destruct (Z.leb_spec 0 (- k)) as [Hk0|Hk0]; [|lia].
    unfold eps, Qminus, Qplus, Qopp, Qmult. cbn [Qnum Qden].
    apply Qabs_Zle. rewrite !Pos2Z.inj_mul. nia.
Qed.

Lemma round_double_error (q : Q) :
  (0 < q)%Q ->
  (q * (1 - eps) <= Float.round_double q <= q * (1 + eps))%Q.
Proof.
  intros Hq. destruct q as [num den]. unfold Qlt in Hq. cbn in Hq.
  destruct num as [|n|n]; try lia.
  unfold Float.round_double. cbn [Qnum Qden].
  pose proof (round_pos_error n den) as H.
  apply Qabs_Qle_condition in H. unfold eps in *. lra.
Qed.

(** A record higher than wide, of positive width: the width asked for is
    an integer between 0 and 256, less than one pixel away from the width
    that keeps the proportions when the height becomes 256. *)
Theorem calculateThumbnailWidth_portrait (width height : Z) :
  0 < width -> width < height ->
  exists w,
    calculateThumbnailWidth width height = Finite w
    /\ 0 <= w <= THUMBNAIL_SIZE
    /\ Z.abs (w * height - THUMBNAIL_SIZE * width) < height.
Proof.
  intros Hw Hh. unfold calculateThumbnailWidth.
  replace (height >? width) with true
    by (symmetry; rewrite Z.gtb_ltb; apply Z.ltb_lt, Hh).
  replace (height =? 0) with false by (symmetry; apply Z.eqb_neq; lia).
  eexists. split; [reflexivity|].
  unfold Float.div, Float.mul, Float.Math_round, THUMBNAIL_SIZE.
  set (W := inject_Z width). set (H := inject_Z height).
  assert (HW : (0 < W)%Q)
    by (unfold W; change 0%Q with (inject_Z 0); rewrite <- Zlt_Qlt;
        exact Hw).
  assert (HWH : (W + 1 <= H)%Q).
  { unfold W, H. change 1%Q with (inject_Z 1).
    rewrite <- inject_Z_plus, <- Zle_Qle. lia. }
  change (inject_Z 256) with 256%Q.
  set (q1 := (256 / H)%Q).
  assert (Hq1 : (q1 * H == 256)%Q) by (unfold q1; field; lra).
  assert (Hq1pos : (0 < q1)%Q).
  { unfold q1. apply Qlt_shift_div_l; lra. }
  pose proof (round_double_error q1 Hq1pos) as Hs.
  set (s := Float.round_double q1) in *.
  assert (Hspos : (0 < s)%Q) by (unfold eps in Hs; nra).
  assert (Hq2pos : (0 < W * s)%Q) by nra.
  pose proof (round_double_error (W * s)%Q Hq2pos) as Hy.
  set (y := Float.round_double (W * s)) in *.
  pose proof (Qfloor_le (y + (1 # 2))) as Hfl.
  pose proof (Qlt_floor (y + (1 # 2))) as Hfu.
  set (r := Qfloor (y + (1 # 2))) in *.
  rewrite inject_Z_plus in Hfu. change (inject_Z 1) with 1%Q in Hfu.
  set (R := inject_Z r) in *.
  unfold eps in *.
  assert (HsH : (256 * (1 - (1 # 9007199254740992)) <= s * H
                 <= 256 * (1 + (1 # 9007199254740992)))%Q) by nra.
  assert (HyH : (W * (s * H) * (1 - (1 # 9007199254740992)) <= y * H
                 <= W * (s * H) * (1 + (1 # 9007199254740992)))%Q) by nra.
  assert (Hup : (R * H < 256 * W + H)%Q) by nra.
  assert (Hlo : (256 * W < R * H + H)%Q) by nra.
  assert (HR : (-1 < R /\ R < 257)%Q) by nra.
  unfold R, W, H in *.
  change 256%Q with (inject_Z 256) in Hup, Hlo.
  rewrite <- !inject_Z_mult in Hup, Hlo.
  rewrite <- inject_Z_plus in Hup, Hlo.
  rewrite <- Zlt_Qlt in Hup, Hlo.
  destruct HR as [HR1 HR2].
  change (-1)%Q with (inject_Z (-1)) in HR1.
  change 257%Q with (inject_Z 257) in HR2.
  rewrite <- Zlt_Qlt in HR1, HR2. lia.
Qed.

Lemma calculateThumbnailWidth_portrait_witness :
  exists w,
    calculateThumbnailWidth 600 800 = Finite w
    /\ 0 <= w <= THUMBNAIL_SIZE
    /\ Z.abs (w * 800 - THUMBNAIL_SIZE * 600) < 800.
Proof. apply calculateThumbnailWidth_portrait; lia. Defined.

Example calculateThumbnailWidth_samples :
  calculateThumbnailWidth 600 800 = Finite 192
  /\ calculateThumbnailWidth 800 600 = Finite 256
  /\ calculateThumbnailWidth 1 1000 = Finite 0
  /\ calculateThumbnailWidth (-5) 0 = NegInfinity.
Proof. vm_compute. repeat split. Qed.

(** ** The search tool *)

Lemma half_exact (p : positive) :
  Zpos p < 2 ^ 53 ->
  (Float.round_pos p 2 == Zpos p # 2)%Q.
Proof.
  intros Hp. unfold Float.round_pos.
  assert (He : Float.floor_log2 p 2 <= 51).
  { unfold Float.floor_log2.
    assert (Z.log2 (Zpos p) < 53) by (apply Z.log2_lt_pow2; lia).
    change (Z.log2 2) with 1. destruct (_ <=? _); lia. }
  generalize dependent (Float.floor_log2 p 2). intros e He.
  replace (e - 52) with (- (52 - e)) by lia.
  assert (Hk : 1 <= 52 - e) by lia.
  generalize dependent (52 - e). clear e He. intros k Hk.
  rewrite Qred_correct.
  assert (Hpow : 2 ^ k = 2 * 2 ^ (k - 1)).
  { replace k with (1 + (k - 1)) at 1 by lia.
    rewrite Z.pow_add_r by lia. reflexivity. }
  assert (Hpos : 0 < 2 ^ (k - 1)) by (apply Z.pow_pos_nonneg; lia).
  assert (Hm : Float.round_half_even (Float.scale2 (Zpos p # 2) k)
               = Zpos p * 2 ^ (k - 1)).
  { unfold Float.scale2, Float.round_half_even.
    replace (0 <=? k) with true by (symmetry; apply Z.leb_le; lia).
    cbn [Qnum Qden]. rewrite Hpow.
    replace (Zpos p * (2 * 2 ^ (k - 1))) with (Zpos p * 2 ^ (k - 1) * 2)
      by ring.
    rewrite Z.mod_mul, Z.div_mul by lia. reflexivity. }
  rewrite Hm. unfold Float.scale2.
  replace (0 <=? - k) with false by (symmetry; apply Z.leb_gt; lia).
  cbn [Qnum Qden inject_Z]. replace (- - k) with k by lia.
  unfold Qeq. cbn [Qnum Qden]. rewrite Pos2Z.inj_mul, Z2Pos.id by lia.
  rewrite Hpow. ring.
Qed.

Lemma half_count_div (images : list ImageMetadata.t) :
  Z.of_nat (length images) < 2 ^ 53 ->
  half_count images = Z.of_nat (length images) / 2.
Proof.
  intros Hn. unfold half_count, Float.div.
  destruct (length images) as [|n] eqn:E; [reflexivity|].
  rewrite <- E in *. clear E n.
  destruct (Z.of_nat (length images)) as [|p|p] eqn:Ep; [reflexivity| |lia].
  unfold Qdiv, Qmult, Qinv, Float.round_double. cbn [Qnum Qden inject_Z].
  change (Z.pos p * 1) with (Z.pos (p * 1)). rewrite Pos.mul_1_r.
  cbn [Pos.mul]. rewrite (Qfloor_comp _ _ (half_exact p Hn)).
  reflexivity.
Qed.

Section ToolProperties.

Variable api : jsstring -> ApiOutcome.
Variable yaml_dump : list ImageMetadata.t -> jsstring.
Variable fetch : Z -> jsstring -> FetchOutcome.
Variable sharp_resize : Buffer -> option Buffer.
Variable sharp_jpeg : CompositeRequest -> Buffer.

Local Abbreviation tool :=
  (wikimedia_search_images api yaml_dump fetch sharp_resize sharp_jpeg).

Lemma searchWikimediaImages_cause (params : SearchImagesInput.t) :
  match failure_cause (api (buildWikimediaApiUrl params)) with
  | Some cause =>
      searchWikimediaImages api params
      = inl (ErrorObject (lit "Failed to search Wikimedia Commons: " ++ cause))
  | None =>
      exists doc status statusText,
        api (buildWikimediaApiUrl params)
        = ApiResponse true status statusText (inr doc)
        /\ WikimediaApiResponse.error doc = None
        /\ exists r, snd (parseWikimediaResponse doc params) = inr r
                     /\ searchWikimediaImages api params = inr r
  end.
Proof.
  unfold searchWikimediaImages, fetchWikimediaImages, failure_cause.
  destruct (api (buildWikimediaApiUrl params))
    as [reason|[|] status statusText [reason|doc]]; cbn [negb];
    try reflexivity.
  rewrite parseWikimediaResponse_result.
  destruct (WikimediaApiResponse.error doc) as [e|] eqn:He; [reflexivity|].
  exists doc, status, statusText. split; [reflexivity|]. split; [exact He|].
  rewrite parseWikimediaResponse_result, He. eexists. split; reflexivity.
Qed.

(** A search that fails -- the request is rejected, the status is not ok,
    the body does not parse, or the document carries an error -- is
    answered with one text, marked as an error, that names the cause
    after both prefixes, and no thumbnail is fetched; a search that does
    not fail is never marked as an error.  The API is asked once, for the
    URL of the search. *)
Theorem wikimedia_search_images_failure (params : SearchImagesInput.t) :
  api_requested (tool params) = [buildWikimediaApiUrl params]
  /\ match failure_cause (api (buildWikimediaApiUrl params)) with
     | Some cause =>
         response (tool params)
         = {| content :=
                [TextItem (lit "Error searching Wikimedia Commons: "
                           ++ lit "Failed to search Wikimedia Commons: "
                           ++ cause)];
              isError := true |}
         /\ thumbnails_requested (tool params) = []
     | None => isError (response (tool params)) = false
     end.
Proof.
  pose proof (searchWikimediaImages_cause params) as Hs.
  unfold wikimedia_search_images.
  destruct (failure_cause (api (buildWikimediaApiUrl params))) as [cause|].
  - rewrite Hs. cbn. repeat split.
  - destruct Hs as (doc & status & statusText & _ & _ & r & _ & ->).
    split; [|]; repeat (destruct (_ =? _) || destruct (_ >? _)
                        || destruct (_ && _)%bool); reflexivity.
Qed.

(** The reply begins with a text and holds at most one image after it.
    The image is there only when thumbnails were asked for and the search
    gave a result; its data is then what [generateThumbnailComposite]
    returns for the images of that result, not empty, as [image/jpeg];
    the text is the formatted result, and the thumbnails fetched are those
    of that composite.  Without [include_thumbnails] no thumbnail is
    fetched, and never more than 15 are. *)
Theorem wikimedia_search_images_content (params : SearchImagesInput.t) :
  let run := tool params in
  (exists text rest,
     content (response run) = TextItem text :: rest
     /\ (rest = []
         \/ exists r,
              let composite :=
                generateThumbnailComposite fetch sharp_resize sharp_jpeg
                  (SearchResult.images r) in
              searchWikimediaImages api params = inr r
              /\ rest = [ImageItem (returned composite) (lit "image/jpeg")
                                   (lit "image/jpeg")]
              /\ returned composite <> []
              /\ text = formatSearchResults yaml_dump r
              /\ thumbnails_requested run = fetched composite
              /\ SearchImagesInput.include_thumbnails params = true
              /\ isError (response run) = false))
  /\ (SearchImagesInput.include_thumbnails params = false ->
      thumbnails_requested run = []
      /\ Forall is_text (content (response run)))
  /\ (length (thumbnails_requested run) <= 15)%nat.
Proof.
  cbv zeta. unfold wikimedia_search_images.
  destruct (searchWikimediaImages api params) as [error|r] eqn:Hsearch.
  { cbn. split; [eexists; eexists; split; [reflexivity|left; reflexivity]|].
    split; [intros _; split; repeat constructor|lia]. }
  destruct (Z.of_nat (length (SearchResult.images r)) =? 0).
  { cbn. split; [eexists; eexists; split; [reflexivity|left; reflexivity]|].
    split; [intros _; split; repeat constructor|lia]. }
  destruct (_ >? _).
  { cbn. split; [eexists; eexists; split; [reflexivity|left; reflexivity]|].
    split; [intros _; split; repeat constructor|lia]. }
  destruct (SearchImagesInput.include_thumbnails params) eqn:Hinc;
    cbn [andb].
  2:{ cbn. split; [eexists; eexists; split; [reflexivity|left; reflexivity]|].
      split; [intros _; split; repeat constructor|lia]. }
  destruct (0 <? Z.of_nat (length (SearchResult.images r)));
    cbn [response content isError thumbnails_requested].
  2:{ split; [eexists; eexists; split; [reflexivity|left; reflexivity]|].
      split; [discriminate|cbn; lia]. }
  split; [|split; [discriminate|]].
  - eexists. eexists. split; [reflexivity|].
    destruct (returned _) as [|c text] eqn:Hret; cbn [length];
      [left; reflexivity|right].
    replace (0 <? Z.of_nat (S (length text))) with true
      by (symmetry; apply Z.ltb_lt; lia).
    exists r. cbv zeta. rewrite Hret. repeat split. discriminate.
  - rewrite generateThumbnailComposite_run.
    destruct (successes _ _ _); cbn [fetched]; rewrite length_map;
      unfold retained; rewrite length_firstn;
      unfold MAX_IMAGES_IN_COMPOSITE; lia.
Qed.

(** A reply longer than 25000 units is cut: the reply is one text, that
    of the first half of the records (rounded down), with the paging
    fields of the whole result, followed by the warning; no thumbnail is
    fetched.  The text is not measured again.  With a single record the
    first half is empty, and the text is the one for a result without
    images. *)
Theorem wikimedia_search_images_truncated
    (params : SearchImagesInput.t) (r : SearchResult.t) :
  searchWikimediaImages api params = inr r ->
  SearchResult.images r <> [] ->
  Z.of_nat (length (SearchResult.images r)) < 2 ^ 53 ->
  CHARACTER_LIMIT < Z.of_nat (length (formatSearchResults yaml_dump r)) ->
  let shown := (length (SearchResult.images r) / 2)%nat in
  let truncatedResult :=
    {| SearchResult.images := firstn shown (SearchResult.images r);
       SearchResult.hasMore := SearchResult.hasMore r;
       SearchResult.nextOffset := SearchResult.nextOffset r |} in
  tool params
  = {| response :=
         {| content :=
              [TextItem (formatSearchResults yaml_dump truncatedResult
                         ++ truncation_warning (Z.of_nat shown))];
            isError := false |};
       api_requested := [buildWikimediaApiUrl params];
       thumbnails_requested := [] |}
  /\ (length (SearchResult.images r) = 1%nat ->
      formatSearchResults yaml_dump truncatedResult = no_images_text).
Proof.
  intros Hs Hne Hlen Hlong. cbv zeta. unfold wikimedia_search_images.
  rewrite Hs.
  replace (Z.of_nat (length (SearchResult.images r)) =? 0) with false
    by (symmetry; apply Z.eqb_neq; destruct (SearchResult.images r);
        [contradiction|cbn; lia]).
  replace (_ >? CHARACTER_LIMIT) with true
    by (symmetry; rewrite Z.gtb_ltb; apply Z.ltb_lt, Hlong).
  rewrite (half_count_div _ Hlen).
  assert (Hhalf : Z.of_nat (length (SearchResult.images r)) / 2
                  = Z.of_nat (length (SearchResult.images r) / 2))
    by (rewrite Nat2Z.inj_div; reflexivity).
  assert (Hslice : array_slice (SearchResult.images r) 0
                     (Z.of_nat (length (SearchResult.images r)) / 2)
                   = firstn (length (SearchResult.images r) / 2)
                            (SearchResult.images r)).
  { rewrite Hhalf. unfold array_slice. cbn [Z.ltb Z.compare].
    replace (Z.of_nat _ <? 0) with false by (symmetry; apply Z.ltb_ge; lia).
    rewrite (Z.min_l 0) by lia. cbn [Z.to_nat skipn].
    rewrite Z.sub_0_r, Z.min_l, Nat2Z.id; [reflexivity|].
    apply inj_le, Nat.Div0.div_le_upper_bound. lia. }
  rewrite Hslice. cbn [SearchResult.images].
  assert (Hshown : length (firstn (length (SearchResult.images r) / 2)
                                  (SearchResult.images r))
                   = (length (SearchResult.images r) / 2)%nat).
  { rewrite length_firstn. apply Nat.min_l.
    apply Nat.Div0.div_le_upper_bound. lia. }
  rewrite Hshown. split; [reflexivity|].
  intros H1. rewrite H1. reflexivity.
Qed.
End ToolProperties.

Lemma wikimedia_search_images_failure_witness :
  response (wikimedia_search_images api_unavailable yaml_long fetch_all_ok
              resize_keeps jpeg_markers (sample_params 0 9))
  = {| content :=
         [TextItem (lit "Error searching Wikimedia Commons: "
                    ++ lit "Failed to search Wikimedia Commons: "
                    ++ lit "Wikimedia API request failed: "
                    ++ number_to_string 503 ++ lit " "
                    ++ lit "Service Unavailable")];
       isError := true |}.
Proof.
  exact (proj1 (proj2 (wikimedia_search_images_failure api_unavailable
                         yaml_long fetch_all_ok resize_keeps jpeg_markers
                         (sample_params 0 9)))).
Defined.


(** The sample search with thumbnails: the image of the reply is the
    composite of the three records. *)
Example wikimedia_search_images_with_composite :
  match content (response (wikimedia_search_images api_sample yaml_short
                             fetch_all_ok resize_keeps jpeg_markers
                             (sample_params 0 9))) with
  | [TextItem _; ImageItem data mimeType _] =>
      data = lit "/9j/2Q==" /\ mimeType = lit "image/jpeg"
  | _ => False
  end.
Proof. vm_compute. split; reflexivity. Qed.

Lemma wikimedia_search_images_content_witness :
  thumbnails_requested
    (wikimedia_search_images api_sample yaml_long fetch_all_ok resize_keeps
       jpeg_markers
       {| SearchImagesInput.query := lit "cat";
          SearchImagesInput.limit := 9;
          SearchImagesInput.offset := 0;
          SearchImagesInput.license := all;
          SearchImagesInput.include_thumbnails := false |})
  = [].
Proof.
  apply (wikimedia_search_images_content api_sample yaml_long fetch_all_ok
           resize_keeps jpeg_markers).
  reflexivity.
Defined.

Lemma map_from_same (fetch : Z -> jsstring -> FetchOutcome)
    (sharp_resize : Buffer -> option Buffer)
    (l l' : list ImageMetadata.t) :
  Forall2 same_picture l l' ->
  forall k, map_from (process_image fetch sharp_resize) l k
            = map_from (process_image fetch sharp_resize) l' k.
Proof.
  induction 1 as [|a b l l' (Hu & Hw & Hh) _ IH]; intros k; [reflexivity|].
  cbn [map_from]. rewrite IH. f_equal.
  unfold process_image, fetch_and_resize, fetch_url. rewrite Hu, Hw, Hh.
  reflexivity.
Qed.

Lemma Forall2_firstn {A B} (R : A -> B -> Prop) (n : nat) (l : list A)
    (l' : list B) :
  Forall2 R l l' -> Forall2 R (firstn n l) (firstn n l').
Proof.
  intros H. revert n. induction H; intros [|n]; cbn; constructor; auto.
Qed.

(** The composite goes by position: two lists whose records agree, place
    by place, in URL, width and height give the same run -- the same
    requests, the same canvas with the same labels 1, 2, ..., the same
    text -- whatever the [index] and the other fields of the records. *)
Theorem generateThumbnailComposite_by_position
    (fetch : Z -> jsstring -> FetchOutcome)
    (sharp_resize : Buffer -> option Buffer)
    (sharp_jpeg : CompositeRequest -> Buffer)
    (images images' : list ImageMetadata.t) :
  Forall2 same_picture images images' ->
  generateThumbnailComposite fetch sharp_resize sharp_jpeg images
  = generateThumbnailComposite fetch sharp_resize sharp_jpeg images'.
Proof.
  intros Hsame. rewrite !generateThumbnailComposite_run.
  pose proof (Forall2_firstn same_picture
                (Z.to_nat MAX_IMAGES_IN_COMPOSITE) _ _ Hsame) as Hret.
  fold (retained images) in Hret. fold (retained images') in Hret.
  assert (Hs : successes fetch sharp_resize images
               = successes fetch sharp_resize images').
  { unfold successes, map_indexed.
    rewrite (map_from_same fetch sharp_resize _ _ Hret). reflexivity. }
  assert (Hf : map fetch_url (retained images)
               = map fetch_url (retained images')).
  { clear Hs. induction Hret as [|a b l l' (Hu & Hw & Hh) _ IH];
      [reflexivity|].
    cbn [map]. rewrite IH. f_equal. unfold fetch_url. rewrite Hu, Hw, Hh.
    reflexivity. }
  assert (Hc : canvas_request fetch sharp_resize images
               = canvas_request fetch sharp_resize images').
  { unfold canvas_request. rewrite Hs, (Forall2_length Hret). reflexivity. }
  rewrite Hs, Hf, Hc. reflexivity.
Qed.

Lemma generateThumbnailComposite_by_position_witness :
  generateThumbnailComposite fetch_second_missing resize_keeps jpeg_markers
    [sample_image 10 800 600; sample_image 11 600 800]
  = generateThumbnailComposite fetch_second_missing resize_keeps jpeg_markers
      [sample_image 1 800 600; sample_image 2 600 800].
Proof.
  apply generateThumbnailComposite_by_position.
  repeat constructor.
Defined.

Lemma wikimedia_search_images_truncated_witness :
  thumbnails_requested
    (wikimedia_search_images api_sample yaml_long fetch_all_ok resize_keeps
       jpeg_markers (sample_params 0 9)) = []
  /\ SearchImagesInput.include_thumbnails (sample_params 0 9) = true.
Proof.
  split; [|reflexivity].
  assert (Hs : searchWikimediaImages api_sample (sample_params 0 9)
               = inr sample_result) by (vm_compute; reflexivity).
  rewrite (proj1 (wikimedia_search_images_truncated api_sample yaml_long
                    fetch_all_ok resize_keeps jpeg_markers
                    (sample_params 0 9) sample_result Hs
                    ltac:(vm_compute; discriminate)
                    ltac:(vm_compute; reflexivity)
                    ltac:(vm_compute; reflexivity))).
  reflexivity.
Defined.
